(** * Artifact garbage collection (tfx/orchestration/experimental/core/garbage_collection.py)

    A shallow embedding of the garbage-collection engine: the retention
    policies, the in-use filter, the purge step and the node-level entry
    point, followed by the properties of the specification that concern
    them. *)

From stdpp Require Import gmap strings list sorting.
From Stdlib Require Import ZArith Lia OrderedTypeEx.

Local Open Scope Z_scope.

(** ** Exceptions and results

    Every exception the module can meet derives from Python's [Exception],
    which is what the [except Exception] clauses of the source catch. *)

Inductive exn :=
| ValueError (msg : string)
| RuntimeError (msg : string)
| IndexError (msg : string)
| KeyError (msg : string)
| StoreError (msg : string)
| OSError (msg : string).

Inductive result (A : Type) :=
| Ok (a : A)
| Raise (e : exn).
Arguments Ok {A} a.
Arguments Raise {A} e.

(** ** Data model (the protobuf messages the module reads) *)

(** A primitive property value, [types.Property]: integers and strings.
    Floating-point and structured values are left out of the model. *)
Inductive Property :=
| PInt (z : Z)
| PStr (s : string).

Inductive PType := TInt | TStr.

(** Python's [type(property_value)]. *)
Definition type_of (p : Property) : PType :=
  match p with PInt _ => TInt | PStr _ => TStr end.

(** [metadata_store_pb2.Value]: a oneof that may be left unset. *)
Inductive Value :=
| int_value (z : Z)
| string_value (s : string)
| value_not_set.

(** Modelled from the spec: [data_types_utils.get_metadata_value] is not part
    of the sources at hand; a set value yields its primitive, a missing value
    the null of the "distinguished null bucket". *)
Definition get_metadata_value (v : Value) : option Property :=
  match v with
  | int_value z => Some (PInt z)
  | string_value s => Some (PStr s)
  | value_not_set => None
  end.

(** The artifact states the module names: live artifacts are fetched, DELETED
    is assigned, MARKED_FOR_DELETION is the intermediate state the docstring of
    [garbage_collect_artifacts] explains it does not need. *)
Inductive ArtifactState := LIVE | MARKED_FOR_DELETION | DELETED.

Module Artifact.
Record t := mk {
  id : Z;
  uri : string;
  create_time_since_epoch : Z;
  properties : gmap string Value;
  custom_properties : gmap string Value;
  state : ArtifactState
}.

(** The assignment [artifact.state = s]. *)
Definition set_state (s : ArtifactState) (a : t) : t :=
  mk (id a) (uri a) (create_time_since_epoch a)
     (properties a) (custom_properties a) s.
End Artifact.

#[global] Instance exn_eq_dec : EqDecision exn.
Proof. solve_decision. Defined.
#[global] Instance Property_eq_dec : EqDecision Property.
Proof. solve_decision. Defined.
#[global] Instance PType_eq_dec : EqDecision PType.
Proof. solve_decision. Defined.
#[global] Instance Value_eq_dec : EqDecision Value.
Proof. solve_decision. Defined.
#[global] Instance ArtifactState_eq_dec : EqDecision ArtifactState.
Proof. solve_decision. Defined.
#[global] Instance Artifact_eq_dec : EqDecision Artifact.t.
Proof. solve_decision. Defined.

(** ** Python list primitives *)

(** [l[i]] with Python's negative indices; out of range raises IndexError. *)
Definition py_index {A} (l : list A) (i : Z) : result A :=
  let j := if i <? 0 then i + Z.of_nat (length l) else i in
  if (0 <=? j) && (j <? Z.of_nat (length l)) then
    match l !! Z.to_nat j with
    | Some x => Ok x
    | None => Raise (IndexError "list index out of range")
    end
  else Raise (IndexError "list index out of range").

(** [l[-k:]] for a positive [k]: the last [k] elements, all of [l] when it is
    shorter. *)
Definition py_slice_last {A} (k : Z) (l : list A) : list A :=
  drop (length l - Z.to_nat k)%nat l.

(** [l[:k]] for a positive [k]. *)
Definition py_slice_first {A} (k : Z) (l : list A) : list A :=
  take (Z.to_nat k) l.

(** [sorted] on integers. *)
Definition sorted_Z (l : list Z) : list Z := merge_sort Z.le l.

(** ** KeepMostRecentlyPublished *)

Definition _artifacts_not_most_recently_published
    (artifacts : list Artifact.t) (num_artifacts : Z) : result (list Artifact.t) :=
  if num_artifacts <=? 0 then Ok artifacts
  else if Z.of_nat (length artifacts) <=? num_artifacts then Ok []
  else
    let publish_times :=
      sorted_Z (map Artifact.create_time_since_epoch artifacts) in
    match py_index publish_times (- num_artifacts) with
    | Ok cutoff_publish_time =>
        Ok (filter (λ a, Artifact.create_time_since_epoch a < cutoff_publish_time)
                   artifacts)
    | Raise e => Raise e
    end.

(** ** Logging

    [absl.logging] calls are recorded as (level, message) pairs; the message is
    the format string of the source. *)

Inductive LogLevel := INFO | ERROR | EXCEPTION.
Definition LogRecord : Type := LogLevel * string.

(** Policy evaluation touches nothing but the log: it runs in a writer monad
    over [result]. *)
Definition Logged (A : Type) : Type := list LogRecord * result A.

Definition lret {A} (a : A) : Logged A := ([], Ok a).
Definition lraise {A} (e : exn) : Logged A := ([], Raise e).
Definition llog (lvl : LogLevel) (msg : string) : Logged unit := ([(lvl, msg)], Ok tt).
Definition llift {A} (r : result A) : Logged A := ([], r).
Definition lbind {A B} (m : Logged A) (f : A → Logged B) : Logged B :=
  match m with
  | (l, Ok a) => let '(l', r) := f a in (l ++ l', r)
  | (l, Raise e) => (l, Raise e)
  end.

Declare Scope logged_scope.
Delimit Scope logged_scope with logged.
Notation "'let*' x ':=' m 'in' k" := (lbind m (λ x, k))
  (at level 10, x name, m at level 100, k at level 200, only parsing)
  : logged_scope.
Notation "'let*' ' pat ':=' m 'in' k" := (lbind m (λ x, match x with pat => k end))
  (at level 10, pat pattern, m at level 100, k at level 200, only parsing)
  : logged_scope.
Notation "'do*' m 'in' k" := (lbind m (λ _, k))
  (at level 10, m at level 100, k at level 200, only parsing) : logged_scope.

(** ** KeepPropertyValueGroups *)

Inductive KeepOrder :=
| KEEP_ORDER_UNSPECIFIED
| KEEP_ORDER_LARGEST
| KEEP_ORDER_SMALLEST
| KEEP_ORDER_UNRECOGNIZED (wire : Z).

Module Grouping.
Record t := mk {
  property_name : string;
  keep_num : Z;
  keep_order : KeepOrder
}.
End Grouping.

Definition _get_property_value (artifact : Artifact.t) (property_name : string)
    : option Property :=
  match Artifact.properties artifact !! property_name with
  | Some v => get_metadata_value v
  | None =>
      match Artifact.custom_properties artifact !! property_name with
      | Some v => get_metadata_value v
      | None => None
      end
  end.

(** The order [sorted] uses on property values.  Python compares integers
    with integers and strings with strings; lists of mixed types never reach
    [sorted] (the type check of the partition loop raises first), so the
    order between an integer and a string is immaterial. *)
Definition prop_le (p q : Property) : Prop :=
  match p, q with
  | PInt a, PInt b => a ≤ b
  | PStr s, PStr t => String.leb s t = true
  | PInt _, PStr _ => True
  | PStr _, PInt _ => False
  end.

#[global] Instance prop_le_dec p q : Decision (prop_le p q).
Proof. destruct p, q; simpl; apply _. Defined.

Definition sorted_props (l : list Property) : list Property :=
  merge_sort prop_le l.

(** [collections.defaultdict(list)], in insertion order. *)
Definition Buckets : Type := list (option Property * list Artifact.t).

(** [d[k].append(a)] *)
Fixpoint dd_append (k : option Property) (a : Artifact.t) (d : Buckets) : Buckets :=
  match d with
  | [] => [(k, [a])]
  | (k', l) :: d' =>
      if decide (k = k') then (k', l ++ [a]) :: d'
      else (k', l) :: dd_append k a d'
  end.

Definition dd_keys (d : Buckets) : list (option Property) := map fst d.
Definition dd_values (d : Buckets) : list (list Artifact.t) := map snd d.

(** [d[k]] *)
Fixpoint dd_get (k : option Property) (d : Buckets) : list Artifact.t :=
  match d with
  | [] => []
  | (k', l) :: d' => if decide (k = k') then l else dd_get k d'
  end.

(** [k in d] *)
Definition dd_mem (k : option Property) (d : Buckets) : bool :=
  bool_decide (k ∈ dd_keys d).

(** The loop over the artifacts of one group (source lines 152-162): fills
    the buckets and checks that the non-null values share one type. *)
Fixpoint partition_group (property_name : string) (artifact_group : list Artifact.t)
    (all_property_value_type : option PType) (artifacts_by_property_value : Buckets)
    : result (option PType * Buckets) :=
  match artifact_group with
  | [] => Ok (all_property_value_type, artifacts_by_property_value)
  | artifact :: rest =>
      let property_value := _get_property_value artifact property_name in
      match property_value with
      | Some v =>
          match all_property_value_type with
          | Some ty =>
              if decide (ty ≠ type_of v) then
                Raise (ValueError "Properties from the same group should have a homogenous type except NoneType.")
              else
                partition_group property_name rest (Some (type_of v))
                  (dd_append property_value artifact artifacts_by_property_value)
          | None =>
              partition_group property_name rest (Some (type_of v))
                (dd_append property_value artifact artifacts_by_property_value)
          end
      | None =>
          partition_group property_name rest all_property_value_type
            (dd_append property_value artifact artifacts_by_property_value)
      end
  end.

(** Source lines 164-186: the groups one partitioned group contributes to
    [next_artifact_groups]. *)
Definition groups_to_keep (grouping : Grouping.t) (artifacts_by_property_value : Buckets)
    : Logged (list (list Artifact.t)) :=
  (if Grouping.keep_num grouping <=? 0 then
    lret (dd_values artifacts_by_property_value)
  else
    let sorted_property_values :=
      sorted_props (omap id (dd_keys artifacts_by_property_value)) in
    let* property_values_to_keep :=
      match Grouping.keep_order grouping with
      | KEEP_ORDER_UNSPECIFIED | KEEP_ORDER_LARGEST =>
          lret (py_slice_last (Grouping.keep_num grouping) sorted_property_values)
      | KEEP_ORDER_SMALLEST =>
          lret (py_slice_first (Grouping.keep_num grouping) sorted_property_values)
      | KEEP_ORDER_UNRECOGNIZED _ =>
          (do* llog ERROR "Unknown keep_order in grouping" in
           lraise (ValueError "Unknown keep_order in grouping"))
      end in
    lret (map (λ v, dd_get (Some v) artifacts_by_property_value) property_values_to_keep
          ++ if dd_mem None artifacts_by_property_value
                && bool_decide (Z.of_nat (length property_values_to_keep)
                                < Grouping.keep_num grouping)
             then [dd_get None artifacts_by_property_value] else []))%logged.

(** The loop over the current groups (source lines 150-186).  The type seen so
    far is shared by all the groups of one grouping. *)
Fixpoint group_loop (grouping : Grouping.t) (artifact_groups : list (list Artifact.t))
    (all_property_value_type : option PType)
    (next_artifact_groups : list (list Artifact.t))
    : Logged (list (list Artifact.t)) :=
  match artifact_groups with
  | [] => lret next_artifact_groups
  | artifact_group :: rest =>
      (let* '(ty, artifacts_by_property_value) :=
          llift (partition_group (Grouping.property_name grouping) artifact_group
                   all_property_value_type []) in
       let* kept := groups_to_keep grouping artifacts_by_property_value in
       group_loop grouping rest ty (next_artifact_groups ++ kept))%logged
  end.

(** The loop over the groupings (source lines 147-187). *)
Fixpoint grouping_loop (groupings : list Grouping.t)
    (artifact_groups : list (list Artifact.t)) : Logged (list (list Artifact.t)) :=
  match groupings with
  | [] => lret artifact_groups
  | grouping :: rest =>
      (let* next_artifact_groups := group_loop grouping artifact_groups None [] in
       grouping_loop rest next_artifact_groups)%logged
  end.

Definition _artifacts_not_kept_by_property_value_groups
    (artifacts : list Artifact.t) (groupings : list Grouping.t)
    : Logged (list Artifact.t) :=
  (let* artifact_groups := grouping_loop groupings [artifacts] in
   let artifacts_ids_to_keep := map Artifact.id (concat artifact_groups) in
   lret (filter (λ a, Artifact.id a ∉ artifacts_ids_to_keep) artifacts))%logged.

(** ** Policy dispatch *)

Inductive PolicyVariant :=
| keep_most_recently_published (num_artifacts : Z)
| keep_property_value_groups (groupings : list Grouping.t)
| policy_not_set.

(** The configuration block of the pipeline-group extension; its contents are
    read by the extension only. *)
Definition PipelineGroups : Type := list string.

Module GarbageCollectionPolicy.
Record t := mk {
  policy : PolicyVariant;
  keep_if_used_in_pipeline_groups : PipelineGroups
}.
End GarbageCollectionPolicy.

Definition _artifacts_to_garbage_collect_for_policy
    (artifacts : list Artifact.t) (policy : GarbageCollectionPolicy.t)
    : Logged (list Artifact.t) :=
  match GarbageCollectionPolicy.policy policy with
  | keep_most_recently_published num_artifacts =>
      llift (_artifacts_not_most_recently_published artifacts num_artifacts)
  | keep_property_value_groups groupings =>
      _artifacts_not_kept_by_property_value_groups artifacts groupings
  | policy_not_set =>
      (do* llog ERROR "Skipped garbage collection due to unknown policy: %s" in
       lret [])%logged
  end.

(** ** The metadata store and the filesystem *)

(** Modelled from the spec: events and executions live in [metadata_store_pb2]
    and their predicates in [event_lib] and [execution_lib], none of which is
    among the sources; an event "links an artifact id to an execution id with
    a direction (input/output)", an execution has an "id, lifecycle state
    (active or terminal)". *)
Inductive Direction := INPUT | OUTPUT.

Module Event.
Record t := mk {
  artifact_id : Z;
  execution_id : Z;
  direction : Direction
}.
End Event.

Inductive ExecutionState := ACTIVE | TERMINAL.

Module Execution.
Record t := mk {
  id : Z;
  last_known_state : ExecutionState
}.
End Execution.

#[global] Instance Direction_eq_dec : EqDecision Direction.
Proof. solve_decision. Defined.
#[global] Instance ExecutionState_eq_dec : EqDecision ExecutionState.
Proof. solve_decision. Defined.

(** Modelled from the spec: [event_lib.is_valid_input_event]. *)
Definition is_valid_input_event (e : Event.t) : bool :=
  bool_decide (Event.direction e = INPUT).

(** Modelled from the spec: [execution_lib.is_execution_active]. *)
Definition is_execution_active (x : Execution.t) : bool :=
  bool_decide (Execution.last_known_state x = ACTIVE).

Inductive StoreOp :=
| GetLiveOutputArtifacts
| GetEventsByArtifactIds
| GetExecutionsById
| PutArtifacts.

(** Modelled from the spec: the MLMD store behind [mlmd_handle.store], with
    the four queries of the "MetadataStore contract consumed".  [fault] tells
    which operations fail with a store error; [writes] records the batches
    handed to [put_artifacts], oldest first. *)
Module Store.
Record t := mk {
  live_outputs : string → string → gmap string (list (list Artifact.t));
  events : list Event.t;
  executions : gmap Z ExecutionState;
  artifacts : gmap Z Artifact.t;
  writes : list (list Artifact.t);
  fault : StoreOp → option exn
}.

Definition guard {A} (op : StoreOp) (s : t) (a : A) : result A :=
  match fault s op with
  | Some e => Raise e
  | None => Ok a
  end.

Definition get_live_output_artifacts_of_node_by_output_key
    (pipeline_id node_id : string) (s : t)
    : result (gmap string (list (list Artifact.t))) :=
  guard GetLiveOutputArtifacts s (live_outputs s pipeline_id node_id).

Definition get_events_by_artifact_ids (ids : gset Z) (s : t)
    : result (list Event.t) :=
  guard GetEventsByArtifactIds s
    (filter (λ e, Event.artifact_id e ∈ ids) (events s)).

Definition get_executions_by_id (ids : list Z) (s : t)
    : result (list Execution.t) :=
  guard GetExecutionsById s
    (omap (λ i, Execution.mk i <$> executions s !! i) (remove_dups ids)).

(** Batch upsert, keyed by artifact id. *)
Definition upsert (batch : list Artifact.t) (tbl : gmap Z Artifact.t)
    : gmap Z Artifact.t :=
  foldl (λ m a, <[Artifact.id a := a]> m) tbl batch.

Definition put_artifacts (batch : list Artifact.t) (s : t) : result unit * t :=
  match fault s PutArtifacts with
  | Some e => (Raise e, s)
  | None =>
      (Ok tt,
       mk (live_outputs s) (events s) (executions s)
          (upsert batch (artifacts s)) (writes s ++ [batch]) (fault s))
  end.
End Store.

(** [tfx.dsl.io.fileio]: the four operations the module calls.  Each may raise
    and may change the filesystem. *)
Class FileIO (F : Type) := {
  fileio_isdir : string → F → result bool * F;
  fileio_rmtree : string → F → result unit * F;
  fileio_remove : string → F → result unit * F;
  fileio_exists : string → F → result bool * F
}.

Inductive FsCall :=
| CallIsdir (uri : string)
| CallRmtree (uri : string)
| CallRemove (uri : string)
| CallExists (uri : string).

Definition call_uri (c : FsCall) : string :=
  match c with
  | CallIsdir u | CallRmtree u | CallRemove u | CallExists u => u
  end.

(** [garbage_collection_extensions.artifacts_not_in_use_in_pipeline_groups]:
    an extension hook outside the sources; it reads the store and may raise. *)
Class GarbageCollectionExtensions := {
  artifacts_not_in_use_in_pipeline_groups :
    Store.t → PipelineGroups → list Artifact.t → result (list Artifact.t)
}.

(** ** The world and its monad

    The store behind [mlmd_handle], the filesystem, the filesystem calls made
    so far (oldest first) and the log.  A raised exception keeps the effects
    that preceded it. *)
Record World (F : Type) := mkWorld {
  w_fs : F;
  w_calls : list FsCall;
  w_store : Store.t;
  w_log : list LogRecord
}.
Arguments mkWorld {F} _ _ _ _.
Arguments w_fs {F} _.
Arguments w_calls {F} _.
Arguments w_store {F} _.
Arguments w_log {F} _.

Definition M (F A : Type) : Type := World F → result A * World F.

Section monad.
Context {F : Type}.

Definition ret {A} (a : A) : M F A := λ w, (Ok a, w).
Definition raise {A} (e : exn) : M F A := λ w, (Raise e, w).
Definition bind {A B} (m : M F A) (f : A → M F B) : M F B :=
  λ w, match m w with
       | (Ok a, w') => f a w'
       | (Raise e, w') => (Raise e, w')
       end.

(** [try: m except Exception: h] *)
Definition try_except {A} (m : M F A) (h : exn → M F A) : M F A :=
  λ w, match m w with
       | (Ok a, w') => (Ok a, w')
       | (Raise e, w') => h e w'
       end.

Definition add_logs (l : list LogRecord) (w : World F) : World F :=
  mkWorld (w_fs w) (w_calls w) (w_store w) (w_log w ++ l).

Definition log (lvl : LogLevel) (msg : string) : M F unit :=
  λ w, (Ok tt, add_logs [(lvl, msg)] w).

Definition lift_logged {A} (m : Logged A) : M F A :=
  λ w, (snd m, add_logs (fst m) w).

(** A computation without effects that may raise. *)
Definition lift_result {A} (r : result A) : M F A := λ w, (r, w).

(** A read-only store query. *)
Definition store_read {A} (q : Store.t → result A) : M F A :=
  λ w, (q (w_store w), w).

Definition store_put_artifacts (batch : list Artifact.t) : M F unit :=
  λ w, let '(r, s) := Store.put_artifacts batch (w_store w) in
       (r, mkWorld (w_fs w) (w_calls w) s (w_log w)).

(** A filesystem call: recorded, then performed. *)
Definition fs_call {A} (c : FsCall) (op : F → result A * F) : M F A :=
  λ w, let '(r, fs) := op (w_fs w) in
       (r, mkWorld fs (w_calls w ++ [c]) (w_store w) (w_log w)).
End monad.

Declare Scope m_scope.
Delimit Scope m_scope with M.
Notation "'let!' x ':=' m 'in' k" := (bind m (λ x, k))
  (at level 10, x name, m at level 100, k at level 200, only parsing) : m_scope.
Notation "'do!' m 'in' k" := (bind m (λ _, k))
  (at level 10, m at level 100, k at level 200, only parsing) : m_scope.

(** ** Nodes *)

Module NodeUid.
Record t := mk {
  pipeline_id : string;
  node_id : string
}.
End NodeUid.

Module OutputSpec.
Record t := mk {
  (** [None] when [HasField('garbage_collection_policy')] is false. *)
  garbage_collection_policy : option GarbageCollectionPolicy.t
}.
End OutputSpec.

Module Node.
Record t := mk {
  node_info_id : string;
  outputs : gmap string OutputSpec.t
}.
End Node.

(** ** The garbage collector

    The functions below take the store from the world where the source
    passes [mlmd_handle]. *)

Section garbage_collection.
Context {F : Type} `{!FileIO F} {ext : GarbageCollectionExtensions}.

Local Open Scope m_scope.

Definition _get_live_output_artifacts_for_node (node_uid : NodeUid.t)
    : M F (gmap string (list Artifact.t)) :=
  let! live_output_artifacts_of_node_by_output_key :=
    store_read (Store.get_live_output_artifacts_of_node_by_output_key
                  (NodeUid.pipeline_id node_uid) (NodeUid.node_id node_uid)) in
  ret (@concat Artifact.t <$> live_output_artifacts_of_node_by_output_key).

Definition _get_garbage_collection_policies_for_node (node : Node.t)
    : gmap string GarbageCollectionPolicy.t :=
  omap OutputSpec.garbage_collection_policy (Node.outputs node).

(** The loop of source lines 84-90 over the input events. *)
Fixpoint in_use_loop (input_events : list Event.t)
    (execution_id_to_execution : gmap Z Execution.t)
    (in_use_artifact_ids : gset Z) : result (gset Z) :=
  match input_events with
  | [] => Ok in_use_artifact_ids
  | event :: rest =>
      match execution_id_to_execution !! Event.execution_id event with
      | None => Raise (RuntimeError "Could not find execution with id: %d")
      | Some execution =>
          in_use_loop rest execution_id_to_execution
            (if is_execution_active execution
             then {[Event.artifact_id event]} ∪ in_use_artifact_ids
             else in_use_artifact_ids)
      end
  end.

Definition _artifacts_not_in_use (artifacts : list Artifact.t)
    (events : list Event.t) : M F (list Artifact.t) :=
  let artifact_ids : gset Z := list_to_set (map Artifact.id artifacts) in
  let input_events :=
    filter (λ e, Event.artifact_id e ∈ artifact_ids
                 ∧ is_valid_input_event e = true) events in
  let execution_ids := map Event.execution_id input_events in
  match execution_ids with
  | [] => ret artifacts
  | _ =>
      let! executions := store_read (Store.get_executions_by_id execution_ids) in
      let execution_id_to_execution : gmap Z Execution.t :=
        foldl (λ m e, <[Execution.id e := e]> m) ∅ executions in
      let! in_use_artifact_ids :=
        lift_result (in_use_loop input_events execution_id_to_execution ∅) in
      ret (filter (λ a, Artifact.id a ∉ in_use_artifact_ids) artifacts)
  end.

Definition _artifacts_to_garbage_collect (artifacts : list Artifact.t)
    (events : list Event.t) (policy : GarbageCollectionPolicy.t)
    : M F (list Artifact.t) :=
  let result := artifacts in
  let! result := lift_logged (_artifacts_to_garbage_collect_for_policy result policy) in
  let! result :=
    store_read (λ s, artifacts_not_in_use_in_pipeline_groups s
                       (GarbageCollectionPolicy.keep_if_used_in_pipeline_groups policy)
                       result) in
  let! result := _artifacts_not_in_use result events in
  ret result.

Definition _is_artifact_external (artifact : Artifact.t) : bool :=
  bool_decide (_get_property_value artifact "is_external" = Some (PInt 1)).

(** The body of the [try] of [_delete_artifact_uri]. *)
Definition remove_uri (uri : string) : M F unit :=
  let! is_dir := fs_call (CallIsdir uri) (fileio_isdir uri) in
  if is_dir : bool then fs_call (CallRmtree uri) (fileio_rmtree uri)
  else fs_call (CallRemove uri) (fileio_remove uri).

Definition _delete_artifact_uri (artifact : Artifact.t) : M F bool :=
  do! log INFO "Deleting URI %s" in
  try_except
    (do! remove_uri (Artifact.uri artifact) in
     ret true)
    (λ _,
      let! found := fs_call (CallExists (Artifact.uri artifact))
                      (fileio_exists (Artifact.uri artifact)) in
      if negb found then
        do! log EXCEPTION "URI %s not found for artifact %s" in
        ret true
      else
        do! log EXCEPTION "Failed to delete artifact %s" in
        ret false).

(** The loop over the output keys (source lines 296-306). *)
Fixpoint output_key_loop (policies : list (string * GarbageCollectionPolicy.t))
    (artifacts_by_output_key : gmap string (list Artifact.t))
    (events : list Event.t) (result : list Artifact.t) : M F (list Artifact.t) :=
  match policies with
  | [] => ret result
  | (output_key, policy) :: rest =>
      match artifacts_by_output_key !! output_key with
      | None => output_key_loop rest artifacts_by_output_key events result
      | Some artifacts =>
          let! artifacts_to_garbage_collect_for_output_key :=
            _artifacts_to_garbage_collect artifacts events policy in
          do! log INFO "Artifacts to garbage collect for output key %s: %s" in
          output_key_loop rest artifacts_by_output_key events
            (result ++ artifacts_to_garbage_collect_for_output_key)
      end
  end.

Definition get_artifacts_to_garbage_collect_for_node
    (node_uid : NodeUid.t) (node : Node.t) : M F (list Artifact.t) :=
  let policies_by_output_key := _get_garbage_collection_policies_for_node node in
  do! log INFO "Garbage collection policies for node %s: %s" in
  if decide (policies_by_output_key = ∅) then ret []
  else
    let! artifacts_by_output_key := _get_live_output_artifacts_for_node node_uid in
    if decide (artifacts_by_output_key = ∅) then ret []
    else
      do! log INFO "Candidate artifacts to garbage collect for node %s : %s" in
      let dedupped_artifact_ids : gset Z :=
        list_to_set (map Artifact.id
                       (concat (map snd (map_to_list artifacts_by_output_key)))) in
      let! events :=
        store_read (Store.get_events_by_artifact_ids dedupped_artifact_ids) in
      output_key_loop (map_to_list policies_by_output_key)
        artifacts_by_output_key events [].

(** The body of the loop of [garbage_collect_artifacts] (source lines
    328-338); it returns the artifact as the loop leaves it. *)
Definition garbage_collect_artifact (artifact : Artifact.t) : M F Artifact.t :=
  if _is_artifact_external artifact then
    do! log INFO "Mark external artifact %s as DELETED in MLMD" in
    ret (Artifact.set_state DELETED artifact)
  else
    let! deleted := _delete_artifact_uri artifact in
    if deleted : bool then
      do! log INFO "Mark internal artifact %s as DELETED in MLMD" in
      ret (Artifact.set_state DELETED artifact)
    else ret artifact.

Fixpoint purge_loop (artifacts : list Artifact.t) : M F (list Artifact.t) :=
  match artifacts with
  | [] => ret []
  | artifact :: rest =>
      let! artifact' := garbage_collect_artifact artifact in
      let! rest' := purge_loop rest in
      ret (artifact' :: rest')
  end.

Definition garbage_collect_artifacts (artifacts : list Artifact.t) : M F unit :=
  match artifacts with
  | [] => ret tt
  | _ =>
      let! artifacts := purge_loop artifacts in
      store_put_artifacts artifacts
  end.

Definition run_garbage_collection_for_node (node_uid : NodeUid.t) (node : Node.t)
    : M F unit :=
  do! log INFO "Garbage collection requested for node %s" in
  if decide (Node.node_info_id node ≠ NodeUid.node_id node_uid) then
    raise (ValueError "Node uids do not match for garbage collection")
  else
    try_except
      (let! artifacts := get_artifacts_to_garbage_collect_for_node node_uid node in
       do! log INFO "Artifacts to garbage collect for node %s: %s" in
       garbage_collect_artifacts artifacts)
      (λ _, log EXCEPTION "Garbage collection for node %s failed").
End garbage_collection.

(** ** Vocabulary of the statements *)

(** The policies as configurations. *)
Definition kmrp (n : Z) (cfg : PipelineGroups) : GarbageCollectionPolicy.t :=
  GarbageCollectionPolicy.mk (keep_most_recently_published n) cfg.

Definition kpvg (groupings : list Grouping.t) (cfg : PipelineGroups)
    : GarbageCollectionPolicy.t :=
  GarbageCollectionPolicy.mk (keep_property_value_groups groupings) cfg.

(** The buckets after the artifacts of a group were appended to [d]. *)
Definition fill (p : string) (group : list Artifact.t) (d : Buckets) : Buckets :=
  foldl (λ d a, dd_append (_get_property_value a p) a d) d group.

(** Every non-null value of property [p] in [l] has type [t]. *)
Definition typed (p : string) (t : PType) (l : list Artifact.t) : Prop :=
  ∀ a v, a ∈ l → _get_property_value a p = Some v → type_of v = t.

(** The distinct non-null values of property [p] in a group. *)
Definition nonnull_values (p : string) (g : list Artifact.t) : list Property :=
  remove_dups (omap (λ a, _get_property_value a p) g).

(** How many of the values lie strictly above, respectively below, [v]. *)
Definition rank_above (v : Property) (vals : list Property) : nat :=
  length (filter (λ u, ¬ prop_le u v) vals).
Definition rank_below (v : Property) (vals : list Property) : nat :=
  length (filter (λ u, ¬ prop_le v u) vals).

(** The bucket of key [key] of group [g] survives the grouping: the grouping
    keeps everything, or the key is among the [keep_num] topmost (bottommost)
    distinct values, or it is the null bucket and fewer than [keep_num]
    distinct values exist. *)
Definition survives (gr : Grouping.t) (g : list Artifact.t) (key : option Property)
    : Prop :=
  Grouping.keep_num gr ≤ 0
  ∨ match key with
    | Some v =>
        match Grouping.keep_order gr with
        | KEEP_ORDER_UNSPECIFIED | KEEP_ORDER_LARGEST =>
            Z.of_nat (rank_above v (nonnull_values (Grouping.property_name gr) g))
            < Grouping.keep_num gr
        | KEEP_ORDER_SMALLEST =>
            Z.of_nat (rank_below v (nonnull_values (Grouping.property_name gr) g))
            < Grouping.keep_num gr
        | KEEP_ORDER_UNRECOGNIZED _ => False
        end
    | None =>
        Z.of_nat (length (nonnull_values (Grouping.property_name gr) g))
        < Grouping.keep_num gr
    end.

#[global] Instance survives_dec gr g key : Decision (survives gr g key).
Proof.
  unfold survives. destruct key; [destruct (Grouping.keep_order gr)|]; apply _.
Defined.

(** The grouping can be evaluated: its order is known, or not consulted. *)
Definition order_ok (gr : Grouping.t) : Prop :=
  Grouping.keep_num gr ≤ 0
  ∨ match Grouping.keep_order gr with
    | KEEP_ORDER_UNRECOGNIZED _ => False
    | _ => True
    end.

#[global] Instance order_ok_dec gr : Decision (order_ok gr).
Proof. unfold order_ok. destruct (Grouping.keep_order gr); apply _. Defined.

(** The groups of a list are pairwise disjoint or equal. *)
Definition separated (L : list (list Artifact.t)) : Prop :=
  ∀ g g' a, g ∈ L → g' ∈ L → a ∈ g → a ∈ g' → g = g'.

(** The groups a grouping derives from the groups of [L]: the surviving
    buckets of each group. *)
Definition next_group (gr : Grouping.t) (L : list (list Artifact.t))
    (g' : list Artifact.t) : Prop :=
  ∃ g key, g ∈ L
           ∧ key ∈ (λ a, _get_property_value a (Grouping.property_name gr)) <$> g
           ∧ survives gr g key
           ∧ g' = filter (λ a, _get_property_value a (Grouping.property_name gr) = key) g.

(** An artifact is kept by a single LARGEST grouping on [p] with
    [keep_num = k > 0]: its value is among the [k] largest distinct non-null
    values (fewer than [k] distinct values lie strictly above it), or it has
    no value and fewer than [k] distinct non-null values exist. *)
Definition kept_largest (p : string) (k : Z) (A : list Artifact.t) (a : Artifact.t)
    : Prop :=
  match _get_property_value a p with
  | Some v => Z.of_nat (rank_above v (nonnull_values p A)) < k
  | None => Z.of_nat (length (nonnull_values p A)) < k
  end.

#[global] Instance kept_largest_dec p k A a : Decision (kept_largest p k A a).
Proof. unfold kept_largest. destruct (_get_property_value a p); apply _. Defined.

(** The world right after [_delete_artifact_uri] logged its first line: the
    point at which the removal of the uri is attempted. *)
Definition at_removal {F} (w : World F) : World F :=
  add_logs [(INFO, "Deleting URI %s")] w.

(** Two artifact records agree on every field but the state, which is the
    old one or DELETED. *)
Definition same_but_state (a a' : Artifact.t) : Prop :=
  Artifact.id a' = Artifact.id a
  ∧ Artifact.uri a' = Artifact.uri a
  ∧ Artifact.create_time_since_epoch a' = Artifact.create_time_since_epoch a
  ∧ Artifact.properties a' = Artifact.properties a
  ∧ Artifact.custom_properties a' = Artifact.custom_properties a
  ∧ (Artifact.state a' = Artifact.state a ∨ Artifact.state a' = DELETED).

(** The node without one of its output keys. *)
Definition without_output (key : string) (node : Node.t) : Node.t :=
  Node.mk (Node.node_info_id node) (delete key (Node.outputs node)).

(** The ids identify the artifacts of the list: two entries with one id are
    one record (the store holds one record per id; a list may still hold the
    same artifact twice, as when two executions share an output). *)
Definition unique_ids (A : list Artifact.t) : Prop :=
  ∀ a b, a ∈ A → b ∈ A → Artifact.id a = Artifact.id b → a = b.

(** A computation that leaves the store and the filesystem alone: whatever
    it returns, the world differs by log records only. *)
Definition only_logs {F A} (m : M F A) : Prop :=
  ∀ w r w', m w = (r, w') → ∃ l, w' = add_logs l w.

(** The extension hook honours its contract: it only shrinks the candidates. *)
Definition extension_shrinks (ext : GarbageCollectionExtensions) : Prop :=
  ∀ s cfg l l',
    @artifacts_not_in_use_in_pipeline_groups ext s cfg l = Ok l' → l' ⊆ l.

(** The body of the [try] of [run_garbage_collection_for_node]. *)
Definition node_pass {F} `{!FileIO F} {ext : GarbageCollectionExtensions}
    (node_uid : NodeUid.t) (node : Node.t) : M F unit :=
  (let! artifacts := get_artifacts_to_garbage_collect_for_node node_uid node in
   do! log INFO "Artifacts to garbage collect for node %s: %s" in
   garbage_collect_artifacts artifacts)%M.

(** ** A simulated filesystem and concrete instances

    A concrete [FileIO]: a table of files and directories, some of them
    protected against removal. *)

Inductive FsNode := FsFile | FsDir.

#[global] Instance FsNode_eq_dec : EqDecision FsNode.
Proof. solve_decision. Defined.

Record SimFS := mkSimFS {
  sim_nodes : gmap string FsNode;
  sim_protected : gset string
}.

Definition sim_delete (uri : string) (fs : SimFS) : result unit * SimFS :=
  match sim_nodes fs !! uri with
  | None => (Raise (OSError "No such file or directory"), fs)
  | Some _ =>
      if decide (uri ∈ sim_protected fs) then (Raise (OSError "Permission denied"), fs)
      else (Ok tt, mkSimFS (delete uri (sim_nodes fs)) (sim_protected fs))
  end.

#[global] Instance SimFS_FileIO : FileIO SimFS := {|
  fileio_isdir uri fs := (Ok (bool_decide (sim_nodes fs !! uri = Some FsDir)), fs);
  fileio_rmtree := sim_delete;
  fileio_remove := sim_delete;
  fileio_exists uri fs := (Ok (bool_decide (is_Some (sim_nodes fs !! uri))), fs)
|}.

(** The extension that keeps every candidate. *)
Definition no_extension : GarbageCollectionExtensions :=
  {| artifacts_not_in_use_in_pipeline_groups _ _ artifacts := Ok artifacts |}.

(** A store without faults and without recorded writes, and a world over the
    simulated filesystem, for the concrete instances below. *)
Definition ex_store (live : list (string * list (list Artifact.t)))
    (events : list Event.t) (executions : list (Z * ExecutionState)) : Store.t :=
  Store.mk (λ _ _, list_to_map live) events (list_to_map executions) ∅ []
           (λ _, None).

Definition ex_world (nodes : list (string * FsNode)) (protected : list string)
    (s : Store.t) : World SimFS :=
  mkWorld (mkSimFS (list_to_map nodes) (list_to_set protected)) [] s [].

(** A live artifact with the given id, creation time, uri and typed
    properties, for the concrete instances below. *)
Definition mk_artifact (i t : Z) (u : string) (props : list (string * Value)) : Artifact.t :=
  Artifact.mk i u t (list_to_map props) ∅ LIVE.

(** Timestamps 10, 20, 20, 30. *)
Definition ex_ts : list Artifact.t :=
  [mk_artifact 1 10 "/a/1" []; mk_artifact 2 20 "/a/2" [];
   mk_artifact 3 20 "/a/3" []; mk_artifact 4 30 "/a/4" []].

(** Spans 1, 1, 2, 3. *)
Definition ex_span : list Artifact.t :=
  [mk_artifact 1 10 "/a/1" [("span", int_value 1)];
   mk_artifact 2 20 "/a/2" [("span", int_value 1)];
   mk_artifact 3 30 "/a/3" [("span", int_value 2)];
   mk_artifact 4 40 "/a/4" [("span", int_value 3)]].

(** The spans of [ex_span], the last artifact listed twice. *)
Definition ex_span_twice : list Artifact.t :=
  ex_span ++ [mk_artifact 4 40 "/a/4" [("span", int_value 3)]].

(** An external artifact (marked by a custom property), an internal one, and
    worlds in which the uri of the internal one is a directory, is missing,
    and is a protected file. *)
Definition ex_external : Artifact.t :=
  Artifact.mk 7 "/ext/7" 70 ∅ {["is_external" := int_value 1]} LIVE.
Definition ex_internal : Artifact.t := mk_artifact 8 80 "/a/8" [].
Definition w_present : World SimFS :=
  ex_world [("/a/8", FsDir); ("/ext/7", FsFile)] [] (ex_store [] [] []).
Definition w_missing : World SimFS :=
  ex_world [("/ext/7", FsFile)] [] (ex_store [] [] []).
Definition w_protected : World SimFS :=
  ex_world [("/a/8", FsFile); ("/ext/7", FsFile)] ["/a/8"] (ex_store [] [] []).

(** A node "trainer" whose output "model" keeps the most recently published
    artifact, with three live artifacts: the oldest is the input of an active
    execution, the middle one of a finished execution. *)
Definition ex_uid : NodeUid.t := NodeUid.mk "pipeline" "trainer".
Definition ex_node : Node.t :=
  Node.mk "trainer" {["model" := OutputSpec.mk (Some (kmrp 1 []))]}.
Definition a_old : Artifact.t := mk_artifact 1 10 "/a/1" [].
Definition a_mid : Artifact.t := mk_artifact 2 20 "/a/2" [].
Definition a_new : Artifact.t := mk_artifact 3 30 "/a/3" [].
Definition w_in_use : World SimFS :=
  ex_world [("/a/1", FsDir); ("/a/2", FsDir); ("/a/3", FsDir)] []
    (ex_store [("model", [[a_old; a_mid]; [a_new]])]
       [Event.mk 1 100 INPUT; Event.mk 2 101 INPUT; Event.mk 3 102 OUTPUT]
       [(100, ACTIVE); (101, TERMINAL); (102, TERMINAL)]).

(** The same store, unable to answer the query for live artifacts. *)
Definition w_store_down : World SimFS :=
  mkWorld (w_fs w_in_use) []
    (Store.mk (Store.live_outputs (w_store w_in_use)) (Store.events (w_store w_in_use))
       (Store.executions (w_store w_in_use)) ∅ []
       (λ op, match op with
              | GetLiveOutputArtifacts => Some (StoreError "unavailable")
              | _ => None
              end))
    [].

(** The node of [ex_node] with a second output, "examples", grouped by span,
    whose two live artifacts carry an integer and a string span. *)
Definition node_mixed : Node.t :=
  Node.mk "trainer"
    {["model" := OutputSpec.mk (Some (kmrp 1 []));
      "examples" := OutputSpec.mk
                      (Some (kpvg [Grouping.mk "span" 1 KEEP_ORDER_LARGEST] []))]}.
Definition x_int : Artifact.t := mk_artifact 11 10 "/x/11" [("span", int_value 1)].
Definition x_str : Artifact.t :=
  mk_artifact 12 20 "/x/12" [("span", string_value "two")].
Definition w_mixed : World SimFS :=
  ex_world [("/a/1", FsDir); ("/a/3", FsDir); ("/x/11", FsDir); ("/x/12", FsDir)] []
    (ex_store [("model", [[a_old]; [a_new]]); ("examples", [[x_int; x_str]])] [] []).

(** An artifact is in use: an input event of the list names it and the
    execution of that event is active in the store. *)
Definition in_use (s : Store.t) (events : list Event.t) (a : Artifact.t) : Prop :=
  Exists (λ e, Event.artifact_id e = Artifact.id a
               ∧ is_valid_input_event e = true
               ∧ Store.executions s !! Event.execution_id e = Some ACTIVE) events.

(** An event the in-use filter looks at: an input event on one of the
    candidates. *)
Definition relevant_event (artifacts : list Artifact.t) (e : Event.t) : Prop :=
  Event.artifact_id e ∈ Artifact.id <$> artifacts
  ∧ is_valid_input_event e = true.

(** A store with an event on a candidate whose execution is missing. *)
Definition w_dangling : World SimFS :=
  ex_world [] []
    (ex_store [] [Event.mk 1 100 INPUT; Event.mk 2 555 INPUT] [(100, TERMINAL)]).

(** The counterpart of [kept_largest] for a SMALLEST grouping: fewer than [k]
    distinct values lie strictly below the artifact's value. *)
Definition kept_smallest (p : string) (k : Z) (A : list Artifact.t) (a : Artifact.t)
    : Prop :=
  match _get_property_value a p with
  | Some v => Z.of_nat (rank_below v (nonnull_values p A)) < k
  | None => Z.of_nat (length (nonnull_values p A)) < k
  end.

#[global] Instance kept_smallest_dec p k A a : Decision (kept_smallest p k A a).
Proof. unfold kept_smallest. destruct (_get_property_value a p); apply _. Defined.

(** The artifacts a delete-set leaves. *)
Definition kept_by (A D : list Artifact.t) : list Artifact.t := list_difference A D.

(** Timestamps 10, 20, 30, 40. *)
Definition ex_distinct : list Artifact.t :=
  [mk_artifact 1 10 "/a/1" []; mk_artifact 2 20 "/a/2" [];
   mk_artifact 3 30 "/a/3" []; mk_artifact 4 40 "/a/4" []].

(** Spans 1, 1, 2, 3 and an artifact without a span, grouped by span with a
    non-positive keep_num and an order the enum does not know. *)
Definition ex_span_null : list Artifact.t := ex_span ++ [mk_artifact 5 50 "/a/5" []].
Definition gr_keep_all : Grouping.t :=
  Grouping.mk "span" 0 (KEEP_ORDER_UNRECOGNIZED 7).

(** Two versions of span 1 and one artifact of span 2. *)
Definition ex_versions : list Artifact.t :=
  [mk_artifact 1 10 "/a/1" [("span", int_value 1); ("version", int_value 1)];
   mk_artifact 2 20 "/a/2" [("span", int_value 1); ("version", int_value 2)];
   mk_artifact 3 30 "/a/3" [("span", int_value 2); ("version", int_value 1)]].

(** A node whose only output has no policy, and a store that fails on every
    operation. *)
Definition node_no_policy : Node.t :=
  Node.mk "trainer" {["model" := OutputSpec.mk None]}.
Definition w_all_down : World SimFS :=
  mkWorld (w_fs w_in_use) []
    (Store.mk (Store.live_outputs (w_store w_in_use)) (Store.events (w_store w_in_use))
       (Store.executions (w_store w_in_use)) ∅ []
       (λ _, Some (StoreError "unavailable")))
    [].

(** A store without live artifacts that cannot answer queries for events. *)
Definition w_nothing_live : World SimFS :=
  mkWorld (w_fs w_in_use) []
    (Store.mk (λ _ _, ∅) [] ∅ ∅ []
       (λ op, match op with
              | GetEventsByArtifactIds => Some (StoreError "unavailable")
              | _ => None
              end))
    [].

(** A store in which the event on the newest artifact names an execution
    that is missing. *)
Definition w_dangling_kept : World SimFS :=
  ex_world [] []
    (ex_store [] [Event.mk 1 100 INPUT; Event.mk 3 555 INPUT] [(100, TERMINAL)]).

(** The k-th smallest element of a list of timestamps, counted from 1 as in
    the prose "the (count - n)-th smallest timestamp". *)
Definition spec_kth_smallest (l : list Z) (k : Z) : option Z :=
  if decide (0 < k) then sorted_Z l !! Z.to_nat (k - 1) else None.

(** Timestamps 10, 20. *)
Definition ex_two : list Artifact.t :=
  [mk_artifact 1 10 "/a/1" []; mk_artifact 2 20 "/a/2" []].

(** What [_delete_artifact_uri] answers once the removal has raised, on the
    filesystem the failed removal left: True when the existence check finds
    nothing, False when it finds the uri, and the exception of the existence
    check when that raises. *)
Definition answer_after_failure {F} `{!FileIO F} (uri : string) (fs : F)
    (r : result bool) : Prop :=
  match fst (fileio_exists uri fs) with
  | Ok found => r = Ok (negb found)
  | Raise e => r = Raise e
  end.

(** A store whose only output key, "model", is bound to no artifact, and
    that cannot answer queries for events. *)
Definition w_empty_key : World SimFS :=
  mkWorld (w_fs w_in_use) []
    (Store.mk (λ _ _, {["model" := [[]]]}) [] ∅ ∅ []
       (λ op, match op with
              | GetEventsByArtifactIds => Some (StoreError "unavailable")
              | _ => None
              end))
    [].

(** * Properties *)

(** ** Sorting and cutoffs *)

Section filter_facts.
Context {A : Type} (P : A → Prop) `{!∀ x, Decision (P x)}.

Lemma filter_none (l : list A) : Forall (λ x, ¬ P x) l → filter P l = [].
Proof.
  induction 1 as [|x l Hx _ IH]; [done|].
  by rewrite filter_cons_False.
Qed.

Lemma filter_all (l : list A) : Forall P l → filter P l = l.
Proof.
  induction 1 as [|x l Hx _ IH]; [done|].
  rewrite filter_cons_True by done. by f_equal.
Qed.

Lemma filter_fmap_length {B} (f : B → A) (l : list B) :
  length (filter P (f <$> l)) = length (filter (λ b, P (f b)) l).
Proof.
  induction l as [|b l IH]; [done|].
  rewrite fmap_cons, !filter_cons. case_decide; simpl; by rewrite IH.
Qed.

Lemma list_difference_select `{!EqDecision A} (l k : list A) :
  (∀ x, x ∈ l → x ∈ k ↔ P x) →
  list_difference l k = filter (λ x, ¬ P x) l.
Proof.
  induction l as [|x l IH]; intros Hk; [done|].
  simpl. rewrite filter_cons.
  rewrite IH by (intros y Hy; apply Hk; by right).
  specialize (Hk x ltac:(left)).
  repeat case_decide; tauto.
Qed.

Lemma filter_ext_in (Q : A → Prop) `{!∀ x, Decision (Q x)} (l : list A) :
  (∀ x, x ∈ l → P x ↔ Q x) → filter P l = filter Q l.
Proof.
  induction l as [|x l IH]; intros Hext; [done|].
  rewrite !filter_cons, IH by (intros y Hy; apply Hext; by right).
  specialize (Hext x ltac:(left)). repeat case_decide; tauto.
Qed.

(** Removing from a list what a filter selected leaves what it rejected. *)
Lemma list_difference_filter `{!EqDecision A} (l : list A) :
  list_difference l (filter P l) = filter (λ x, ¬ P x) l.
Proof.
  apply list_difference_select. intros x Hx.
  rewrite list_elem_of_filter. tauto.
Qed.
End filter_facts.

Section sorted_Z.
Implicit Types l : list Z.

Lemma sorted_Z_perm l : sorted_Z l ≡ₚ l.
Proof. apply merge_sort_Permutation. Qed.

Lemma sorted_Z_length l : length (sorted_Z l) = length l.
Proof. by rewrite sorted_Z_perm. Qed.

Lemma sorted_Z_sorted l : StronglySorted Z.le (sorted_Z l).
Proof. apply StronglySorted_merge_sort; apply _. Qed.

(** A negative index within range reads from the end. *)
Lemma py_index_neg {A} (l : list A) (n : Z) :
  0 < n → n ≤ Z.of_nat (length l) →
  ∃ x, py_index l (- n) = Ok x
       ∧ l !! (length l - Z.to_nat n)%nat = Some x.
Proof.
  intros Hn Hle. unfold py_index.
  destruct (Z.ltb_spec (- n) 0) as [_|]; [|lia].
  destruct (Z.leb_spec 0 (- n + Z.of_nat (length l))) as [_|]; [|lia].
  destruct (Z.ltb_spec (- n + Z.of_nat (length l)) (Z.of_nat (length l))) as [_|]; [|lia].
  simpl.
  replace (Z.to_nat (- n + Z.of_nat (length l)))
    with (length l - Z.to_nat n)%nat by lia.
  destruct (l !! (length l - Z.to_nat n)%nat) as [x|] eqn:E; [eauto|].
  apply lookup_ge_None in E. lia.
Qed.

(** In a sorted list, what lies strictly above position [i] in value lies
    after it, and everything from position [i] on is at least as large. *)
Lemma sorted_rank (s : list Z) (i : nat) (c : Z) :
  StronglySorted Z.le s → s !! i = Some c →
  (length (filter (λ x, (c < x)%Z) s) < length s - i)%nat
  ∧ (length s - i ≤ length (filter (λ x, (c ≤ x)%Z) s))%nat.
Proof.
  intros Hs Hi.
  pose proof (lookup_lt_Some _ _ _ Hi) as Hlt.
  rewrite <- (take_drop_middle s i c Hi) in Hs |- *.
  apply StronglySorted_app in Hs as (Hlr & Hl & Hr).
  apply StronglySorted_cons in Hr as [Hc Hr].
  rewrite !filter_app, !filter_cons, !length_app.
  rewrite decide_False by lia. rewrite decide_True by lia.
  rewrite (filter_none (λ x, c < x) (take i s)).
  2:{ apply Forall_forall. intros x Hx.
      specialize (Hlr x c Hx). ospecialize (Hlr _); [set_solver|]. lia. }
  rewrite (filter_all (λ x, c ≤ x) (drop (S i) s)) by done.
  pose proof (length_filter (λ x, c < x) (drop (S i) s)).
  simpl. rewrite length_take, length_drop in *. lia.
Qed.

(** The cutoff [sorted(l)[-n]]: it exists, fewer than [n] elements lie
    strictly above it and at least [n] are at least as large. *)
Lemma cutoff_spec l (n : Z) :
  0 < n → n ≤ Z.of_nat (length l) →
  ∃ c, py_index (sorted_Z l) (- n) = Ok c
       ∧ sorted_Z l !! (length l - Z.to_nat n)%nat = Some c
       ∧ Z.of_nat (length (filter (λ x, c < x) l)) < n
       ∧ n ≤ Z.of_nat (length (filter (λ x, c ≤ x) l)).
Proof.
  intros Hn Hle.
  destruct (py_index_neg (sorted_Z l) n) as (c & Hc & Hlk); [done| |].
  { by rewrite sorted_Z_length. }
  rewrite sorted_Z_length in Hlk.
  exists c. split_and!; [done..| |].
  - destruct (sorted_rank _ _ _ (sorted_Z_sorted l) Hlk) as [H1 _].
    rewrite sorted_Z_length in H1.
    rewrite <- (sorted_Z_perm l) at 1. lia.
  - destruct (sorted_rank _ _ _ (sorted_Z_sorted l) Hlk) as [_ H2].
    rewrite sorted_Z_length in H2.
    rewrite <- (sorted_Z_perm l) at 1. lia.
Qed.
End sorted_Z.

(** ** KeepMostRecentlyPublished *)

Section keep_most_recently_published.
Implicit Types (A : list Artifact.t) (n : Z).

Local Abbreviation ts := Artifact.create_time_since_epoch.

Lemma kmrp_nonpositive A n : n ≤ 0 → _artifacts_not_most_recently_published A n = Ok A.
Proof.
  intros Hn. unfold _artifacts_not_most_recently_published.
  by destruct (Z.leb_spec n 0); [|lia].
Qed.

Lemma kmrp_short A n :
  0 < n → Z.of_nat (length A) ≤ n → _artifacts_not_most_recently_published A n = Ok [].
Proof.
  intros Hn Hle. unfold _artifacts_not_most_recently_published.
  destruct (Z.leb_spec n 0); [lia|].
  by destruct (Z.leb_spec (Z.of_nat (length A)) n); [|lia].
Qed.

(** The general branch: the cutoff is read at position [|A| - n] of the
    ascending timestamps and the artifacts strictly below it are returned. *)
Lemma kmrp_long A n :
  0 < n → n < Z.of_nat (length A) →
  ∃ c, sorted_Z (ts <$> A) !! (length A - Z.to_nat n)%nat = Some c
       ∧ _artifacts_not_most_recently_published A n
         = Ok (filter (λ a, ts a < c) A)
       ∧ Z.of_nat (length (filter (λ a, c < ts a) A)) < n
       ∧ n ≤ Z.of_nat (length (filter (λ a, c ≤ ts a) A)).
Proof.
  intros Hn Hlt.
  destruct (cutoff_spec (ts <$> A) n) as (c & Hc & Hlk & Habove & Hfrom);
    [done|rewrite length_fmap; lia|].
  rewrite length_fmap in Hlk.
  rewrite (filter_fmap_length (λ x, c < x)) in Habove.
  rewrite (filter_fmap_length (λ x, c ≤ x)) in Hfrom.
  exists c. split_and!; [done| |done..].
  unfold _artifacts_not_most_recently_published.
  destruct (Z.leb_spec n 0); [lia|].
  destruct (Z.leb_spec (Z.of_nat (length A)) n); [lia|].
  change (map ts A) with (ts <$> A). by rewrite Hc.
Qed.

(** What survives a filter on "strictly below the cutoff". *)
Lemma kmrp_kept A (c : Z) :
  list_difference A (filter (λ a, ts a < c) A) = filter (λ a, c ≤ ts a) A.
Proof.
  rewrite list_difference_filter. apply list_filter_iff. intros a. lia.
Qed.

(** C3 (as stated): for KeepMostRecentlyPublished(n), n <= 0 or |A| <= n
    would give an empty delete-set.  It fails at n = 0 on a single
    artifact: the guard on a non-positive n returns the whole list. *)
Lemma kmrp_nonpositive_not_empty :
  ¬ (∀ A n cfg,
       n ≤ 0 ∨ Z.of_nat (length A) ≤ n →
       snd (_artifacts_to_garbage_collect_for_policy A (kmrp n cfg)) = Ok []).
Proof.
  intros H.
  specialize (H [mk_artifact 1 10 "/a/1" []] 0 [] (or_introl (Z.le_refl 0))).
  discriminate H.
Qed.

(** C3 (amended): for every artifact list A and KeepMostRecentlyPublished(n),
    if n <= 0 the delete-set is the whole list A (nothing is kept); if
    n > 0 and |A| <= n the delete-set is empty.  Nothing is logged. *)
Theorem kmrp_small A n cfg :
  (n ≤ 0 → _artifacts_to_garbage_collect_for_policy A (kmrp n cfg) = ([], Ok A))
  ∧ (0 < n → Z.of_nat (length A) ≤ n →
     _artifacts_to_garbage_collect_for_policy A (kmrp n cfg) = ([], Ok [])).
Proof.
  unfold _artifacts_to_garbage_collect_for_policy, kmrp, llift. simpl. split.
  - intros Hn. by rewrite kmrp_nonpositive.
  - intros Hn Hle. by rewrite kmrp_short.
Qed.

(** The timestamps 10, 20, 20, 30 with n = 0 and n = 4. *)
Lemma kmrp_small_witness :
  _artifacts_to_garbage_collect_for_policy ex_ts (kmrp 0 []) = ([], Ok ex_ts)
  ∧ _artifacts_to_garbage_collect_for_policy ex_ts (kmrp 4 []) = ([], Ok []).
Proof.
  split.
  - apply (kmrp_small ex_ts 0 []). lia.
  - apply (kmrp_small ex_ts 4 []); simpl; lia.
Defined.

(** C4 (as stated): for |A| > n > 0 the delete-set would be the artifacts
    strictly below the (|A| - n)-th smallest timestamp.  It fails on the
    timestamps 10, 20 with n = 1: the first smallest timestamp is 10, below
    which nothing lies, while the artifact of timestamp 10 is deleted. *)
Lemma kmrp_cutoff_not_kth_smallest :
  ¬ (∀ A n cfg c,
       0 < n → n < Z.of_nat (length A) →
       spec_kth_smallest (ts <$> A) (Z.of_nat (length A) - n) = Some c →
       snd (_artifacts_to_garbage_collect_for_policy A (kmrp n cfg))
       = Ok (filter (λ a, ts a < c) A)).
Proof.
  intros H.
  specialize (H ex_two 1 [] 10 ltac:(lia) ltac:(simpl; lia) eq_refl).
  discriminate H.
Qed.

(** C4 (amended): for |A| > n > 0, KeepMostRecentlyPublished(n) deletes
    exactly the artifacts whose creation timestamp is strictly below the
    cutoff, the n-th largest timestamp: the timestamp at position |A| - n
    (counted from 0) of the ascending timestamps, that is the
    (|A| - n + 1)-th smallest.  Fewer than n artifacts are strictly newer
    than the cutoff and the artifacts kept, ties at the cutoff included, are
    at least n.  On timestamps [10, 20, 20, 30] with n = 2 the artifact of
    timestamp 10 alone is deleted and three survive. *)
Theorem kmrp_cutoff :
  (∀ A n cfg,
     0 < n → n < Z.of_nat (length A) →
     ∃ c, sorted_Z (ts <$> A) !! (length A - Z.to_nat n)%nat = Some c
          ∧ spec_kth_smallest (ts <$> A) (Z.of_nat (length A) - n + 1) = Some c
          ∧ _artifacts_to_garbage_collect_for_policy A (kmrp n cfg)
            = ([], Ok (filter (λ a, ts a < c) A))
          ∧ list_difference A (filter (λ a, ts a < c) A)
            = filter (λ a, c ≤ ts a) A
          ∧ Z.of_nat (length (filter (λ a, c < ts a) A)) < n
          ∧ n ≤ Z.of_nat (length (filter (λ a, c ≤ ts a) A)))
  ∧ (_artifacts_to_garbage_collect_for_policy ex_ts (kmrp 2 [])
       = ([], Ok [mk_artifact 1 10 "/a/1" []])
     ∧ length (list_difference ex_ts [mk_artifact 1 10 "/a/1" []]) = 3%nat).
Proof.
  split; [|by vm_compute].
  intros A n cfg Hn Hlt.
  destruct (kmrp_long A n Hn Hlt) as (c & Hlk & Heq & Habove & Hfrom).
  exists c. split_and!; [done| | |apply kmrp_kept|done..].
  - unfold spec_kth_smallest. rewrite decide_True by lia.
    by replace (Z.to_nat (Z.of_nat (length A) - n + 1 - 1))
      with (length A - Z.to_nat n)%nat by lia.
  - unfold _artifacts_to_garbage_collect_for_policy, kmrp, llift. simpl.
    by rewrite Heq.
Qed.

(** The timestamps 10, 20, 20, 30 with n = 2. *)
Lemma kmrp_cutoff_witness :
  ∃ c, sorted_Z (ts <$> ex_ts) !! (length ex_ts - Z.to_nat 2)%nat = Some c
       ∧ _artifacts_to_garbage_collect_for_policy ex_ts (kmrp 2 [])
         = ([], Ok (filter (λ a, ts a < c) ex_ts)).
Proof.
  destruct (proj1 kmrp_cutoff ex_ts 2 []) as (c & H1 & _ & H2 & _);
    [lia | simpl; lia | eauto].
Defined.
End keep_most_recently_published.

(** ** The order on property values *)

Section prop_order.
Lemma string_leb_iff (s t : string) :
  String.leb s t = true ↔ s = t ∨ String_as_OT.lt s t.
Proof.
  unfold String.leb.
  rewrite <- String_as_OT.cmp_lt, <- String_as_OT.cmp_eq.
  unfold String_as_OT.cmp. destruct (String.compare s t); naive_solver.
Qed.

Lemma string_leb_trans (s t u : string) :
  String.leb s t = true → String.leb t u = true → String.leb s u = true.
Proof.
  rewrite !string_leb_iff. intros [->|H1] [->|H2]; auto.
  right. by eapply String_as_OT.lt_trans.
Qed.

#[global] Instance prop_le_refl : Reflexive prop_le.
Proof.
  intros [z|s]; simpl; [lia|]. apply string_leb_iff. by left.
Qed.

#[global] Instance prop_le_trans : Transitive prop_le.
Proof.
  intros [a|s] [b|t] [c|u]; simpl; try done; [lia|].
  apply string_leb_trans.
Qed.

#[global] Instance prop_le_total : Total prop_le.
Proof.
  intros [a|s] [b|t]; simpl; auto; [lia|].
  apply String.leb_total.
Qed.

#[global] Instance prop_le_antisym : AntiSymm (=) prop_le.
Proof.
  intros [a|s] [b|t]; simpl; try done.
  - intros. f_equal. lia.
  - intros. f_equal. by apply String.leb_antisym.
Qed.
End prop_order.

(** ** Slices of sorted lists without duplicates *)

Section sorted_slices.
Context {A : Type} (R : relation A) `{!∀ x y, Decision (R x y)}.
Context `{!Reflexive R, !Transitive R, !AntiSymm (=) R, !Total R}.
Implicit Types (s : list A) (k : nat).

(** The last [k] elements of an ascending list are those with fewer than
    [k] elements strictly above them. *)
Lemma slice_last_rank s k v :
  StronglySorted R s → NoDup s → (0 < k)%nat →
  v ∈ drop (length s - k) s
  ↔ v ∈ s ∧ (length (filter (λ u, ¬ R u v) s) < k)%nat.
Proof.
  intros Hs Hnd Hk. set (i := (length s - k)%nat).
  rewrite <- (take_drop i s) in Hs, Hnd.
  apply StronglySorted_app in Hs as (Hlr & _ & _).
  apply NoDup_app in Hnd as (_ & Hdisj & _).
  rewrite <- (take_drop i s) at 2 3. rewrite filter_app, length_app.
  split.
  - intros Hv. split; [set_solver|].
    rewrite filter_none.
    2:{ apply Forall_forall. intros x Hx HR. apply HR. by apply Hlr. }
    pose proof (length_filter_lt (λ u, ¬ R u v) (drop i s) v Hv) as Hlt.
    ospecialize (Hlt _); [intros HR; by apply HR|].
    rewrite length_drop in Hlt. simpl. lia.
  - intros [Hv Hcount]. apply elem_of_app in Hv as [Hv|Hv]; [|done].
    exfalso.
    rewrite (filter_all _ (drop i s)) in Hcount.
    2:{ apply Forall_forall. intros x Hx HR.
        apply (Hdisj v Hv). by rewrite (anti_symm R v x (Hlr v x Hv Hx) HR). }
    apply list_elem_of_lookup in Hv as [j Hj].
    apply lookup_lt_Some in Hj. rewrite length_take in Hj.
    rewrite length_drop in Hcount. lia.
Qed.

(** The first [k] elements are those with fewer than [k] elements strictly
    below them. *)
Lemma slice_first_rank s k v :
  StronglySorted R s → NoDup s →
  v ∈ take k s
  ↔ v ∈ s ∧ (length (filter (λ u, ¬ R v u) s) < k)%nat.
Proof.
  intros Hs Hnd.
  rewrite <- (take_drop k s) in Hs, Hnd.
  apply StronglySorted_app in Hs as (Hlr & _ & _).
  apply NoDup_app in Hnd as (_ & Hdisj & _).
  rewrite <- (take_drop k s) at 2 3. rewrite filter_app, length_app.
  split.
  - intros Hv. split; [set_solver|].
    rewrite (filter_none _ (drop k s)).
    2:{ apply Forall_forall. intros x Hx HR. apply HR. by apply Hlr. }
    pose proof (length_filter_lt (λ u, ¬ R v u) (take k s) v Hv) as Hlt.
    ospecialize (Hlt _); [intros HR; by apply HR|].
    rewrite length_take in Hlt. simpl. lia.
  - intros [Hv Hcount]. apply elem_of_app in Hv as [Hv|Hv]; [done|].
    exfalso.
    rewrite (filter_all _ (take k s)) in Hcount.
    2:{ apply Forall_forall. intros x Hx HR.
        apply (Hdisj x Hx). by rewrite (anti_symm R x v (Hlr x v Hx Hv) HR). }
    apply list_elem_of_lookup in Hv as [j Hj].
    apply lookup_lt_Some in Hj. rewrite length_drop in Hj.
    rewrite length_take in Hcount. lia.
Qed.
End sorted_slices.

(** ** Buckets *)

Section buckets.
Variable p : string.
Local Abbreviation pv := (λ a, _get_property_value a p).
Implicit Types (d : Buckets) (g : list Artifact.t) (key : option Property).

Lemma dd_get_append key k a d :
  dd_get key (dd_append k a d)
  = if decide (key = k) then dd_get key d ++ [a] else dd_get key d.
Proof.
  induction d as [|[k' l] d IH]; simpl.
  - repeat case_decide; naive_solver.
  - repeat (case_decide; simpl; subst); try done; naive_solver.
Qed.

Lemma dd_keys_append k a d :
  dd_keys (dd_append k a d)
  = if decide (k ∈ dd_keys d) then dd_keys d else dd_keys d ++ [k].
Proof.
  induction d as [|[k' l] d IH].
  - destruct (decide (k ∈ dd_keys [])) as [Hin|_]; [|done].
    by apply elem_of_nil in Hin.
  - change (dd_keys ((k', l) :: d)) with (k' :: dd_keys d).
    cbn [dd_append].
    destruct (decide (k = k')) as [->|Hne].
    + destruct (decide (k' ∈ k' :: dd_keys d)) as [_|Hn]; [done|].
      exfalso. apply Hn. by left.
    + change (dd_keys ((k', l) :: dd_append k a d))
        with (k' :: dd_keys (dd_append k a d)).
      rewrite IH.
      destruct (decide (k ∈ dd_keys d)) as [Hin|Hn];
        destruct (decide (k ∈ k' :: dd_keys d)) as [Hin'|Hn']; try done.
      * exfalso. apply Hn'. by right.
      * apply elem_of_cons in Hin' as [?|?]; done.
Qed.

Lemma fill_snoc g a d :
  fill p (g ++ [a]) d = dd_append (pv a) a (fill p g d).
Proof. unfold fill. by rewrite foldl_app. Qed.

Lemma dd_get_fill key g d :
  dd_get key (fill p g d) = dd_get key d ++ filter (λ a, pv a = key) g.
Proof.
  induction g as [|a g IH] using rev_ind; [by rewrite app_nil_r|].
  rewrite fill_snoc, dd_get_append, IH, filter_app, filter_cons, filter_nil.
  repeat case_decide; simplify_eq; by rewrite ?app_nil_r, <- ?(assoc (++)).
Qed.

Lemma dd_keys_fill_elem key g d :
  key ∈ dd_keys (fill p g d) ↔ key ∈ dd_keys d ∨ key ∈ pv <$> g.
Proof.
  induction g as [|a g IH] using rev_ind; [set_solver|].
  rewrite fill_snoc, dd_keys_append, fmap_app. case_decide; set_solver.
Qed.

Lemma dd_keys_fill_NoDup g d : NoDup (dd_keys d) → NoDup (dd_keys (fill p g d)).
Proof.
  intros Hd. induction g as [|a g IH] using rev_ind; [done|].
  rewrite fill_snoc, dd_keys_append. case_decide; [done|].
  apply NoDup_app. split_and!; [done|set_solver|apply NoDup_singleton].
Qed.

Lemma dd_values_get d :
  NoDup (dd_keys d) → dd_values d = (λ key, dd_get key d) <$> dd_keys d.
Proof.
  induction d as [|[k l] d IH]; [done|]. simpl. intros [Hk Hd]%NoDup_cons.
  rewrite decide_True by done. f_equal.
  rewrite IH by done. apply list_fmap_ext. intros i key Hkey.
  rewrite decide_False; [done|].
  intros ->. apply Hk. by eapply list_elem_of_lookup_2.
Qed.

Lemma dd_mem_fill key g : dd_mem key (fill p g []) = bool_decide (key ∈ pv <$> g).
Proof.
  unfold dd_mem. apply bool_decide_ext. rewrite dd_keys_fill_elem. set_solver.
Qed.

Lemma NoDup_somes {B} (l : list (option B)) : NoDup l → NoDup (omap id l).
Proof.
  induction 1 as [|[b|] l Hx _ IH]; simpl; [constructor| |done].
  constructor; [|done].
  rewrite list_elem_of_omap. intros ([b'|] & Hin & Heq); naive_solver.
Qed.

(** The non-null keys of the buckets are the distinct non-null values. *)
Lemma nonnull_keys_fill g :
  omap id (dd_keys (fill p g [])) ≡ₚ nonnull_values p g.
Proof.
  apply NoDup_Permutation.
  - apply NoDup_somes, dd_keys_fill_NoDup. constructor.
  - apply NoDup_remove_dups.
  - intros v. unfold nonnull_values.
    rewrite elem_of_remove_dups, !list_elem_of_omap.
    split.
    + intros (key & Hkey & Hid). simpl in Hid. subst key.
      apply dd_keys_fill_elem in Hkey as [Hkey|Hkey]; [set_solver|].
      apply list_elem_of_fmap in Hkey as (a & Ha & Hin). eauto.
    + intros (a & Hin & Ha). exists (Some v). split; [|done].
      apply dd_keys_fill_elem. right. apply list_elem_of_fmap. eauto.
Qed.
End buckets.

(** ** Selecting the property values to keep *)

Section selection.
Implicit Types (ks s : list Property) (k : Z) (v : Property).

Lemma sorted_props_perm ks : sorted_props ks ≡ₚ ks.
Proof. apply merge_sort_Permutation. Qed.

Lemma sorted_props_sorted ks : StronglySorted prop_le (sorted_props ks).
Proof. apply StronglySorted_merge_sort; apply _. Qed.

#[global] Instance rank_above_perm v : Proper ((≡ₚ) ==> (=)) (rank_above v).
Proof. intros l1 l2 Hl. unfold rank_above. by rewrite Hl. Qed.

#[global] Instance rank_below_perm v : Proper ((≡ₚ) ==> (=)) (rank_below v).
Proof. intros l1 l2 Hl. unfold rank_below. by rewrite Hl. Qed.

(** [sorted(ks)[-k:]] holds the values with fewer than [k] values above. *)
Lemma slice_last_props ks k v :
  NoDup ks → 0 < k →
  v ∈ py_slice_last k (sorted_props ks)
  ↔ v ∈ ks ∧ Z.of_nat (rank_above v ks) < k.
Proof.
  intros Hnd Hk. unfold py_slice_last.
  rewrite (slice_last_rank prop_le);
    [|apply sorted_props_sorted|by rewrite sorted_props_perm|lia].
  fold (rank_above v (sorted_props ks)).
  rewrite !sorted_props_perm. split; intros [? ?]; (split; [done|lia]).
Qed.

(** [sorted(ks)[:k]] holds the values with fewer than [k] values below. *)
Lemma slice_first_props ks k v :
  NoDup ks → 0 < k →
  v ∈ py_slice_first k (sorted_props ks)
  ↔ v ∈ ks ∧ Z.of_nat (rank_below v ks) < k.
Proof.
  intros Hnd Hk. unfold py_slice_first.
  rewrite (slice_first_rank prop_le);
    [|apply sorted_props_sorted|by rewrite sorted_props_perm].
  fold (rank_below v (sorted_props ks)).
  rewrite !sorted_props_perm. split; intros [? ?]; (split; [done|lia]).
Qed.

Lemma slice_last_short {B} (l : list B) k :
  0 < k →
  Z.of_nat (length (py_slice_last k l)) < k ↔ Z.of_nat (length l) < k.
Proof. intros Hk. unfold py_slice_last. rewrite length_drop. lia. Qed.

Lemma slice_first_short {B} (l : list B) k :
  0 < k →
  Z.of_nat (length (py_slice_first k l)) < k ↔ Z.of_nat (length l) < k.
Proof. intros Hk. unfold py_slice_first. rewrite length_take. lia. Qed.
End selection.

(** ** One group, one grouping *)

Section one_group.
Variable gr : Grouping.t.
Local Abbreviation p := (Grouping.property_name gr).
Local Abbreviation pv := (λ a, _get_property_value a p).
Implicit Types (d : Buckets) (g : list Artifact.t) (key : option Property).

Lemma partition_group_inv g ty d ty' d' :
  partition_group p g ty d = Ok (ty', d') →
  d' = fill p g d
  ∧ match ty' with
    | None => ty = None ∧ ∀ a, a ∈ g → pv a = None
    | Some t' => (ty = None ∨ ty = Some t') ∧ typed p t' g
    end.
Proof.
  revert ty d. induction g as [|a g IH]; intros ty d H; simpl in H.
  - simplify_eq. split; [done|].
    destruct ty'.
    + split; [by right|]. intros a v Ha. by apply elem_of_nil in Ha.
    + split; [done|]. intros a Ha. by apply elem_of_nil in Ha.
  - destruct (pv a) as [v|] eqn:Hv.
    + assert (partition_group p g (Some (type_of v)) (dd_append (Some v) a d)
              = Ok (ty', d') ∧ (ty = None ∨ ty = Some (type_of v))) as [H' Hty].
      { destruct ty as [t|]; [|by auto].
        case_decide; [done|]. split; [done|]. right. f_equal.
        destruct (decide (t = type_of v)); naive_solver. }
      apply IH in H' as [-> H']. split; [by rewrite <- Hv|].
      destruct ty' as [t'|]; [|naive_solver].
      destruct H' as [[?|[= <-]] Ht]; [done|]. split; [done|].
      intros b w [->|Hb]%elem_of_cons Hw; [naive_solver|by eapply Ht].
    + apply IH in H as [-> H']. split; [by rewrite <- Hv|].
      destruct ty' as [t'|].
      * destruct H' as [? Ht]. split; [done|].
        intros b w [->|Hb]%elem_of_cons Hw; [naive_solver|by eapply Ht].
      * destruct H' as [? Hn]. split; [done|].
        intros b [->|Hb]%elem_of_cons; auto.
Qed.

Lemma partition_group_typed t g ty d :
  typed p t g → ty = None ∨ ty = Some t →
  ∃ ty', partition_group p g ty d = Ok (ty', fill p g d)
         ∧ (ty' = None ∨ ty' = Some t).
Proof.
  revert ty d. induction g as [|a g IH]; intros ty d Ht Hty; simpl.
  - eauto.
  - assert (typed p t g) as Ht' by (intros b w Hb; apply Ht; by right).
    destruct (pv a) as [v|] eqn:Hv.
    + assert (type_of v = t) as Hvt by (eapply Ht; [by left|done]).
      destruct ty as [t0|].
      * destruct Hty as [?|[= ->]]; [done|].
        rewrite decide_False by naive_solver.
        rewrite Hvt, <- Hv. apply IH; auto.
      * rewrite Hvt, <- Hv. apply IH; auto.
    + rewrite <- Hv. by apply IH.
Qed.

(** The values handed to [sorted] share one type: the order between an
    integer and a string is never consulted. *)
Lemma sorted_input_one_type g ty ty' d' u v :
  partition_group p g ty [] = Ok (ty', d') →
  u ∈ omap id (dd_keys d') → v ∈ omap id (dd_keys d') →
  type_of u = type_of v.
Proof.
  intros [-> Hty]%partition_group_inv Hu Hv.
  assert (∀ x, x ∈ omap id (dd_keys (fill p g [])) →
               ∃ a, a ∈ g ∧ pv a = Some x) as Hval.
  { intros x (key & Hkey & Hid)%list_elem_of_omap. simpl in Hid. subst key.
    apply dd_keys_fill_elem in Hkey as [Hkey|Hkey];
      [by apply elem_of_nil in Hkey|].
    apply list_elem_of_fmap in Hkey as (a & Ha & Hin). eauto. }
  destruct (Hval u Hu) as (a & Ha & Hau), (Hval v Hv) as (b & Hb & Hbv).
  destruct ty' as [t'|].
  - destruct Hty as [_ Ht]. by rewrite (Ht a u), (Ht b v).
  - destruct Hty as [_ Hn]. by rewrite (Hn a Ha) in Hau.
Qed.

Lemma partition_group_raise g ty d e :
  partition_group p g ty d = Raise e →
  e = ValueError "Properties from the same group should have a homogenous type except NoneType.".
Proof.
  revert ty d. induction g as [|a g IH]; intros ty d H; simpl in H; [done|].
  destruct (pv a) as [v|]; [|by eapply IH].
  destruct ty as [t|]; [|by eapply IH].
  case_decide; [by simplify_eq|by eapply IH].
Qed.
End one_group.

Section kept_groups.
Variable gr : Grouping.t.
Local Abbreviation p := (Grouping.property_name gr).
Local Abbreviation pv := (λ a, _get_property_value a p).
Local Abbreviation k := (Grouping.keep_num gr).
Implicit Types (g : list Artifact.t) (key : option Property).

Lemma dd_get_fill_nil key g : dd_get key (fill p g []) = filter (λ a, pv a = key) g.
Proof. by rewrite dd_get_fill. Qed.

Lemma nonnull_key_value g v :
  v ∈ omap id (dd_keys (fill p g [])) ↔ Some v ∈ pv <$> g.
Proof.
  rewrite list_elem_of_omap. split.
  - intros (key & Hkey & Hid). simpl in Hid. subst key.
    apply dd_keys_fill_elem in Hkey as [Hkey|Hkey]; [|done].
    by apply elem_of_nil in Hkey.
  - intros Hv. exists (Some v). split; [|done].
    apply dd_keys_fill_elem. by right.
Qed.

(** The groups appended for one partitioned group, given what the selected
    values are. *)
Lemma kept_groups_elem g (to_keep : list Property) (sel : Property → Prop)
    (nullsel : Prop) g' :
  (∀ v, v ∈ to_keep ↔ Some v ∈ pv <$> g ∧ sel v) →
  (Z.of_nat (length to_keep) < k ↔ nullsel) →
  g' ∈ map (λ v, dd_get (Some v) (fill p g [])) to_keep
       ++ (if dd_mem None (fill p g [])
              && bool_decide (Z.of_nat (length to_keep) < k)
           then [dd_get None (fill p g [])] else [])
  ↔ ∃ key, key ∈ pv <$> g
           ∧ match key with Some v => sel v | None => nullsel end
           ∧ g' = filter (λ a, pv a = key) g.
Proof.
  intros Hsel Hnull. rewrite elem_of_app. split.
  - intros [Hin|Hin].
    + apply list_elem_of_fmap in Hin as (v & -> & Hv).
      apply Hsel in Hv as [Hv Hs]. exists (Some v).
      by rewrite dd_get_fill_nil.
    + rewrite dd_mem_fill in Hin.
      destruct (bool_decide (None ∈ pv <$> g)) eqn:Hmem; simpl in Hin;
        [|by apply elem_of_nil in Hin].
      case_bool_decide as Hlen; [|by apply elem_of_nil in Hin].
      apply list_elem_of_singleton in Hin as ->.
      apply bool_decide_eq_true in Hmem. exists None.
      rewrite dd_get_fill_nil. by rewrite <- Hnull.
  - intros ([v|] & Hkey & Hs & ->).
    + left. apply list_elem_of_fmap. exists v.
      rewrite dd_get_fill_nil. split; [done|]. by apply Hsel.
    + right. rewrite dd_mem_fill, bool_decide_true by done.
      rewrite bool_decide_true by (by apply Hnull). simpl.
      rewrite dd_get_fill_nil. apply list_elem_of_singleton. done.
Qed.

Lemma groups_to_keep_ok g :
  order_ok gr →
  ∃ gs, groups_to_keep gr (fill p g []) = ([], Ok gs)
        ∧ ∀ g', g' ∈ gs
                ↔ ∃ key, key ∈ pv <$> g ∧ survives gr g key
                         ∧ g' = filter (λ a, pv a = key) g.
Proof.
  intros Hok.
  assert (NoDup (dd_keys (fill p g []))) as Hnd
    by (apply dd_keys_fill_NoDup; constructor).
  pose proof (NoDup_somes _ Hnd) as Hnd'.
  unfold groups_to_keep, survives. destruct (Z.leb_spec k 0) as [Hk|Hk].
  - eexists. split; [done|]. intros g'.
    rewrite dd_values_get by done. rewrite list_elem_of_fmap. split.
    + intros (key & -> & Hkey). exists key.
      apply dd_keys_fill_elem in Hkey as [Hkey|Hkey];
        [by apply elem_of_nil in Hkey|].
      rewrite dd_get_fill_nil. auto.
    + intros (key & Hkey & _ & ->). exists key.
      rewrite dd_get_fill_nil. split; [done|].
      apply dd_keys_fill_elem. by right.
  - destruct Hok as [?|Hok]; [lia|].
    assert (∀ X : Prop, X ↔ (k ≤ 0 ∨ X)) as Hor
      by (intros X; split; [auto|intros [?|?]; [lia|done]]).
    destruct (Grouping.keep_order gr) eqn:Hord; [| | |done];
      (eexists; split; [done|]); intros g'.
    + rewrite (kept_groups_elem g _
                 (λ v, Z.of_nat (rank_above v (nonnull_values p g)) < k)
                 (Z.of_nat (length (nonnull_values p g)) < k)).
      * apply exist_proper. intros [v|]; by rewrite <- Hor.
      * intros v. rewrite slice_last_props by done.
        by rewrite nonnull_key_value, (nonnull_keys_fill p g).
      * rewrite slice_last_short by done.
        by rewrite sorted_props_perm, (nonnull_keys_fill p g).
    + rewrite (kept_groups_elem g _
                 (λ v, Z.of_nat (rank_above v (nonnull_values p g)) < k)
                 (Z.of_nat (length (nonnull_values p g)) < k)).
      * apply exist_proper. intros [v|]; by rewrite <- Hor.
      * intros v. rewrite slice_last_props by done.
        by rewrite nonnull_key_value, (nonnull_keys_fill p g).
      * rewrite slice_last_short by done.
        by rewrite sorted_props_perm, (nonnull_keys_fill p g).
    + rewrite (kept_groups_elem g _
                 (λ v, Z.of_nat (rank_below v (nonnull_values p g)) < k)
                 (Z.of_nat (length (nonnull_values p g)) < k)).
      * apply exist_proper. intros [v|]; by rewrite <- Hor.
      * intros v. rewrite slice_first_props by done.
        by rewrite nonnull_key_value, (nonnull_keys_fill p g).
      * rewrite slice_first_short by done.
        by rewrite sorted_props_perm, (nonnull_keys_fill p g).
Qed.

Lemma groups_to_keep_bad d :
  ¬ order_ok gr →
  groups_to_keep gr d
  = ([(ERROR, "Unknown keep_order in grouping")],
     Raise (ValueError "Unknown keep_order in grouping")).
Proof.
  intros Hbad. unfold groups_to_keep, order_ok in *.
  destruct (Z.leb_spec k 0) as [Hk|Hk]; [tauto|].
  destruct (Grouping.keep_order gr); tauto.
Qed.
End kept_groups.

(** ** One grouping over all groups *)

Section one_grouping.
Variable gr : Grouping.t.
Local Abbreviation p := (Grouping.property_name gr).
Local Abbreviation pv := (λ a, _get_property_value a p).
Implicit Types (g : list Artifact.t) (L acc : list (list Artifact.t)).

Lemma lbind_ret {A B} (a : A) (f : A → Logged B) : lbind ([], Ok a) f = f a.
Proof. unfold lbind. by destruct (f a). Qed.

Lemma elem_of_concat {A} (x : A) (ls : list (list A)) :
  x ∈ concat ls ↔ ∃ l, l ∈ ls ∧ x ∈ l.
Proof.
  induction ls as [|l ls IH]; simpl.
  - split; [by intros ?%elem_of_nil|by intros (? & ?%elem_of_nil & _)].
  - rewrite elem_of_app, IH. split.
    + intros [?|(l' & ? & ?)]; [exists l|exists l']; split; auto; by constructor.
    + intros (l' & [->|?]%elem_of_cons & ?); eauto.
Qed.

Lemma next_group_cons g L g' :
  next_group gr (g :: L) g'
  ↔ (∃ key, key ∈ pv <$> g ∧ survives gr g key
            ∧ g' = filter (λ a, pv a = key) g)
    ∨ next_group gr L g'.
Proof.
  unfold next_group. split.
  - intros (g0 & key & [->|Hin]%elem_of_cons & H); [left|right]; eauto.
  - intros [(key & H)|(g0 & key & Hin & H)].
    + exists g, key. split; [by left|done].
    + exists g0, key. split; [by right|done].
Qed.

(** What a grouping computes when it can be evaluated. *)
Lemma group_loop_ok L ty acc t :
  (L ≠ [] → order_ok gr) → typed p t (concat L) → ty = None ∨ ty = Some t →
  ∃ L', group_loop gr L ty acc = ([], Ok L')
        ∧ ∀ g', g' ∈ L' ↔ g' ∈ acc ∨ next_group gr L g'.
Proof.
  revert ty acc. induction L as [|g L IH]; intros ty acc Hok Ht Hty.
  - exists acc. split; [done|]. intros g'. split; [auto|].
    intros [?|(g0 & key & ?%elem_of_nil & _)]; done.
  - simpl in Ht. specialize (Hok ltac:(done)).
    destruct (partition_group_typed gr t g ty []) as (ty' & Hpart & Hty');
      [intros a v Ha; apply Ht; apply elem_of_app; by left|done|].
    destruct (groups_to_keep_ok gr g Hok) as (gs & Hgs & Hmem).
    destruct (IH ty' (acc ++ gs)) as (L' & HL' & Hmem');
      [done|intros a v Ha; apply Ht; apply elem_of_app; by right|done|].
    exists L'. split.
    + cbn [group_loop]. rewrite Hpart. unfold llift.
      rewrite lbind_ret, Hgs, lbind_ret. done.
    + intros g'. rewrite Hmem', elem_of_app, Hmem, next_group_cons. tauto.
Qed.

(** What follows from a grouping having been evaluated. *)
Lemma group_loop_inv L ty acc l L' :
  group_loop gr L ty acc = (l, Ok L') →
  (L ≠ [] → order_ok gr)
  ∧ ∃ t, typed p t (concat L) ∧ (ty = None ∨ ty = Some t).
Proof.
  revert ty acc l. induction L as [|g L IH]; intros ty acc l H.
  - split; [done|]. exists (default TInt ty). split.
    + intros a v Ha. by apply elem_of_nil in Ha.
    + destruct ty; auto.
  - cbn [group_loop] in H.
    destruct (partition_group p g ty []) as [[ty' d]|e] eqn:Hpart;
      [|by unfold llift in H].
    unfold llift in H. rewrite lbind_ret in H.
    apply partition_group_inv in Hpart as [-> Hpart].
    destruct (decide (order_ok gr)) as [Hok|Hbad];
      [|by rewrite groups_to_keep_bad in H].
    destruct (groups_to_keep_ok gr g Hok) as (gs & Hgs & _).
    rewrite Hgs, lbind_ret in H.
    apply IH in H as (_ & t & Ht & Hty'). split; [done|].
    exists t. simpl. destruct ty' as [t'|].
    + destruct Hty' as [?|[= ->]]; [done|]. destruct Hpart as [Hty Hg].
      split; [|done]. intros a v [Ha|Ha]%elem_of_app; [by eapply Hg|by eapply Ht].
    + destruct Hpart as [-> Hg]. split; [|by left].
      intros a v [Ha|Ha]%elem_of_app Hv; [|by eapply Ht].
      by rewrite (Hg a Ha) in Hv.
Qed.

(** Evaluation, inverted in full. *)
Lemma group_loop_spec L l L' :
  group_loop gr L None [] = (l, Ok L') →
  l = [] ∧ (L ≠ [] → order_ok gr) ∧ (∃ t, typed p t (concat L))
  ∧ ∀ g', g' ∈ L' ↔ next_group gr L g'.
Proof.
  intros H. destruct (group_loop_inv _ _ _ _ _ H) as (Hok & t & Ht & _).
  destruct (group_loop_ok L None [] t Hok Ht) as (L0 & H0 & Hmem); [by left|].
  rewrite H0 in H. simplify_eq. split_and!; [done..|eauto|].
  intros g'. rewrite Hmem. split; [|auto].
  intros [?%elem_of_nil|?]; done.
Qed.

Lemma next_group_subset L g' :
  next_group gr L g' → g' ≠ [] ∧ ∃ g, g ∈ L ∧ g' ⊆ g.
Proof.
  intros (g & key & Hg & Hkey & _ & ->). split.
  - apply list_elem_of_fmap in Hkey as (a & -> & Ha).
    intros Hnil. eapply (filter_nil_not_elem_of _ _ a); done.
  - exists g. split; [done|]. apply list_subseteq_filter.
Qed.

Lemma next_group_separated L : separated L → ∀ L', (∀ g', g' ∈ L' → next_group gr L g') → separated L'.
Proof.
  intros Hsep L' HL' g1 g2 a Hg1 Hg2 Ha1 Ha2.
  apply HL' in Hg1 as (h1 & k1 & Hh1 & _ & _ & ->).
  apply HL' in Hg2 as (h2 & k2 & Hh2 & _ & _ & ->).
  apply list_elem_of_filter in Ha1 as [<- Ha1].
  apply list_elem_of_filter in Ha2 as [<- Ha2].
  by rewrite (Hsep h1 h2 a).
Qed.
End one_grouping.

(** ** KeepPropertyValueGroups with one grouping *)

Section single_grouping.
Implicit Types (A : list Artifact.t) (p : string) (k : Z).

Lemma unique_ids_Forall A :
  Forall (λ a, Forall (λ b, Artifact.id a = Artifact.id b → a = b) A) A →
  unique_ids A.
Proof.
  intros HA a b Ha Hb. rewrite Forall_forall in HA.
  specialize (HA a Ha). rewrite Forall_forall in HA. by apply HA.
Qed.

(** The artifacts one grouping keeps from the single initial group. *)
Lemma single_grouping_eval gr A t :
  order_ok gr → typed (Grouping.property_name gr) t A →
  unique_ids A →
  _artifacts_not_kept_by_property_value_groups A [gr]
  = ([], Ok (filter (λ a, ¬ survives gr A
                            (_get_property_value a (Grouping.property_name gr)))
                    A)).
Proof.
  intros Hok Ht Hnd.
  destruct (group_loop_ok gr [A] None [] t) as (L' & HL' & Hmem);
    [done|by simpl; rewrite app_nil_r|by left|].
  unfold _artifacts_not_kept_by_property_value_groups. cbn [grouping_loop].
  rewrite HL', lbind_ret. cbn [grouping_loop]. unfold lret.
  rewrite lbind_ret. do 2 f_equal.
  apply filter_ext_in. intros a Ha.
  assert (Artifact.id a ∈ map Artifact.id (concat L')
          ↔ survives gr A (_get_property_value a (Grouping.property_name gr)))
    as Hiff; [|by rewrite Hiff].
  change (map Artifact.id (concat L')) with (Artifact.id <$> concat L').
  rewrite list_elem_of_fmap. split.
  - intros (b & Hid & Hb). apply elem_of_concat in Hb as (g' & Hg' & Hb).
    apply Hmem in Hg' as [?%elem_of_nil|(g & key & Hg & Hkey & Hs & ->)]; [done|].
    apply list_elem_of_singleton in Hg as ->.
    apply list_elem_of_filter in Hb as [<- Hb].
    by rewrite (Hnd a b).
  - intros Hs. exists a. split; [done|]. apply elem_of_concat.
    eexists. split.
    + apply Hmem. right. eexists A, _. split_and!; [by left| |done..].
      apply list_elem_of_fmap. eauto.
    + by apply list_elem_of_filter.
Qed.

(** C5: for an artifact list (ids identifying the artifacts, the values of p
    of one type) and a
    KeepPropertyValueGroups policy with the single grouping
    {property_name: p, keep_num: k > 0, keep_order: LARGEST}, the delete-set
    is exactly the artifacts whose p-value is not among the k largest
    distinct non-null values; artifacts without a value survive only when
    fewer than k distinct non-null values exist.  On the values 1, 1, 2, 3
    with k = 1 the artifacts of values 1, 1, 2 are deleted and the artifact
    of value 3 is kept. *)
Theorem kpvg_single_largest :
  (∀ A p k cfg t,
     0 < k → unique_ids A → typed p t A →
     _artifacts_to_garbage_collect_for_policy A
       (kpvg [Grouping.mk p k KEEP_ORDER_LARGEST] cfg)
     = ([], Ok (filter (λ a, ¬ kept_largest p k A a) A)))
  ∧ (_artifacts_to_garbage_collect_for_policy ex_span
       (kpvg [Grouping.mk "span" 1 KEEP_ORDER_LARGEST] [])
     = ([], Ok [mk_artifact 1 10 "/a/1" [("span", int_value 1)];
                mk_artifact 2 20 "/a/2" [("span", int_value 1)];
                mk_artifact 3 30 "/a/3" [("span", int_value 2)]])
     ∧ list_difference ex_span
         [mk_artifact 1 10 "/a/1" [("span", int_value 1)];
          mk_artifact 2 20 "/a/2" [("span", int_value 1)];
          mk_artifact 3 30 "/a/3" [("span", int_value 2)]]
       = [mk_artifact 4 40 "/a/4" [("span", int_value 3)]]).
Proof.
  split; [|by vm_compute].
  intros A p k cfg t Hk Hnd Ht.
  unfold _artifacts_to_garbage_collect_for_policy, kpvg. simpl.
  rewrite (single_grouping_eval _ A t); [|by right|done..].
  do 2 f_equal. apply filter_ext_in. intros a _.
  unfold survives, kept_largest. simpl.
  destruct (_get_property_value a p); split; try tauto; intros H [?|?]; try lia; tauto.
Qed.

(** The spans 1, 1, 2, 3 with k = 1. *)
Lemma kpvg_single_largest_witness :
  _artifacts_to_garbage_collect_for_policy ex_span
    (kpvg [Grouping.mk "span" 1 KEEP_ORDER_LARGEST] [])
  = ([], Ok (filter (λ a, ¬ kept_largest "span" 1 ex_span a) ex_span)).
Proof.
  apply (proj1 kpvg_single_largest ex_span "span" 1 [] TInt).
  - lia.
  - apply unique_ids_Forall. apply (bool_decide_unpack _). by vm_compute.
  - intros a v Ha Hv. unfold ex_span in Ha.
    repeat (apply elem_of_cons in Ha as [->|Ha]);
      [..|by apply elem_of_nil in Ha]; vm_compute in Hv; by simplify_eq.
Defined.
End single_grouping.

(** ** A second pass over what was kept *)

Section second_pass.
Implicit Types (A g : list Artifact.t) (L G : list (list Artifact.t)).
Local Abbreviation ts := Artifact.create_time_since_epoch.

Lemma lbind_inv_ok {B C} (m : Logged B) (f : B → Logged C) l c :
  lbind m f = (l, Ok c) →
  ∃ l1 b l2, m = (l1, Ok b) ∧ f b = (l2, Ok c) ∧ l = l1 ++ l2.
Proof.
  unfold lbind. destruct m as [l1 [b|e]]; [|done].
  destruct (f b) as [l2 r] eqn:Hf. intros [= <- ->]. eauto 6.
Qed.

Lemma filter_filter_length {B} (P Q R : B → Prop)
    `{!∀ x, Decision (P x), !∀ x, Decision (Q x), !∀ x, Decision (R x)}
    (l : list B) :
  (∀ x, P x → R x → Q x) →
  (length (filter P (filter R l)) ≤ length (filter Q l))%nat.
Proof.
  intros HPQ. induction l as [|x l IH]; [done|].
  rewrite !(filter_cons _ x l).
  destruct (decide (R x)) as [HR|HR].
  - rewrite filter_cons. destruct (decide (P x)) as [HP|HP].
    + rewrite decide_True by auto. simpl. lia.
    + case_decide; simpl; lia.
  - case_decide; simpl; lia.
Qed.

Lemma list_difference_self {B} `{!EqDecision B} (l : list B) :
  list_difference l l = [].
Proof.
  rewrite (list_difference_select (λ _, True)) by done.
  apply filter_none, Forall_forall. tauto.
Qed.

Lemma list_difference_nil {B} `{!EqDecision B} (l : list B) :
  list_difference l [] = l.
Proof.
  rewrite (list_difference_select (λ _, False)).
  - apply filter_all, Forall_forall. tauto.
  - intros x _. split; [by intros ?%elem_of_nil|done].
Qed.

(** KeepMostRecentlyPublished deletes nothing from what it kept. *)
Lemma kmrp_second_pass A n :
  ∃ D, _artifacts_not_most_recently_published A n = Ok D
       ∧ _artifacts_not_most_recently_published (list_difference A D) n = Ok [].
Proof.
  destruct (Z.le_gt_cases n 0) as [Hn|Hn].
  { exists A. split; [by apply kmrp_nonpositive|].
    rewrite list_difference_self. by apply kmrp_nonpositive. }
  destruct (Z.le_gt_cases (Z.of_nat (length A)) n) as [Hle|Hlt].
  { exists []. split; [by apply kmrp_short|].
    rewrite list_difference_nil. by apply kmrp_short. }
  destruct (kmrp_long A n) as (c & _ & HD & Habove & Hfrom); [lia..|].
  eexists. split; [exact HD|]. rewrite kmrp_kept.
  set (K := filter (λ a, c ≤ ts a) A) in *.
  destruct (Z.le_gt_cases (Z.of_nat (length K)) n) as [HK|HK];
    [by apply kmrp_short; [lia|]|].
  destruct (kmrp_long K n) as (c' & _ & -> & _ & Hfrom'); [lia..|].
  f_equal. apply filter_none, Forall_forall. intros a Ha Hlt'.
  apply list_elem_of_filter in Ha as [Hca _].
  pose proof (filter_filter_length (λ a, c' ≤ ts a) (λ a, c < ts a)
                (λ a, c ≤ ts a) A) as Hlen.
  ospecialize (Hlen _); [intros x ? ?; lia|].
  fold K in Hlen. lia.
Qed.

Lemma grouping_loop_shrink gs L l G :
  grouping_loop gs L = (l, Ok G) → ∀ a, a ∈ concat G → a ∈ concat L.
Proof.
  revert L l. induction gs as [|gr gs IH]; intros L l H a Ha.
  - cbn [grouping_loop] in H. unfold lret in H. by simplify_eq.
  - cbn [grouping_loop] in H.
    apply lbind_inv_ok in H as (l1 & L' & l2 & H1 & H2 & _).
    apply (IH _ _ H2) in Ha. apply elem_of_concat in Ha as (g' & Hg' & Ha).
    apply group_loop_spec in H1 as (_ & _ & _ & Hmem).
    apply Hmem, next_group_subset in Hg' as (_ & g & Hg & Hsub).
    apply elem_of_concat. eauto.
Qed.

Lemma nonnull_values_subset p g1 g2 (P : Property → Prop)
    `{!∀ v, Decision (P v)} :
  g2 ⊆ g1 →
  (length (filter P (nonnull_values p g2))
   ≤ length (filter P (nonnull_values p g1)))%nat.
Proof.
  intros Hsub. apply submseteq_length, NoDup_submseteq.
  - apply NoDup_filter, NoDup_remove_dups.
  - intros v. rewrite !list_elem_of_filter. unfold nonnull_values.
    rewrite !elem_of_remove_dups, !list_elem_of_omap.
    intros (? & a & ? & ?). eauto.
Qed.

(** A bucket that survives in a group survives in each of its subsets. *)
Lemma survives_subset gr g1 g2 key :
  g2 ⊆ g1 → survives gr g1 key → survives gr g2 key.
Proof.
  intros Hsub [?|Hs]; [by left|]. right.
  destruct key as [v|].
  - destruct (Grouping.keep_order gr); [..|done].
    + pose proof (nonnull_values_subset (Grouping.property_name gr) g1 g2
                    (λ u, ¬ prop_le u v) Hsub).
      unfold rank_above in *. lia.
    + pose proof (nonnull_values_subset (Grouping.property_name gr) g1 g2
                    (λ u, ¬ prop_le u v) Hsub).
      unfold rank_above in *. lia.
    + pose proof (nonnull_values_subset (Grouping.property_name gr) g1 g2
                    (λ u, ¬ prop_le v u) Hsub).
      unfold rank_below in *. lia.
  - pose proof (nonnull_values_subset (Grouping.property_name gr) g1 g2
                  (λ _, True) Hsub) as Hlen.
    rewrite !filter_all in Hlen by (apply Forall_forall; done). lia.
Qed.
End second_pass.

Section idempotence.
Implicit Types (A g : list Artifact.t) (L G : list (list Artifact.t)).

(** The second run, on groups that hold the survivors of the first run and
    nothing else, keeps every survivor. *)
Lemma grouping_loop_again gs L1 L2 l G :
  grouping_loop gs L1 = (l, Ok G) →
  separated L1 →
  (∀ g2, g2 ∈ L2 →
         (∀ a, a ∈ g2 → a ∈ concat G) ∧ ∃ g1, g1 ∈ L1 ∧ g2 ⊆ g1) →
  (∀ a, a ∈ concat G → ∃ g2, g2 ∈ L2 ∧ a ∈ g2) →
  ∃ G', grouping_loop gs L2 = ([], Ok G')
        ∧ ∀ a, a ∈ concat G → a ∈ concat G'.
Proof.
  revert L1 L2 l. induction gs as [|gr gs IH]; intros L1 L2 l H Hsep J1 J2.
  { exists L2. split; [done|]. intros a Ha.
    apply elem_of_concat. by apply J2. }
  cbn [grouping_loop] in H.
  apply lbind_inv_ok in H as (l1 & L1' & l2 & H1 & H2 & _).
  pose proof (grouping_loop_shrink _ _ _ _ H2) as Hshrink.
  apply group_loop_spec in H1 as (_ & Hok & (t & Ht) & Hmem1).
  destruct (group_loop_ok gr L2 None [] t) as (L2' & HL2' & Hmem2).
  { intros HL2. apply Hok. destruct L2 as [|g2 L2]; [done|].
    destruct (J1 g2 ltac:(left)) as (_ & g1 & Hg1 & _).
    intros ->. by apply elem_of_nil in Hg1. }
  { intros a v Ha. apply elem_of_concat in Ha as (g2 & Hg2 & Ha).
    destruct (J1 g2 Hg2) as (_ & g1 & Hg1 & Hsub).
    apply Ht, elem_of_concat. exists g1. split; [done|]. by apply Hsub. }
  { by left. }
  (* where a survivor sits in the first run *)
  assert (∀ a g1, a ∈ concat G → g1 ∈ L1 → a ∈ g1 →
            survives gr g1 (_get_property_value a (Grouping.property_name gr))
            ∧ filter (λ b, _get_property_value b (Grouping.property_name gr)
                           = _get_property_value a (Grouping.property_name gr)) g1
              ∈ L1') as Hplace.
  { intros a g1 Ha Hg1 Hag1.
    apply Hshrink, elem_of_concat in Ha as (h' & Hh' & Hah').
    pose proof Hh' as Hin.
    apply Hmem1 in Hh' as (h & key & Hh & _ & Hs & ->).
    apply list_elem_of_filter in Hah' as [<- Hah].
    by rewrite (Hsep g1 h a). }
  destruct (IH L1' L2' l2 H2) as (G' & HG' & Hkeep).
  - apply (next_group_separated gr L1 Hsep). intros g'. apply Hmem1.
  - intros g2' Hg2'.
    apply Hmem2 in Hg2' as [?%elem_of_nil|(g2 & key & Hg2 & Hkey & _ & ->)];
      [done|].
    destruct (J1 g2 Hg2) as (HG & g1 & Hg1 & Hsub). split.
    + intros a [_ Ha]%list_elem_of_filter. by apply HG.
    + apply list_elem_of_fmap in Hkey as (b & -> & Hb).
      destruct (Hplace b g1) as [_ Hin]; [by apply HG|done|by apply Hsub|].
      eexists. split; [exact Hin|].
      intros a [Hk Ha]%list_elem_of_filter. apply list_elem_of_filter. auto.
  - intros a Ha. destruct (J2 a Ha) as (g2 & Hg2 & Hag2).
    destruct (J1 g2 Hg2) as (_ & g1 & Hg1 & Hsub).
    destruct (Hplace a g1) as [Hs _]; [done|done|by apply Hsub|].
    eexists. split.
    + apply Hmem2. right. exists g2, (_get_property_value a (Grouping.property_name gr)).
      split_and!; [done| |by eapply survives_subset|done].
      apply list_elem_of_fmap. eauto.
    + by apply list_elem_of_filter.
  - exists G'. split; [|done].
    cbn [grouping_loop]. by rewrite HL2', lbind_ret.
Qed.

(** KeepPropertyValueGroups deletes nothing from what it kept. *)
Lemma kpvg_second_pass A gs l D :
  unique_ids A →
  _artifacts_not_kept_by_property_value_groups A gs = (l, Ok D) →
  _artifacts_not_kept_by_property_value_groups (list_difference A D) gs
  = ([], Ok []).
Proof.
  intros Hnd H. unfold _artifacts_not_kept_by_property_value_groups in H.
  apply lbind_inv_ok in H as (l1 & G & l2 & HG & HD & _).
  unfold lret in HD. simplify_eq.
  pose proof (grouping_loop_shrink _ _ _ _ HG) as Hshrink.
  simpl in Hshrink. setoid_rewrite app_nil_r in Hshrink.
  rewrite list_difference_filter.
  set (K := filter _ A).
  assert (∀ a, a ∈ K ↔ a ∈ concat G) as HK.
  { intros a. unfold K. rewrite list_elem_of_filter. split.
    - intros [Hid Ha]. apply dec_stable in Hid.
      change (map Artifact.id (concat G)) with (Artifact.id <$> concat G) in Hid.
      apply list_elem_of_fmap in Hid as (b & Hid & Hb).
      by rewrite (Hnd a b); auto.
    - intros Ha. split; [|by auto]. intros Hn. apply Hn.
      change (map Artifact.id (concat G)) with (Artifact.id <$> concat G).
      apply list_elem_of_fmap. eauto. }
  destruct (grouping_loop_again gs [A] [K] _ G HG) as (G' & HG' & Hkeep).
  - intros g g' a ->%list_elem_of_singleton ->%list_elem_of_singleton _ _. done.
  - intros g2 ->%list_elem_of_singleton. split; [intros a; apply HK|].
    exists A. split; [by left|]. apply list_subseteq_filter.
  - intros a Ha. exists K. split; [by left|]. by apply HK.
  - unfold _artifacts_not_kept_by_property_value_groups.
    rewrite HG', lbind_ret. unfold lret. do 2 f_equal.
    apply filter_none, Forall_forall. intros a Ha Hn. apply Hn.
    change (map Artifact.id (concat G')) with (Artifact.id <$> concat G').
    apply list_elem_of_fmap. exists a. split; [done|]. by apply Hkeep, HK.
Qed.

(** C9: policy evaluation is idempotent.  For KeepMostRecentlyPublished the
    delete-set D of A always exists and evaluating the policy again on
    A \ D deletes nothing; for KeepPropertyValueGroups (ids identifying the
    artifacts),
    and for any policy, whenever the first evaluation returns a delete-set D,
    the evaluation on A \ D returns the empty delete-set. *)
Theorem policy_idempotent :
  (∀ A n cfg,
     ∃ D, _artifacts_to_garbage_collect_for_policy A (kmrp n cfg) = ([], Ok D)
          ∧ _artifacts_to_garbage_collect_for_policy (list_difference A D)
              (kmrp n cfg) = ([], Ok []))
  ∧ (∀ A groupings cfg l D,
       unique_ids A →
       _artifacts_to_garbage_collect_for_policy A (kpvg groupings cfg) = (l, Ok D) →
       _artifacts_to_garbage_collect_for_policy (list_difference A D)
         (kpvg groupings cfg) = ([], Ok []))
  ∧ (∀ A policy l D,
       unique_ids A →
       _artifacts_to_garbage_collect_for_policy A policy = (l, Ok D) →
       snd (_artifacts_to_garbage_collect_for_policy (list_difference A D) policy)
       = Ok []).
Proof.
  split_and!.
  - intros A n cfg. destruct (kmrp_second_pass A n) as (D & H1 & H2).
    exists D. unfold _artifacts_to_garbage_collect_for_policy, kmrp, llift.
    simpl. by rewrite H1, H2.
  - intros A gs cfg l D Hnd H.
    unfold _artifacts_to_garbage_collect_for_policy, kpvg in *. simpl in *.
    by eapply kpvg_second_pass.
  - intros A [[n|gs|] cfg] l D Hnd H;
      unfold _artifacts_to_garbage_collect_for_policy in *; simpl in *.
    + destruct (kmrp_second_pass A n) as (D' & H1 & H2).
      unfold llift in H. rewrite H1 in H. simplify_eq. by rewrite H2.
    + by erewrite kpvg_second_pass.
    + done.
Qed.
End idempotence.

(** A second pass over spans 2, 3, 3 keeping the two largest. *)
Lemma policy_idempotent_witness :
  _artifacts_to_garbage_collect_for_policy
    (list_difference ex_span_twice
       [mk_artifact 1 10 "/a/1" [("span", int_value 1)];
        mk_artifact 2 20 "/a/2" [("span", int_value 1)]])
    (kpvg [Grouping.mk "span" 2 KEEP_ORDER_LARGEST] []) = ([], Ok []).
Proof.
  apply (proj1 (proj2 policy_idempotent) ex_span_twice
           [Grouping.mk "span" 2 KEEP_ORDER_LARGEST] [] []).
  - apply unique_ids_Forall. apply (bool_decide_unpack _). by vm_compute.
  - by vm_compute.
Defined.

(** ** The purge step *)

Section purge.
Context {F : Type} `{!FileIO F}.
Implicit Types (w : World F) (a : Artifact.t).

Lemma bind_ok {A B} (m : M F A) (f : A → M F B) w x w1 :
  m w = (Ok x, w1) → bind m f w = f x w1.
Proof. unfold bind. by intros ->. Qed.

Lemma bind_raise {A B} (m : M F A) (f : A → M F B) w e w1 :
  m w = (Raise e, w1) → bind m f w = (Raise e, w1).
Proof. unfold bind. by intros ->. Qed.

Lemma bind_inv_ok {A B} (m : M F A) (f : A → M F B) w y w' :
  bind m f w = (Ok y, w') → ∃ x w1, m w = (Ok x, w1) ∧ f x w1 = (Ok y, w').
Proof. unfold bind. destruct (m w) as [[x|e] w1]; [eauto|done]. Qed.

Lemma delete_uri_removed a w w1 :
  remove_uri (Artifact.uri a) (at_removal w) = (Ok tt, w1) →
  _delete_artifact_uri a w = (Ok true, w1).
Proof.
  intros H. unfold _delete_artifact_uri, bind, try_except, log.
  fold (at_removal w). by rewrite H.
Qed.

Lemma delete_uri_gone a w e w1 fs' :
  remove_uri (Artifact.uri a) (at_removal w) = (Raise e, w1) →
  fileio_exists (Artifact.uri a) (w_fs w1) = (Ok false, fs') →
  ∃ w2, _delete_artifact_uri a w = (Ok true, w2).
Proof.
  intros H Hex. unfold _delete_artifact_uri, bind, try_except, log, fs_call.
  fold (at_removal w). rewrite H, Hex. simpl. eauto.
Qed.

Lemma delete_uri_failed a w e w1 fs' :
  remove_uri (Artifact.uri a) (at_removal w) = (Raise e, w1) →
  fileio_exists (Artifact.uri a) (w_fs w1) = (Ok true, fs') →
  ∃ w2, _delete_artifact_uri a w = (Ok false, w2).
Proof.
  intros H Hex. unfold _delete_artifact_uri, bind, try_except, log, fs_call.
  fold (at_removal w). rewrite H, Hex. simpl. eauto.
Qed.

Lemma delete_uri_lost a w e w1 e' fs' :
  remove_uri (Artifact.uri a) (at_removal w) = (Raise e, w1) →
  fileio_exists (Artifact.uri a) (w_fs w1) = (Raise e', fs') →
  ∃ w2, _delete_artifact_uri a w = (Raise e', w2).
Proof.
  intros H Hex. unfold _delete_artifact_uri, bind, try_except, log, fs_call.
  fold (at_removal w). rewrite H, Hex. simpl. eauto.
Qed.

(** The three outcomes of the loop body for an internal artifact. *)
Lemma internal_artifact_removed a w w1 :
  _is_artifact_external a = false →
  remove_uri (Artifact.uri a) (at_removal w) = (Ok tt, w1) →
  fst (garbage_collect_artifact a w) = Ok (Artifact.set_state DELETED a).
Proof.
  intros Hint H. unfold garbage_collect_artifact. rewrite Hint.
  by rewrite (bind_ok _ _ _ _ _ (delete_uri_removed a w w1 H)).
Qed.

Lemma internal_artifact_gone a w e w1 fs' :
  _is_artifact_external a = false →
  remove_uri (Artifact.uri a) (at_removal w) = (Raise e, w1) →
  fileio_exists (Artifact.uri a) (w_fs w1) = (Ok false, fs') →
  fst (garbage_collect_artifact a w) = Ok (Artifact.set_state DELETED a).
Proof.
  intros Hint H Hex. unfold garbage_collect_artifact. rewrite Hint.
  destruct (delete_uri_gone a w e w1 fs' H Hex) as [w2 Hd].
  by rewrite (bind_ok _ _ _ _ _ Hd).
Qed.

Lemma internal_artifact_left a w e w1 fs' :
  _is_artifact_external a = false →
  remove_uri (Artifact.uri a) (at_removal w) = (Raise e, w1) →
  fileio_exists (Artifact.uri a) (w_fs w1) = (Ok true, fs') →
  fst (garbage_collect_artifact a w) = Ok a.
Proof.
  intros Hint H Hex. unfold garbage_collect_artifact. rewrite Hint.
  destruct (delete_uri_failed a w e w1 fs' H Hex) as [w2 Hd].
  by rewrite (bind_ok _ _ _ _ _ Hd).
Qed.

(** What the loop body does to the world and to the artifact: the store is
    not touched, the filesystem calls all concern the artifact's uri, an
    external artifact causes none, and only the state field can change. *)
Lemma garbage_collect_artifact_effects a w r w' :
  garbage_collect_artifact a w = (r, w') →
  w_store w' = w_store w
  ∧ (∃ calls, w_calls w' = w_calls w ++ calls
              ∧ Forall (λ c, call_uri c = Artifact.uri a
                             ∧ _is_artifact_external a = false) calls)
  ∧ (∀ a', r = Ok a' → a' = a ∨ a' = Artifact.set_state DELETED a).
Proof.
  unfold garbage_collect_artifact, _delete_artifact_uri, remove_uri, bind,
    try_except, fs_call, log, ret, add_logs.
  destruct (_is_artifact_external a) eqn:Hext; simpl.
  { intros [= <- <-]. simpl. split_and!; [done| |naive_solver].
    exists []. by rewrite app_nil_r. }
  destruct (fileio_isdir (Artifact.uri a) (w_fs w)) as [[[]|e1] fs1]; simpl.
  - destruct (fileio_rmtree (Artifact.uri a) fs1) as [[[]|e2] fs2]; simpl.
    + intros [= <- <-]. simpl. split_and!; [done| |naive_solver].
      eexists. rewrite <- (assoc (++)). split; [done|]. repeat constructor.
    + destruct (fileio_exists (Artifact.uri a) fs2) as [[[]|e3] fs3]; simpl;
        intros [= <- <-]; simpl; (split_and!; [done| |naive_solver]);
        eexists; rewrite <- !(assoc (++)); (split; [done|]); repeat constructor.
  - destruct (fileio_remove (Artifact.uri a) fs1) as [[[]|e2] fs2]; simpl.
    + intros [= <- <-]. simpl. split_and!; [done| |naive_solver].
      eexists. rewrite <- (assoc (++)). split; [done|]. repeat constructor.
    + destruct (fileio_exists (Artifact.uri a) fs2) as [[[]|e3] fs3]; simpl;
        intros [= <- <-]; simpl; (split_and!; [done| |naive_solver]);
        eexists; rewrite <- !(assoc (++)); (split; [done|]); repeat constructor.
  - destruct (fileio_exists (Artifact.uri a) fs1) as [[[]|e3] fs3]; simpl;
      intros [= <- <-]; simpl; (split_and!; [done| |naive_solver]);
      eexists; rewrite <- !(assoc (++)); (split; [done|]); repeat constructor.
Qed.

(** An external artifact: no filesystem call, the filesystem as it was, the
    artifact DELETED. *)
Lemma garbage_collect_external a w :
  _is_artifact_external a = true →
  garbage_collect_artifact a w
  = (Ok (Artifact.set_state DELETED a),
     add_logs [(INFO, "Mark external artifact %s as DELETED in MLMD")] w).
Proof. intros Hext. unfold garbage_collect_artifact. by rewrite Hext. Qed.

Lemma purge_loop_effects l w r w' :
  purge_loop l w = (r, w') →
  w_store w' = w_store w
  ∧ (∃ calls, w_calls w' = w_calls w ++ calls
              ∧ Forall (λ c, ∃ b, b ∈ l ∧ _is_artifact_external b = false
                                  ∧ call_uri c = Artifact.uri b) calls)
  ∧ (∀ l', r = Ok l' →
           Forall2 (λ a a', a' = a ∨ a' = Artifact.set_state DELETED a) l l').
Proof.
  revert w r w'. induction l as [|a l IH]; intros w r w' H.
  { cbn in H. unfold ret in H. simplify_eq. split_and!; [done| |].
    - exists []. by rewrite app_nil_r.
    - intros l' [= <-]. constructor. }
  cbn [purge_loop] in H. unfold bind at 1 in H.
  destruct (garbage_collect_artifact a w) as [[a'|e] w1] eqn:Ha.
  - apply garbage_collect_artifact_effects in Ha
      as (Hs1 & (c1 & Hc1 & Hf1) & Ha').
    unfold bind in H.
    destruct (purge_loop l w1) as [[l1|e] w2] eqn:Hl;
      apply IH in Hl as (Hs2 & (c2 & Hc2 & Hf2) & Hl');
      unfold ret in H; simplify_eq; (split_and!; [congruence| |]).
    + exists (c1 ++ c2). rewrite Hc2, Hc1, (assoc (++)). split; [done|].
      apply Forall_app. split.
      * eapply Forall_impl; [exact Hf1|]. intros c [? ?]. exists a.
        split_and!; [by left|done..].
      * eapply Forall_impl; [exact Hf2|]. intros c (b & ? & ?). exists b.
        split; [by right|done].
    + intros l' [= <-]. constructor; auto.
    + exists (c1 ++ c2). rewrite Hc2, Hc1, (assoc (++)). split; [done|].
      apply Forall_app. split.
      * eapply Forall_impl; [exact Hf1|]. intros c [? ?]. exists a.
        split_and!; [by left|done..].
      * eapply Forall_impl; [exact Hf2|]. intros c (b & ? & ?). exists b.
        split; [by right|done].
    + done.
  - apply garbage_collect_artifact_effects in Ha as (Hs1 & (c1 & Hc1 & Hf1) & _).
    simplify_eq. split_and!; [done| |done].
    exists c1. split; [done|].
    eapply Forall_impl; [exact Hf1|]. intros c [? ?]. exists a.
    split_and!; [by left|done..].
Qed.

(** The loop, cut at one of its artifacts. *)
Lemma purge_loop_split l1 a l2 w l' w' :
  purge_loop (l1 ++ a :: l2) w = (Ok l', w') →
  ∃ l1' a' l2' w1 w2,
    purge_loop l1 w = (Ok l1', w1)
    ∧ garbage_collect_artifact a w1 = (Ok a', w2)
    ∧ purge_loop l2 w2 = (Ok l2', w')
    ∧ l' = l1' ++ a' :: l2' ∧ length l1' = length l1.
Proof.
  revert w l'. induction l1 as [|b l1 IH]; intros w l' H.
  - cbn [app purge_loop] in H.
    apply bind_inv_ok in H as (a' & w2 & Ha & H).
    apply bind_inv_ok in H as (l2' & w3 & Hl2 & H).
    unfold ret in H. simplify_eq. by exists [], a', l2', w, w2.
  - cbn [app purge_loop] in H.
    apply bind_inv_ok in H as (b' & wb & Hb & H).
    apply bind_inv_ok in H as (lr & w3 & Hlr & H).
    unfold ret in H. simplify_eq.
    apply IH in Hlr as (l1' & a' & l2' & w1 & w2 & H1 & Ha & H2 & -> & Hlen).
    exists (b' :: l1'), a', l2', w1, w2. split_and!; [|done..|by simpl; f_equal].
    cbn [purge_loop]. rewrite (bind_ok _ _ _ _ _ Hb).
    by rewrite (bind_ok _ _ _ _ _ H1).
Qed.

Lemma purge_loop_external l w l' w' i a :
  purge_loop l w = (Ok l', w') → l !! i = Some a →
  _is_artifact_external a = true →
  l' !! i = Some (Artifact.set_state DELETED a).
Proof.
  intros H Hi Hext.
  rewrite <- (take_drop_middle l i a Hi) in H.
  apply purge_loop_split in H as (l1' & a' & l2' & w1 & w2 & _ & Ha & _ & -> & Hlen).
  rewrite garbage_collect_external in Ha by done. simplify_eq.
  rewrite length_take_le in Hlen by (apply lookup_lt_Some in Hi; lia).
  by rewrite list_lookup_middle.
Qed.

Lemma garbage_collect_artifacts_inv l w r w' :
  l ≠ [] → garbage_collect_artifacts l w = (r, w') →
  (∃ batch w1, purge_loop l w = (Ok batch, w1)
               ∧ store_put_artifacts batch w1 = (r, w'))
  ∨ (∃ e, r = Raise e ∧ purge_loop l w = (Raise e, w')).
Proof.
  intros Hl H. destruct l as [|a l]; [done|].
  unfold garbage_collect_artifacts, bind in H.
  destruct (purge_loop (a :: l) w) as [[batch|e] w1]; [left|right]; eauto.
  exists e. by simplify_eq.
Qed.

Lemma store_put_artifacts_effects batch w r w' :
  store_put_artifacts batch w = (r, w') →
  w_calls w' = w_calls w ∧ w_fs w' = w_fs w
  ∧ match r with
    | Ok _ =>
        Store.writes (w_store w') = Store.writes (w_store w) ++ [batch]
        ∧ Store.artifacts (w_store w')
          = Store.upsert batch (Store.artifacts (w_store w))
    | Raise _ => w_store w' = w_store w
    end.
Proof.
  unfold store_put_artifacts, Store.put_artifacts.
  destruct (Store.fault (w_store w) PutArtifacts); intros [= <- <-]; done.
Qed.

(** The loop body and the loop return whenever the existence check does. *)
Lemma garbage_collect_artifact_returns a w :
  (∀ u fs, ∃ b fs', fileio_exists u fs = (Ok b, fs')) →
  ∃ a' w', garbage_collect_artifact a w = (Ok a', w').
Proof.
  intros Hex.
  unfold garbage_collect_artifact, _delete_artifact_uri, remove_uri, bind,
    try_except, fs_call, log, ret, add_logs.
  destruct (_is_artifact_external a); simpl; [eauto|].
  destruct (fileio_isdir (Artifact.uri a) (w_fs w)) as [[[]|e1] fs1]; simpl.
  - destruct (fileio_rmtree (Artifact.uri a) fs1) as [[[]|e2] fs2]; simpl; [eauto|].
    destruct (Hex (Artifact.uri a) fs2) as ([] & fs3 & ->); simpl; eauto.
  - destruct (fileio_remove (Artifact.uri a) fs1) as [[[]|e2] fs2]; simpl; [eauto|].
    destruct (Hex (Artifact.uri a) fs2) as ([] & fs3 & ->); simpl; eauto.
  - destruct (Hex (Artifact.uri a) fs1) as ([] & fs3 & ->); simpl; eauto.
Qed.

Lemma purge_loop_returns l w :
  (∀ u fs, ∃ b fs', fileio_exists u fs = (Ok b, fs')) →
  ∃ l' w', purge_loop l w = (Ok l', w').
Proof.
  intros Hex. revert w. induction l as [|a l IH]; intros w; [by eexists _, _|].
  destruct (garbage_collect_artifact_returns a w Hex) as (a' & w1 & Ha).
  destruct (IH w1) as (l' & w2 & Hl).
  exists (a' :: l'), w2. cbn [purge_loop].
  rewrite (bind_ok _ _ _ _ _ Ha). by rewrite (bind_ok _ _ _ _ _ Hl).
Qed.
End purge.

Section purge_claims.
Context {F : Type} `{!FileIO F}.
Implicit Types (w : World F) (a : Artifact.t) (l : list Artifact.t).

(** C7: for an artifact with the external flag set, the purge step performs
    no filesystem operation on its behalf (the loop body leaves the
    filesystem and the record of calls as they were, and every call the
    whole step makes is on the uri of an internal artifact of the list) and
    turns its state to DELETED, which is what the batch written to the store
    holds for it. *)
Theorem external_artifact_no_storage a :
  _is_artifact_external a = true →
  (∀ w, garbage_collect_artifact a w
        = (Ok (Artifact.set_state DELETED a),
           add_logs [(INFO, "Mark external artifact %s as DELETED in MLMD")] w)
        ∧ w_calls (snd (garbage_collect_artifact a w)) = w_calls w
        ∧ w_fs (snd (garbage_collect_artifact a w)) = w_fs w
        ∧ Artifact.state (Artifact.set_state DELETED a) = DELETED)
  ∧ (∀ l w r w',
       garbage_collect_artifacts l w = (r, w') →
       ∃ calls, w_calls w' = w_calls w ++ calls
                ∧ Forall (λ c, ∃ b, b ∈ l ∧ _is_artifact_external b = false
                                    ∧ call_uri c = Artifact.uri b) calls)
  ∧ (∀ l w w' i,
       garbage_collect_artifacts l w = (Ok tt, w') → l !! i = Some a →
       ∃ batch, Store.writes (w_store w') = Store.writes (w_store w) ++ [batch]
                ∧ batch !! i = Some (Artifact.set_state DELETED a)).
Proof.
  intros Hext. split_and!.
  - intros w. by rewrite garbage_collect_external.
  - intros l w r w' H. destruct l as [|b l].
    { cbn in H. unfold ret in H. simplify_eq. exists [].
      by rewrite app_nil_r. }
    destruct (garbage_collect_artifacts_inv (b :: l) _ _ _ ltac:(done) H)
      as [(batch & w1 & Hloop & Hput)|(e & -> & Hloop)].
    + apply purge_loop_effects in Hloop as (_ & (calls & Hc & Hf) & _).
      apply store_put_artifacts_effects in Hput as (Hc' & _).
      exists calls. by rewrite Hc'.
    + by apply purge_loop_effects in Hloop as (_ & Hcalls & _).
  - intros l w w' i H Hi.
    assert (l ≠ []) as Hl by (intros ->; by rewrite lookup_nil in Hi).
    destruct (garbage_collect_artifacts_inv _ _ _ _ Hl H)
      as [(batch & w1 & Hloop & Hput)|(e & ? & _)]; [|done].
    pose proof (purge_loop_external _ _ _ _ _ _ Hloop Hi Hext) as Hb.
    apply purge_loop_effects in Hloop as (Hs & _).
    apply store_put_artifacts_effects in Hput as (_ & _ & Hw & _).
    exists batch. by rewrite Hw, Hs.
Qed.

(** C8: for an internal artifact of the list handed to the purge step, with
    the world as the loop finds it at the artifact's turn.  Whenever
    [garbage_collect_artifacts] returns, the batch it wrote to the store
    holds at the artifact's position: the artifact in state DELETED when the
    removal of its uri succeeded, and when the removal failed but the uri no
    longer existed at that moment; the artifact unchanged, hence still LIVE
    if it was, when the removal failed and the uri still existed.  The step
    does return unless the existence check raises or the store refuses the
    write. *)
Theorem internal_artifact_outcome l1 a l2 w :
  _is_artifact_external a = false →
  (∀ w', garbage_collect_artifacts (l1 ++ a :: l2) w = (Ok tt, w') →
     ∃ batch l1' w1 a',
       Store.writes (w_store w') = Store.writes (w_store w) ++ [batch]
       ∧ Store.artifacts (w_store w')
         = Store.upsert batch (Store.artifacts (w_store w))
       ∧ purge_loop l1 w = (Ok l1', w1)
       ∧ batch !! length l1 = Some a'
       ∧ (∀ w2, remove_uri (Artifact.uri a) (at_removal w1) = (Ok tt, w2) →
                a' = Artifact.set_state DELETED a
                ∧ Artifact.state a' = DELETED)
       ∧ (∀ e w2 fs',
            remove_uri (Artifact.uri a) (at_removal w1) = (Raise e, w2) →
            fileio_exists (Artifact.uri a) (w_fs w2) = (Ok false, fs') →
            a' = Artifact.set_state DELETED a ∧ Artifact.state a' = DELETED)
       ∧ (∀ e w2 fs',
            remove_uri (Artifact.uri a) (at_removal w1) = (Raise e, w2) →
            fileio_exists (Artifact.uri a) (w_fs w2) = (Ok true, fs') →
            a' = a ∧ Artifact.state a' = Artifact.state a))
  ∧ ((∀ u fs, ∃ b fs', fileio_exists u fs = (Ok b, fs')) →
     Store.fault (w_store w) PutArtifacts = None →
     ∃ w', garbage_collect_artifacts (l1 ++ a :: l2) w = (Ok tt, w')).
Proof.
  intros Hint.
  assert (l1 ++ a :: l2 ≠ []) as Hl by (by destruct l1).
  split.
  - intros w' H.
    destruct (garbage_collect_artifacts_inv _ _ _ _ Hl H)
      as [(batch & wl & Hloop & Hput)|(e & ? & _)]; [|done].
    pose proof (purge_loop_effects _ _ _ _ Hloop) as (Hs & _).
    apply store_put_artifacts_effects in Hput as (_ & _ & Hw & Hup).
    apply purge_loop_split in Hloop
      as (l1' & a' & l2' & wa & wb & H1 & Ha' & _ & -> & Hlen).
    exists (l1' ++ a' :: l2'), l1', wa, a'. rewrite Hw, Hup, Hs.
    split_and!; [done..| | | |].
    + by rewrite <- Hlen, list_lookup_middle.
    + intros w2 Hrm.
      pose proof (internal_artifact_removed a wa w2 Hint Hrm) as Ha0.
      rewrite Ha' in Ha0. simpl in Ha0. by simplify_eq.
    + intros e w2 fs' Hrm Hex.
      pose proof (internal_artifact_gone a wa e w2 fs' Hint Hrm Hex) as Ha0.
      rewrite Ha' in Ha0. simpl in Ha0. by simplify_eq.
    + intros e w2 fs' Hrm Hex.
      pose proof (internal_artifact_left a wa e w2 fs' Hint Hrm Hex) as Ha0.
      rewrite Ha' in Ha0. simpl in Ha0. by simplify_eq.
  - intros Hex Hput.
    destruct (purge_loop_returns (l1 ++ a :: l2) w Hex) as (batch & wl & Hloop).
    destruct (l1 ++ a :: l2) as [|b l] eqn:Heq; [done|].
    unfold garbage_collect_artifacts. rewrite (bind_ok _ _ _ _ _ Hloop).
    apply purge_loop_effects in Hloop as (Hs & _).
    unfold store_put_artifacts, Store.put_artifacts. rewrite Hs, Hput. eauto.
Qed.

(** C10: the purge step changes nothing but the state field.  When
    [garbage_collect_artifacts] returns, the store received exactly one
    batch, it holds one record per input artifact, in order, equal to the
    input on id, uri, creation time, properties and custom properties, with
    the old state or DELETED; an internal artifact whose removal failed
    while its uri still exists is in that batch unchanged (so still LIVE if
    it was).  When the step raises, the store is as it was. *)
Theorem purge_changes_state_only l w r w' :
  l ≠ [] → garbage_collect_artifacts l w = (r, w') →
  (∀ e, r = Raise e → w_store w' = w_store w)
  ∧ (r = Ok tt →
     ∃ batch,
       Store.writes (w_store w') = Store.writes (w_store w) ++ [batch]
       ∧ Store.artifacts (w_store w')
         = Store.upsert batch (Store.artifacts (w_store w))
       ∧ Forall2 same_but_state l batch
       ∧ ∀ l1 a l2, l = l1 ++ a :: l2 →
           ∃ l1' a' l2' w1,
             purge_loop l1 w = (Ok l1', w1)
             ∧ batch = l1' ++ a' :: l2' ∧ length l1' = length l1
             ∧ fst (garbage_collect_artifact a w1) = Ok a'
             ∧ (_is_artifact_external a = false →
                ∀ e w2 fs',
                  remove_uri (Artifact.uri a) (at_removal w1) = (Raise e, w2) →
                  fileio_exists (Artifact.uri a) (w_fs w2) = (Ok true, fs') →
                  a' = a ∧ Artifact.state a' = Artifact.state a)).
Proof.
  intros Hl H.
  destruct (garbage_collect_artifacts_inv _ _ _ _ Hl H)
    as [(batch & w1 & Hloop & Hput)|(e & -> & Hloop)].
  - pose proof (purge_loop_effects _ _ _ _ Hloop) as (Hs & _ & Hf).
    apply store_put_artifacts_effects in Hput as (_ & _ & Hput). split.
    + intros e ->. by rewrite Hput.
    + intros ->. destruct Hput as [Hw Ha]. exists batch.
      rewrite Hw, Ha, Hs. split_and!; [done..| |].
      * eapply Forall2_impl; [by apply Hf|].
        intros a a' [->| ->]; unfold same_but_state; simpl; tauto.
      * intros l1 a l2 ->.
        apply purge_loop_split in Hloop
          as (l1' & a' & l2' & wa & wb & H1 & Ha' & _ & -> & Hlen).
        exists l1', a', l2', wa. rewrite Ha'. split_and!; [done..|].
        intros Hint e w2 fs' Hrm Hex.
        pose proof (internal_artifact_left a wa e w2 fs' Hint Hrm Hex) as Ha0.
        rewrite Ha' in Ha0. simpl in Ha0. by simplify_eq.
  - split; [|done]. intros e' _.
    by apply purge_loop_effects in Hloop as (Hs & _).
Qed.
End purge_claims.

(** An external artifact followed by an internal one whose uri is a
    directory, is missing, and is a protected file: the batch holds the
    internal artifact DELETED, DELETED, and as it was. *)
Lemma internal_artifact_outcome_witness :
  (∃ batch,
     Store.writes (w_store (snd (garbage_collect_artifacts
                                   [ex_external; ex_internal] w_present)))
     = [batch]
     ∧ batch !! 1%nat = Some (Artifact.set_state DELETED ex_internal))
  ∧ (∃ batch,
       Store.writes (w_store (snd (garbage_collect_artifacts
                                     [ex_external; ex_internal] w_missing)))
       = [batch]
       ∧ batch !! 1%nat = Some (Artifact.set_state DELETED ex_internal))
  ∧ (∃ batch,
       Store.writes (w_store (snd (garbage_collect_artifacts
                                     [ex_external; ex_internal] w_protected)))
       = [batch]
       ∧ batch !! 1%nat = Some ex_internal).
Proof.
  split_and!.
  - destruct (internal_artifact_outcome (F:=SimFS) [ex_external] ex_internal []
                w_present eq_refl) as [H _].
    destruct (H (snd (garbage_collect_artifacts [ex_external; ex_internal]
                        w_present)))
      as (batch & l1' & w1 & a' & Hw & _ & Hl1 & Hb & Hok & _); [by vm_compute|].
    exists batch. split; [exact Hw|].
    injection Hl1 as <- <-. by edestruct Hok as [<- _]; [by vm_compute|].
  - destruct (internal_artifact_outcome (F:=SimFS) [ex_external] ex_internal []
                w_missing eq_refl) as [H _].
    destruct (H (snd (garbage_collect_artifacts [ex_external; ex_internal]
                        w_missing)))
      as (batch & l1' & w1 & a' & Hw & _ & Hl1 & Hb & _ & Hgone & _);
      [by vm_compute|].
    exists batch. split; [exact Hw|].
    injection Hl1 as <- <-.
    by edestruct Hgone as [<- _]; [by vm_compute..|].
  - destruct (internal_artifact_outcome (F:=SimFS) [ex_external] ex_internal []
                w_protected eq_refl) as [H _].
    destruct (H (snd (garbage_collect_artifacts [ex_external; ex_internal]
                        w_protected)))
      as (batch & l1' & w1 & a' & Hw & _ & Hl1 & Hb & _ & _ & Hleft);
      [by vm_compute|].
    exists batch. split; [exact Hw|].
    injection Hl1 as <- <-.
    by edestruct Hleft as [<- _]; [by vm_compute..|].
Defined.

(** An external artifact next to an internal one. *)
Lemma external_artifact_no_storage_witness :
  w_calls (snd (garbage_collect_artifact ex_external w_present)) = []
  ∧ ∃ batch,
      Store.writes (w_store (snd (garbage_collect_artifacts
                                    [ex_internal; ex_external] w_present)))
      = [batch]
      ∧ batch !! 1%nat = Some (Artifact.set_state DELETED ex_external).
Proof.
  pose proof (external_artifact_no_storage (F:=SimFS) ex_external eq_refl)
    as (H1 & _ & H3).
  split.
  - by destruct (H1 w_present) as (_ & -> & _).
  - destruct (H3 [ex_internal; ex_external] w_present
                (snd (garbage_collect_artifacts [ex_internal; ex_external] w_present))
                1%nat) as (batch & Hw & Hb); [by vm_compute|done|].
    exists batch. by rewrite Hw.
Defined.

(** A batch with an artifact whose removal failed. *)
Lemma purge_changes_state_only_witness :
  ∃ batch,
    Store.writes (w_store (snd (garbage_collect_artifacts
                                  [ex_internal; ex_external] w_protected)))
    = [batch]
    ∧ Forall2 same_but_state [ex_internal; ex_external] batch.
Proof.
  destruct (purge_changes_state_only (F:=SimFS) [ex_internal; ex_external]
              w_protected (Ok tt)
              (snd (garbage_collect_artifacts [ex_internal; ex_external] w_protected)))
    as (_ & H); [done|by vm_compute|].
  destruct (H eq_refl) as (batch & Hw & _ & Hf & _).
  exists batch. by rewrite Hw.
Defined.

(** ** The in-use filter *)

Section in_use.
Context {F : Type}.
Implicit Types (w : World F) (s : Store.t) (a : Artifact.t) (e : Event.t).

Lemma policy_eval_subset (A : list Artifact.t) policy l D :
  _artifacts_to_garbage_collect_for_policy A policy = (l, Ok D) → D ⊆ A.
Proof.
  unfold _artifacts_to_garbage_collect_for_policy.
  destruct (GarbageCollectionPolicy.policy policy) as [n|gs|].
  - unfold llift, _artifacts_not_most_recently_published.
    repeat case_match; intros; simplify_eq; try done.
    + apply list_subseteq_nil.
    + apply list_subseteq_filter.
  - intros H. unfold _artifacts_not_kept_by_property_value_groups in H.
    apply lbind_inv_ok in H as (? & G & ? & _ & HD & _).
    unfold lret in HD. simplify_eq. apply list_subseteq_filter.
  - intros H. cbn in H. simplify_eq. apply list_subseteq_nil.
Qed.

(** The executions fetched by id are the store's. *)
Lemma execution_map_lookup (xs : list Execution.t) (m0 : gmap Z Execution.t) i x :
  foldl (λ m y, <[Execution.id y := y]> m) m0 xs !! i = Some x →
  (x ∈ xs ∧ Execution.id x = i) ∨ m0 !! i = Some x.
Proof.
  revert m0. induction xs as [|y xs IH]; intros m0 H; [by right|].
  simpl in H. apply IH in H as [[? ?]|H].
  - left. split; [by right|done].
  - apply lookup_insert_Some in H as [[<- <-]|[_ ?]]; [|by right].
    left. split; [by left|done].
Qed.

Lemma fetched_execution s ids xs x :
  Store.get_executions_by_id ids s = Ok xs → x ∈ xs →
  Store.executions s !! Execution.id x = Some (Execution.last_known_state x).
Proof.
  unfold Store.get_executions_by_id, Store.guard.
  destruct (Store.fault s GetExecutionsById); [done|]. intros [= <-].
  rewrite list_elem_of_omap. intros (i & _ & Hx).
  destruct (Store.executions s !! i) as [st|] eqn:Hi; by simplify_eq/=.
Qed.

Lemma in_use_loop_spec (evs : list Event.t) (m : gmap Z Execution.t)
    (acc S : gset Z) :
  in_use_loop evs m acc = Ok S →
  acc ⊆ S
  ∧ ∀ e, e ∈ evs →
         ∃ x, m !! Event.execution_id e = Some x
              ∧ (is_execution_active x = true → Event.artifact_id e ∈ S).
Proof.
  revert acc. induction evs as [|e evs IH]; intros acc H; simpl in H.
  - simplify_eq. split; [done|]. by intros e ?%elem_of_nil.
  - destruct (m !! Event.execution_id e) as [x|] eqn:Hx; [|done].
    apply IH in H as [Hsub Hevs]. split.
    + destruct (is_execution_active x); set_solver.
    + intros e' [->|He']%elem_of_cons; [|by apply Hevs].
      exists x. split; [done|]. intros Hact. rewrite Hact in Hsub. set_solver.
Qed.

(** What the in-use filter returns holds no artifact that an event of the
    list records as the input of an execution that is active in the store. *)
Lemma artifacts_not_in_use_spec (artifacts : list Artifact.t)
    (events : list Event.t) w res w' :
  _artifacts_not_in_use artifacts events w = (Ok res, w') →
  w' = w ∧ res ⊆ artifacts
  ∧ ∀ a e, a ∈ res → e ∈ events →
           Event.artifact_id e = Artifact.id a →
           is_valid_input_event e = true →
           Store.executions (w_store w) !! Event.execution_id e ≠ Some ACTIVE.
Proof.
  unfold _artifacts_not_in_use.
  set (ids := list_to_set (map Artifact.id artifacts) : gset Z).
  set (input_events := filter _ events).
  assert (∀ a e, a ∈ artifacts → e ∈ events →
            Event.artifact_id e = Artifact.id a →
            is_valid_input_event e = true → e ∈ input_events) as Hin.
  { intros a e Ha He Hid Hv. apply list_elem_of_filter. split; [|done].
    split; [|done]. rewrite Hid. unfold ids.
    apply elem_of_list_to_set. change (Artifact.id a ∈ Artifact.id <$> artifacts).
    apply list_elem_of_fmap. eauto. }
  destruct (map Event.execution_id input_events) as [|i0 ids'] eqn:Hids.
  - unfold ret. intros [= <- <-]. split_and!; [done..|].
    intros a e Ha He Hid Hv. specialize (Hin a e Ha He Hid Hv).
    apply (f_equal length) in Hids. rewrite length_map in Hids.
    destruct input_events; [by apply elem_of_nil in Hin|done].
  - rewrite <- Hids. clear Hids i0 ids'. intros H.
    apply bind_inv_ok in H as (xs & w1 & Hxs & H).
    unfold store_read in Hxs. injection Hxs as Hxs <-.
    apply bind_inv_ok in H as (S & w2 & HS & H).
    injection HS as HS <-. unfold ret in H. injection H as <- <-.
    apply in_use_loop_spec in HS as [_ HS].
    split_and!; [done|apply list_subseteq_filter|].
    intros a e Ha He Hid Hv Hact.
    apply list_elem_of_filter in Ha as [Hnot Ha].
    destruct (HS e (Hin a e Ha He Hid Hv)) as (x & Hx & Hx').
    apply execution_map_lookup in Hx as [[Hxin Hxid]|Hx];
      [|by rewrite lookup_empty in Hx].
    pose proof (fetched_execution _ _ _ _ Hxs Hxin) as Hst.
    rewrite Hxid, Hact in Hst. apply Hnot. rewrite <- Hid. apply Hx'.
    unfold is_execution_active. apply bool_decide_eq_true. congruence.
Qed.
End in_use.

(** ** Computations that only log *)

Section only_logs.
Context {F : Type}.
Implicit Types (w : World F).

Lemma add_logs_nil w : add_logs [] w = w.
Proof. destruct w. unfold add_logs. simpl. by rewrite app_nil_r. Qed.

Lemma add_logs_app l1 l2 w : add_logs l2 (add_logs l1 w) = add_logs (l1 ++ l2) w.
Proof. unfold add_logs. simpl. by rewrite (assoc (++)). Qed.

Lemma only_logs_ret {A} (x : A) : only_logs (ret (F:=F) x).
Proof. intros w r w' [= <- <-]. exists []. by rewrite add_logs_nil. Qed.

Lemma only_logs_raise {A} e : only_logs (raise (F:=F) (A:=A) e).
Proof. intros w r w' [= <- <-]. exists []. by rewrite add_logs_nil. Qed.

Lemma only_logs_log lvl msg : only_logs (log (F:=F) lvl msg).
Proof. intros w r w' [= <- <-]. eauto. Qed.

Lemma only_logs_lift {A} (m : Logged A) : only_logs (lift_logged (F:=F) m).
Proof. intros w r w' [= <- <-]. eauto. Qed.

Lemma only_logs_read {A} (q : Store.t → result A) : only_logs (store_read (F:=F) q).
Proof. intros w r w' [= <- <-]. exists []. by rewrite add_logs_nil. Qed.

Lemma only_logs_bind {A B} (m : M F A) (f : A → M F B) :
  only_logs m → (∀ x, only_logs (f x)) → only_logs (bind m f).
Proof.
  intros Hm Hf w r w' H. unfold bind in H.
  destruct (m w) as [[x|e] w1] eqn:Hmw.
  - apply Hm in Hmw as [l1 ->]. apply Hf in H as [l2 ->].
    rewrite add_logs_app. eauto.
  - simplify_eq. by eapply Hm.
Qed.

Lemma only_logs_not_in_use artifacts events :
  only_logs (_artifacts_not_in_use (F:=F) artifacts events).
Proof.
  unfold _artifacts_not_in_use.
  destruct (map Event.execution_id _); [apply only_logs_ret|].
  apply only_logs_bind; [apply only_logs_read|]. intros xs.
  apply only_logs_bind; [|intros; apply only_logs_ret].
  intros w r w' [= <- <-]. exists []. by rewrite add_logs_nil.
Qed.
End only_logs.

(** ** The candidates of a node *)

Section node_candidates.
Context {F : Type} `{!FileIO F} {ext : GarbageCollectionExtensions}.
Implicit Types (w : World F) (a : Artifact.t) (e : Event.t).

Lemma only_logs_to_garbage_collect artifacts events policy :
  only_logs (_artifacts_to_garbage_collect (F:=F) artifacts events policy).
Proof.
  unfold _artifacts_to_garbage_collect.
  apply only_logs_bind; [apply only_logs_lift|]. intros D1.
  apply only_logs_bind; [apply only_logs_read|]. intros D2.
  apply only_logs_bind; [apply only_logs_not_in_use|]. intros D3.
  apply only_logs_ret.
Qed.

Lemma only_logs_output_key_loop policies abk events acc :
  only_logs (output_key_loop (F:=F) policies abk events acc).
Proof.
  revert acc. induction policies as [|[key policy] policies IH]; intros acc.
  - apply only_logs_ret.
  - cbn [output_key_loop]. destruct (abk !! key); [|apply IH].
    apply only_logs_bind; [apply only_logs_to_garbage_collect|]. intros r.
    apply only_logs_bind; [apply only_logs_log|]. intros _. apply IH.
Qed.

Lemma only_logs_candidates node_uid node :
  only_logs (get_artifacts_to_garbage_collect_for_node (F:=F) node_uid node).
Proof.
  unfold get_artifacts_to_garbage_collect_for_node.
  apply only_logs_bind; [apply only_logs_log|]. intros _.
  case_decide; [apply only_logs_ret|].
  apply only_logs_bind.
  { unfold _get_live_output_artifacts_for_node.
    apply only_logs_bind; [apply only_logs_read|]. intros. apply only_logs_ret. }
  intros abk. case_decide; [apply only_logs_ret|].
  apply only_logs_bind; [apply only_logs_log|]. intros _.
  apply only_logs_bind; [apply only_logs_read|]. intros events.
  apply only_logs_output_key_loop.
Qed.

(** The candidates of one output key. *)
Lemma artifacts_to_garbage_collect_spec artifacts events policy w res w' :
  _artifacts_to_garbage_collect artifacts events policy w = (Ok res, w') →
  (∀ a e, a ∈ res → e ∈ events →
          Event.artifact_id e = Artifact.id a →
          is_valid_input_event e = true →
          Store.executions (w_store w) !! Event.execution_id e ≠ Some ACTIVE)
  ∧ (extension_shrinks ext → res ⊆ artifacts).
Proof.
  unfold _artifacts_to_garbage_collect. intros H.
  apply bind_inv_ok in H as (D1 & w1 & H1 & H).
  apply bind_inv_ok in H as (D2 & w2 & H2 & H).
  apply bind_inv_ok in H as (D3 & w3 & H3 & H).
  unfold ret in H. injection H as <- <-.
  unfold lift_logged in H1.
  destruct (_artifacts_to_garbage_collect_for_policy artifacts policy)
    as [l1 r1] eqn:Hpol.
  injection H1 as -> <-. injection H2 as H2 <-.
  apply artifacts_not_in_use_spec in H3 as (-> & Hsub & Hsafe). split.
  - exact Hsafe.
  - intros Hext. etrans; [exact Hsub|]. etrans; [by eapply Hext|].
    by eapply policy_eval_subset.
Qed.
End node_candidates.

Section node_safety.
Context {F : Type} `{!FileIO F} {ext : GarbageCollectionExtensions}.
Implicit Types (w : World F) (a : Artifact.t) (e : Event.t).

Lemma w_store_add_logs l w : w_store (add_logs l w) = w_store w.
Proof. done. Qed.

Lemma output_key_loop_safe (P : Artifact.t → Prop) policies abk events acc
    w res w' :
  output_key_loop policies abk events acc w = (Ok res, w') →
  (∀ a, a ∈ acc → P a) →
  (∀ key arts policy w0 r w1,
     abk !! key = Some arts → w_store w0 = w_store w →
     _artifacts_to_garbage_collect arts events policy w0 = (Ok r, w1) →
     ∀ a, a ∈ r → P a) →
  ∀ a, a ∈ res → P a.
Proof.
  revert acc w. induction policies as [|[key policy] policies IH];
    intros acc w H Hacc Hstep.
  - cbn in H. unfold ret in H. by simplify_eq.
  - cbn [output_key_loop] in H.
    destruct (abk !! key) as [arts|] eqn:Hkey; [|by eapply IH].
    apply bind_inv_ok in H as (r & w1 & Hr & H).
    apply bind_inv_ok in H as ([] & w2 & Hlog & H).
    injection Hlog as <-.
    destruct (only_logs_to_garbage_collect _ _ _ _ _ _ Hr) as [l1 ->].
    eapply IH; [exact H| |].
    + intros a [Ha|Ha]%elem_of_app; [by apply Hacc|].
      by eapply (Hstep key arts policy w).
    + intros key' arts' policy' w0 r' w1' Hk Hs. eapply Hstep; [done|].
      by rewrite Hs.
Qed.

(** C1: no artifact consumed as an input by an execution in an active state
    is in the delete set.  For one output key: whatever the policy and the
    extension selected, no returned artifact is the artifact of an input
    event of the given events whose execution is active in the store.  For
    the node (the extension honouring its contract of only shrinking the
    candidates): no returned artifact is the artifact of an input event of
    the store whose execution is active. *)
Theorem in_use_artifacts_are_kept :
  (∀ artifacts events policy w res w',
     _artifacts_to_garbage_collect artifacts events policy w = (Ok res, w') →
     ∀ a e, a ∈ res → e ∈ events →
            Event.artifact_id e = Artifact.id a →
            is_valid_input_event e = true →
            Store.executions (w_store w) !! Event.execution_id e ≠ Some ACTIVE)
  ∧ (extension_shrinks ext →
     ∀ node_uid node w res w',
       get_artifacts_to_garbage_collect_for_node node_uid node w = (Ok res, w') →
       ∀ a e, a ∈ res → e ∈ Store.events (w_store w) →
              Event.artifact_id e = Artifact.id a →
              is_valid_input_event e = true →
              Store.executions (w_store w) !! Event.execution_id e ≠ Some ACTIVE).
Proof.
  split.
  { intros artifacts events policy w res w' H.
    by apply artifacts_to_garbage_collect_spec in H as [H _]. }
  intros Hext node_uid node w res w' H.
  unfold get_artifacts_to_garbage_collect_for_node in H.
  apply bind_inv_ok in H as ([] & w0 & Hlog & H). injection Hlog as <-.
  case_decide.
  { unfold ret in H. simplify_eq. by intros a e ?%elem_of_nil. }
  apply bind_inv_ok in H as (abk & w1 & Habk & H).
  destruct (only_logs_bind _ _ (only_logs_read _)
              (λ x, only_logs_ret _) _ _ _ Habk) as [l1 ->].
  case_decide.
  { unfold ret in H. simplify_eq. by intros a e ?%elem_of_nil. }
  apply bind_inv_ok in H as ([] & w2 & Hlog & H). injection Hlog as <-.
  apply bind_inv_ok in H as (events & w3 & Hev & H).
  injection Hev as Hev <-. rewrite !add_logs_app in *.
  unfold Store.get_events_by_artifact_ids, Store.guard in Hev.
  destruct (Store.fault _ GetEventsByArtifactIds); [done|].
  injection Hev as <-.
  set (P := λ a, ∀ e, e ∈ Store.events (w_store w) →
                      Event.artifact_id e = Artifact.id a →
                      is_valid_input_event e = true →
                      Store.executions (w_store w) !! Event.execution_id e
                      ≠ Some ACTIVE).
  intros a e Ha. revert e. change (P a). revert a Ha.
  eapply output_key_loop_safe; [exact H|by intros a ?%elem_of_nil|].
  intros key arts policy w0 r w1 Hkey Hs Hr a Ha e He Hid Hv.
  apply artifacts_to_garbage_collect_spec in Hr as [Hsafe Hsub].
  rewrite Hs, w_store_add_logs in Hsafe. apply (Hsafe a e Ha); [|done..].
  apply list_elem_of_filter. split; [|done]. rewrite Hid.
  apply elem_of_list_to_set.
  change (Artifact.id a ∈ Artifact.id <$> concat (map snd (map_to_list abk))).
  apply list_elem_of_fmap. exists a. split; [done|].
  apply elem_of_concat. exists arts. split; [|by apply Hsub].
  change (arts ∈ snd <$> map_to_list abk).
  apply list_elem_of_fmap. exists (key, arts). split; [done|].
  by apply elem_of_map_to_list.
Qed.
End node_safety.

Lemma no_extension_shrinks : extension_shrinks no_extension.
Proof. intros s cfg l l' [= <-]. done. Qed.

(** Of the two artifacts the policy selects, the one read by the active
    execution is held back; the event on the other names a finished
    execution. *)
Lemma in_use_artifacts_are_kept_witness :
  fst (get_artifacts_to_garbage_collect_for_node (ext:=no_extension)
         ex_uid ex_node w_in_use) = Ok [a_mid]
  ∧ Store.executions (w_store w_in_use) !! 101 ≠ Some ACTIVE.
Proof.
  split; [by vm_compute|].
  apply (proj2 (in_use_artifacts_are_kept (F:=SimFS) (ext:=no_extension))
           no_extension_shrinks ex_uid ex_node w_in_use [a_mid]
           (snd (get_artifacts_to_garbage_collect_for_node (ext:=no_extension)
                   ex_uid ex_node w_in_use))
           ltac:(by vm_compute) a_mid (Event.mk 2 101 INPUT)).
  - by left.
  - right. by left.
  - done.
  - done.
Defined.

(** ** The node boundary *)

Section node_boundary.
Context {F : Type} `{!FileIO F} {ext : GarbageCollectionExtensions}.
Implicit Types (w : World F).

(** C2: the node-level entry point raises to its caller in exactly one
    case, the mismatch between the node id of the caller's node uid and the
    node's own id (a ValueError, raised before anything else is done).
    Otherwise it returns normally: when the pass raises any exception
    (configuration, consistency, store or filesystem error) it is caught and
    an exception record is logged. *)
Theorem node_errors_are_contained node_uid node w :
  (Node.node_info_id node ≠ NodeUid.node_id node_uid →
   run_garbage_collection_for_node node_uid node w
   = (Raise (ValueError "Node uids do not match for garbage collection"),
      add_logs [(INFO, "Garbage collection requested for node %s")] w))
  ∧ (Node.node_info_id node = NodeUid.node_id node_uid →
     fst (run_garbage_collection_for_node node_uid node w) = Ok tt
     ∧ ∀ e w1,
         node_pass node_uid node
           (add_logs [(INFO, "Garbage collection requested for node %s")] w)
         = (Raise e, w1) →
         run_garbage_collection_for_node node_uid node w
         = (Ok tt,
            add_logs [(EXCEPTION, "Garbage collection for node %s failed")] w1)).
Proof.
  unfold run_garbage_collection_for_node.
  rewrite (bind_ok _ _ w tt
             (add_logs [(INFO, "Garbage collection requested for node %s")] w))
    by done.
  split.
  - intros Hne. by rewrite decide_True.
  - intros Heq. rewrite decide_False by (intros Hne; by apply Hne).
    fold (node_pass node_uid node). unfold try_except. split.
    + by destruct (node_pass node_uid node _) as [[[]|e] w1].
    + by intros e w1 ->.
Qed.
End node_boundary.

(** A mismatching node uid raises; a store that is down does not. *)
Lemma node_errors_are_contained_witness :
  fst (run_garbage_collection_for_node (ext:=no_extension)
         (NodeUid.mk "pipeline" "evaluator") ex_node w_in_use)
  = Raise (ValueError "Node uids do not match for garbage collection")
  ∧ fst (run_garbage_collection_for_node (ext:=no_extension)
           ex_uid ex_node w_store_down) = Ok tt
  ∧ w_log (snd (run_garbage_collection_for_node (ext:=no_extension)
                  ex_uid ex_node w_store_down))
    = [(INFO, "Garbage collection requested for node %s");
       (INFO, "Garbage collection policies for node %s: %s");
       (EXCEPTION, "Garbage collection for node %s failed")].
Proof.
  split_and!.
  - by rewrite (proj1 (node_errors_are_contained (F:=SimFS) (ext:=no_extension)
                         (NodeUid.mk "pipeline" "evaluator") ex_node w_in_use)).
  - by apply (proj2 (node_errors_are_contained (F:=SimFS) (ext:=no_extension)
                       ex_uid ex_node w_store_down)).
  - destruct (proj2 (node_errors_are_contained (F:=SimFS) (ext:=no_extension)
                       ex_uid ex_node w_store_down) eq_refl) as [_ H].
    by rewrite (H (StoreError "unavailable")
                  (snd (node_pass (ext:=no_extension) ex_uid ex_node
                          (add_logs [(INFO, "Garbage collection requested for node %s")]
                             w_store_down)))
                  ltac:(by vm_compute)).
Defined.

(** ** Invalid policy configurations *)

Section invalid_configuration.
Context {F : Type} `{!FileIO F} {ext : GarbageCollectionExtensions}.
Implicit Types (w : World F) (A : list Artifact.t).

Lemma policy_unset_eval A cfg :
  _artifacts_to_garbage_collect_for_policy A
    (GarbageCollectionPolicy.mk policy_not_set cfg)
  = ([(ERROR, "Skipped garbage collection due to unknown policy: %s")], Ok []).
Proof. done. Qed.

Lemma nothing_in_use_of_nothing (events : list Event.t) w :
  _artifacts_not_in_use (F:=F) [] events w = (Ok [], w).
Proof.
  unfold _artifacts_not_in_use. rewrite filter_none; [done|].
  apply Forall_forall. intros e _ [Hin _]. simpl in Hin. set_solver.
Qed.

(** The iteration of an output key without a policy variant adds nothing
    and goes on with the remaining keys. *)
Lemma output_key_loop_unset key cfg rest abk events acc arts w :
  abk !! key = Some arts →
  artifacts_not_in_use_in_pipeline_groups (w_store w) cfg [] = Ok [] →
  output_key_loop ((key, GarbageCollectionPolicy.mk policy_not_set cfg) :: rest)
    abk events acc w
  = output_key_loop rest abk events acc
      (add_logs [(ERROR, "Skipped garbage collection due to unknown policy: %s");
                 (INFO, "Artifacts to garbage collect for output key %s: %s")] w).
Proof.
  intros Hkey Hext. cbn [output_key_loop]. rewrite Hkey.
  erewrite bind_ok; last first.
  { unfold _artifacts_to_garbage_collect. rewrite policy_unset_eval.
    erewrite bind_ok; [|done]. simpl.
    erewrite bind_ok; [|by unfold store_read; simpl; rewrite Hext].
    erewrite bind_ok; [|apply nothing_in_use_of_nothing]. done. }
  erewrite bind_ok; [|done]. by rewrite app_nil_r, add_logs_app.
Qed.

(** Values of two types under the property of the first grouping. *)
Lemma kpvg_mixed_types A gr gs a b va vb :
  a ∈ A → b ∈ A →
  _get_property_value a (Grouping.property_name gr) = Some va →
  _get_property_value b (Grouping.property_name gr) = Some vb →
  type_of va ≠ type_of vb →
  _artifacts_not_kept_by_property_value_groups A (gr :: gs)
  = ([], Raise (ValueError "Properties from the same group should have a homogenous type except NoneType.")).
Proof.
  intros Ha Hb Hva Hvb Hne.
  unfold _artifacts_not_kept_by_property_value_groups.
  cbn [grouping_loop group_loop].
  destruct (partition_group (Grouping.property_name gr) A None [])
    as [[ty' d]|e] eqn:Hpart.
  - apply partition_group_inv in Hpart as [_ Hty]. destruct ty' as [t'|].
    + destruct Hty as [_ Ht]. destruct Hne.
      by rewrite (Ht a va), (Ht b vb).
    + destruct Hty as [_ Hn]. by rewrite (Hn a Ha) in Hva.
  - by rewrite (partition_group_raise _ _ _ _ _ Hpart).
Qed.

(** An unknown keep_order on a first grouping that keeps a positive number
    of values. *)
Lemma kpvg_unknown_order A gr gs t wire :
  0 < Grouping.keep_num gr →
  Grouping.keep_order gr = KEEP_ORDER_UNRECOGNIZED wire →
  typed (Grouping.property_name gr) t A →
  _artifacts_not_kept_by_property_value_groups A (gr :: gs)
  = ([(ERROR, "Unknown keep_order in grouping")],
     Raise (ValueError "Unknown keep_order in grouping")).
Proof.
  intros Hk Hord Ht.
  unfold _artifacts_not_kept_by_property_value_groups.
  cbn [grouping_loop group_loop].
  destruct (partition_group_typed gr t A None []) as (ty' & -> & _);
    [done|by left|].
  unfold llift. rewrite lbind_ret, groups_to_keep_bad; [done|].
  unfold order_ok. rewrite Hord. lia.
Qed.

(** An output key whose policy evaluation raises makes the loop raise. *)
Lemma output_key_loop_raises policies abk events key policy arts e :
  (key, policy) ∈ policies → abk !! key = Some arts →
  snd (_artifacts_to_garbage_collect_for_policy arts policy) = Raise e →
  ∀ acc w, ∃ e' w', output_key_loop policies abk events acc w = (Raise e', w').
Proof.
  intros Hin Hkey Hraise.
  induction policies as [|[key' policy'] policies IH]; intros acc w;
    [by apply elem_of_nil in Hin|].
  cbn [output_key_loop]. apply elem_of_cons in Hin as [[= <- <-]|Hin].
  - rewrite Hkey. unfold _artifacts_to_garbage_collect.
    erewrite bind_raise; [eauto|].
    erewrite bind_raise; [done|]. unfold lift_logged. by rewrite Hraise.
  - destruct (abk !! key'); [|by apply IH].
    unfold bind at 1.
    destruct (_artifacts_to_garbage_collect _ events policy' w) as [[r|e'] w1];
      [|eauto].
    erewrite bind_ok; [|done]. by apply IH.
Qed.

Lemma candidates_raise node_uid node w key policy nested e :
  _get_garbage_collection_policies_for_node node !! key = Some policy →
  Store.live_outputs (w_store w) (NodeUid.pipeline_id node_uid)
    (NodeUid.node_id node_uid) !! key = Some nested →
  snd (_artifacts_to_garbage_collect_for_policy (concat nested) policy) = Raise e →
  ∃ e' l, get_artifacts_to_garbage_collect_for_node node_uid node w
          = (Raise e', add_logs l w).
Proof.
  intros Hpol Hlive Hraise.
  destruct (get_artifacts_to_garbage_collect_for_node node_uid node w)
    as [[res|e'] w'] eqn:H.
  2:{ destruct (only_logs_candidates _ _ _ _ _ H) as [l ->]. eauto. }
  exfalso. unfold get_artifacts_to_garbage_collect_for_node in H.
  apply bind_inv_ok in H as ([] & w0 & Hlog & H). injection Hlog as <-.
  case_decide as Hne; [by rewrite Hne, lookup_empty in Hpol|].
  apply bind_inv_ok in H as (abk & w1 & Habk & H).
  unfold _get_live_output_artifacts_for_node in Habk.
  apply bind_inv_ok in Habk as (live & w1' & Hq & Habk).
  unfold ret in Habk. injection Habk as <- <-.
  unfold store_read, Store.get_live_output_artifacts_of_node_by_output_key,
    Store.guard in Hq. simpl in Hq.
  destruct (Store.fault _ GetLiveOutputArtifacts); [done|].
  injection Hq as <- <-.
  assert ((@concat Artifact.t
             <$> Store.live_outputs (w_store w) (NodeUid.pipeline_id node_uid)
                   (NodeUid.node_id node_uid)) !! key = Some (concat nested))
    as Hkey by (by rewrite lookup_fmap, Hlive).
  case_decide as Hne'; [by rewrite Hne', lookup_empty in Hkey|].
  apply bind_inv_ok in H as ([] & w2 & Hlog & H). injection Hlog as <-.
  apply bind_inv_ok in H as (events & w3 & Hev & H).
  destruct (output_key_loop_raises
              (map_to_list (_get_garbage_collection_policies_for_node node))
              _ events key policy (concat nested) e
              ltac:(by apply elem_of_map_to_list) Hkey Hraise [] w3)
    as (e' & w4 & Hloop).
  by rewrite Hloop in H.
Qed.
End invalid_configuration.

Section invalid_configuration_claims.
Context {F : Type} `{!FileIO F} {ext : GarbageCollectionExtensions}.
Implicit Types (w : World F) (A : list Artifact.t).

(** C6 (amended): an output key whose policy has no variant set yields no
    candidates, an error is logged, and (the extension returning normally on
    the empty list) the loop goes on with the remaining output keys.  An
    output key whose KeepPropertyValueGroups evaluation raises, as it does
    for values of two types under the property of a grouping and for an
    unknown keep_order on a grouping with keep_num > 0, makes the candidate
    computation of the whole node raise: run_garbage_collection_for_node
    catches the exception, logs it and returns normally, and the pass changes
    nothing but the log, for any output key of the node. *)
Theorem invalid_configuration_contained :
  (∀ A cfg,
     _artifacts_to_garbage_collect_for_policy A
       (GarbageCollectionPolicy.mk policy_not_set cfg)
     = ([(ERROR, "Skipped garbage collection due to unknown policy: %s")], Ok []))
  ∧ (∀ key cfg rest abk events acc arts w,
       abk !! key = Some arts →
       artifacts_not_in_use_in_pipeline_groups (w_store w) cfg [] = Ok [] →
       output_key_loop ((key, GarbageCollectionPolicy.mk policy_not_set cfg) :: rest)
         abk events acc w
       = output_key_loop rest abk events acc
           (add_logs
              [(ERROR, "Skipped garbage collection due to unknown policy: %s");
               (INFO, "Artifacts to garbage collect for output key %s: %s")] w))
  ∧ (∀ A gr gs cfg a b va vb,
       a ∈ A → b ∈ A →
       _get_property_value a (Grouping.property_name gr) = Some va →
       _get_property_value b (Grouping.property_name gr) = Some vb →
       type_of va ≠ type_of vb →
       _artifacts_to_garbage_collect_for_policy A (kpvg (gr :: gs) cfg)
       = ([], Raise (ValueError "Properties from the same group should have a homogenous type except NoneType.")))
  ∧ (∀ A gr gs cfg t wire,
       0 < Grouping.keep_num gr →
       Grouping.keep_order gr = KEEP_ORDER_UNRECOGNIZED wire →
       typed (Grouping.property_name gr) t A →
       _artifacts_to_garbage_collect_for_policy A (kpvg (gr :: gs) cfg)
       = ([(ERROR, "Unknown keep_order in grouping")],
          Raise (ValueError "Unknown keep_order in grouping")))
  ∧ (∀ node_uid node w key policy nested e,
       _get_garbage_collection_policies_for_node node !! key = Some policy →
       Store.live_outputs (w_store w) (NodeUid.pipeline_id node_uid)
         (NodeUid.node_id node_uid) !! key = Some nested →
       snd (_artifacts_to_garbage_collect_for_policy (concat nested) policy)
       = Raise e →
       (∃ e' l, get_artifacts_to_garbage_collect_for_node node_uid node w
                = (Raise e', add_logs l w))
       ∧ (Node.node_info_id node = NodeUid.node_id node_uid →
          ∃ l, run_garbage_collection_for_node node_uid node w
               = (Ok tt,
                  add_logs
                    (l ++ [(EXCEPTION, "Garbage collection for node %s failed")])
                    w))).
Proof.
  split_and!.
  - apply policy_unset_eval.
  - apply output_key_loop_unset.
  - intros A gr gs cfg a b va vb Ha Hb Hva Hvb Hne.
    unfold _artifacts_to_garbage_collect_for_policy, kpvg. simpl.
    exact (kpvg_mixed_types A gr gs a b va vb Ha Hb Hva Hvb Hne).
  - intros A gr gs cfg t wire Hk Hord Ht.
    unfold _artifacts_to_garbage_collect_for_policy, kpvg. simpl.
    exact (kpvg_unknown_order A gr gs t wire Hk Hord Ht).
  - intros node_uid node w key policy nested e Hpol Hlive Hraise. split.
    + by eapply candidates_raise.
    + intros Heq.
      destruct (candidates_raise node_uid node
                  (add_logs [(INFO, "Garbage collection requested for node %s")] w)
                  key policy nested e Hpol Hlive Hraise) as (e' & l & Hc).
      exists ([(INFO, "Garbage collection requested for node %s")] ++ l).
      unfold run_garbage_collection_for_node.
      erewrite bind_ok; [|done].
      rewrite decide_False by (intros Hne; by apply Hne).
      unfold try_except. erewrite bind_raise; [|exact Hc].
      unfold log. by rewrite !add_logs_app.
Qed.
End invalid_configuration_claims.

(** C6 (as stated): an output key with an invalid configuration would
    contribute nothing while the other output keys are evaluated as usual, so
    that the candidates of the node are those of the node without that key.
    It fails on a node whose output "examples" holds spans of two types: the
    candidate computation raises, although without that output it returns the
    old artifact of "model". *)
Lemma invalid_key_aborts_node :
  ¬ (∀ (node : Node.t) (w : World SimFS) key policy nested l e,
       Node.outputs node !! key = Some (OutputSpec.mk (Some policy)) →
       Store.live_outputs (w_store w) (NodeUid.pipeline_id ex_uid)
         (NodeUid.node_id ex_uid) !! key = Some nested →
       _artifacts_to_garbage_collect_for_policy (concat nested) policy
       = (l, Raise e) →
       fst (get_artifacts_to_garbage_collect_for_node (ext:=no_extension)
              ex_uid node w)
       = fst (get_artifacts_to_garbage_collect_for_node (ext:=no_extension)
                ex_uid (without_output key node) w)).
Proof.
  intros H.
  specialize (H node_mixed w_mixed "examples"
                (kpvg [Grouping.mk "span" 1 KEEP_ORDER_LARGEST] [])
                [[x_int; x_str]] []
                (ValueError "Properties from the same group should have a homogenous type except NoneType.")).
  ospecialize (H _ _ _); [by vm_compute..|].
  vm_compute in H. discriminate H.
Qed.

(** The node with the mixed spans, run as a whole: the pass fails and writes
    nothing; without the output "examples" the old artifact of "model" is
    purged. *)
Example mixed_node_outcomes :
  fst (get_artifacts_to_garbage_collect_for_node (ext:=no_extension)
         ex_uid node_mixed w_mixed)
  = Raise (ValueError "Properties from the same group should have a homogenous type except NoneType.")
  ∧ fst (get_artifacts_to_garbage_collect_for_node (ext:=no_extension)
           ex_uid (without_output "examples" node_mixed) w_mixed)
    = Ok [a_old]
  ∧ Store.writes (w_store (snd (run_garbage_collection_for_node (ext:=no_extension)
                                  ex_uid node_mixed w_mixed))) = []
  ∧ Store.writes (w_store (snd (run_garbage_collection_for_node (ext:=no_extension)
                                  ex_uid (without_output "examples" node_mixed)
                                  w_mixed)))
    = [[Artifact.set_state DELETED a_old]].
Proof. by vm_compute. Qed.

(** The containment at the node with the mixed spans. *)
Lemma invalid_configuration_contained_witness :
  (∃ e' l, get_artifacts_to_garbage_collect_for_node (ext:=no_extension)
             ex_uid node_mixed w_mixed = (Raise e', add_logs l w_mixed))
  ∧ ∃ l, run_garbage_collection_for_node (ext:=no_extension)
           ex_uid node_mixed w_mixed
         = (Ok tt,
            add_logs (l ++ [(EXCEPTION, "Garbage collection for node %s failed")])
              w_mixed).
Proof.
  destruct (proj2 (proj2 (proj2 (proj2
              (invalid_configuration_contained (F:=SimFS) (ext:=no_extension)))))
              ex_uid node_mixed w_mixed "examples"
              (kpvg [Grouping.mk "span" 1 KEEP_ORDER_LARGEST] [])
              [[x_int; x_str]]
              (ValueError "Properties from the same group should have a homogenous type except NoneType."))
    as [H1 H2]; [by vm_compute..|].
  split; [exact H1|]. by apply H2.
Defined.


(** * Further properties of the module *)

(** ** The in-use filter, in full *)

Section in_use_exact.
Context {F : Type}.
Implicit Types (w : World F) (s : Store.t) (a : Artifact.t).

Lemma execution_map_present (xs : list Execution.t) (m0 : gmap Z Execution.t) x :
  x ∈ xs → (∀ y, y ∈ xs → Execution.id y = Execution.id x → y = x) →
  foldl (λ m y, <[Execution.id y := y]> m) m0 xs !! Execution.id x = Some x.
Proof.
  induction xs as [|y xs IH] using rev_ind; [by intros ?%elem_of_nil|].
  intros Hx Hfun. rewrite foldl_app. simpl.
  destruct (decide (Execution.id y = Execution.id x)) as [Heq|Hne].
  - rewrite (Hfun y) by (done || set_solver). apply lookup_insert_eq.
  - rewrite lookup_insert_ne by done. apply IH; [|intros; apply Hfun; set_solver].
    apply elem_of_app in Hx as [?|Hx]; [done|].
    apply list_elem_of_singleton in Hx. by subst.
Qed.

(** The dictionary built from the fetched executions answers like the
    store, on the ids asked for. *)
Lemma fetched_map_lookup s ids xs i :
  Store.get_executions_by_id ids s = Ok xs → i ∈ ids →
  foldl (λ m y, <[Execution.id y := y]> m) (∅ : gmap Z Execution.t) xs !! i
  = Execution.mk i <$> Store.executions s !! i.
Proof.
  unfold Store.get_executions_by_id, Store.guard.
  destruct (Store.fault s GetExecutionsById); [done|]. intros [= <-] Hi.
  set (xs := omap _ _).
  assert (∀ y, y ∈ xs ↔ ∃ j st, j ∈ ids ∧ Store.executions s !! j = Some st
                                 ∧ y = Execution.mk j st) as Hxs.
  { intros y. unfold xs. rewrite list_elem_of_omap. split.
    - intros (j & Hj & Hy). rewrite elem_of_remove_dups in Hj.
      destruct (Store.executions s !! j) as [st|] eqn:Hst; [|done].
      simpl in Hy. simplify_eq. eauto.
    - intros (j & st & Hj & Hst & ->). exists j.
      split; [by apply elem_of_remove_dups|]. by rewrite Hst. }
  destruct (Store.executions s !! i) as [st|] eqn:Hst; simpl.
  - apply (execution_map_present xs ∅ (Execution.mk i st)).
    + apply Hxs. eauto.
    + intros y (j & st' & _ & Hst' & ->)%Hxs Hid. simpl in Hid. subst j.
      congruence.
  - destruct (foldl _ ∅ xs !! i) as [x|] eqn:Hx; [|done].
    apply execution_map_lookup in Hx as [[Hin Hid]|Hx];
      [|by rewrite lookup_empty in Hx].
    apply Hxs in Hin as (j & st' & _ & Hst' & ->). simpl in Hid. subst j.
    congruence.
Qed.

Lemma in_use_loop_ok (evs : list Event.t) (m : gmap Z Execution.t) (acc : gset Z) :
  (∀ e, e ∈ evs → is_Some (m !! Event.execution_id e)) →
  ∃ S, in_use_loop evs m acc = Ok S
       ∧ ∀ i, i ∈ S ↔
              i ∈ acc
              ∨ ∃ e x, e ∈ evs ∧ Event.artifact_id e = i
                       ∧ m !! Event.execution_id e = Some x
                       ∧ is_execution_active x = true.
Proof.
  revert acc. induction evs as [|e evs IH]; intros acc Hall; simpl.
  - exists acc. split; [done|]. intros i. split; [auto|].
    intros [?|(e & x & ?%elem_of_nil & _)]; done.
  - destruct (Hall e ltac:(left)) as [x Hx]. rewrite Hx.
    destruct (IH (if is_execution_active x
                  then {[Event.artifact_id e]} ∪ acc else acc)) as (S & -> & HS).
    { intros e' He'. apply Hall. by right. }
    exists S. split; [done|]. intros i. rewrite HS. split.
    + intros [Hi|(e' & x' & He' & Hrest)].
      * destruct (is_execution_active x) eqn:Hact; [|by left].
        apply elem_of_union in Hi as [Hi|Hi]; [|by left].
        apply elem_of_singleton in Hi. right. exists e, x.
        split_and!; [by left|done..].
      * right. exists e', x'. split; [by right|done].
    + intros [Hi|(e' & x' & [->|He']%elem_of_cons & Hid & Hx' & Hact)].
      * left. destruct (is_execution_active x); set_solver.
      * left. rewrite Hx in Hx'. injection Hx' as ->. rewrite Hact. set_solver.
      * right. eauto 6.
Qed.

Lemma in_use_loop_missing (evs : list Event.t) (m : gmap Z Execution.t)
    (acc : gset Z) e :
  e ∈ evs → m !! Event.execution_id e = None →
  in_use_loop evs m acc = Raise (RuntimeError "Could not find execution with id: %d").
Proof.
  revert acc. induction evs as [|e' evs IH]; intros acc He Hm;
    [by apply elem_of_nil in He|].
  simpl. apply elem_of_cons in He as [<-|He]; [by rewrite Hm|].
  destruct (m !! Event.execution_id e'); [by apply IH|done].
Qed.

Lemma relevant_event_filter (artifacts : list Artifact.t) (events : list Event.t) e :
  e ∈ filter (λ e, Event.artifact_id e
                   ∈ (list_to_set (map Artifact.id artifacts) : gset Z)
                   ∧ is_valid_input_event e = true) events
  ↔ e ∈ events ∧ relevant_event artifacts e.
Proof.
  rewrite list_elem_of_filter, elem_of_list_to_set. unfold relevant_event.
  change (map Artifact.id artifacts) with (Artifact.id <$> artifacts). tauto.
Qed.
End in_use_exact.

Section in_use_claims.
Context {F : Type}.
Implicit Types (w : World F) (s : Store.t) (a : Artifact.t).

Lemma in_use_set_spec (artifacts : list Artifact.t) (events : list Event.t) s
    (m : gmap Z Execution.t) (S : gset Z) a :
  (∀ e, e ∈ events → relevant_event artifacts e →
        m !! Event.execution_id e
        = Execution.mk (Event.execution_id e)
            <$> Store.executions s !! Event.execution_id e) →
  (∀ i, i ∈ S ↔
        ∃ e x, (e ∈ events ∧ relevant_event artifacts e)
               ∧ Event.artifact_id e = i
               ∧ m !! Event.execution_id e = Some x
               ∧ is_execution_active x = true) →
  a ∈ artifacts →
  Artifact.id a ∉ S ↔ ¬ in_use s events a.
Proof.
  intros Hm HS Ha. apply not_iff_compat. rewrite HS. unfold in_use.
  rewrite Exists_exists. split.
  - intros (e & x & [He Hrel] & Hid & Hx & Hact). exists e.
    split; [done|]. split_and!; [done|apply Hrel|].
    rewrite (Hm e He Hrel) in Hx.
    destruct (Store.executions s !! Event.execution_id e) as [st|]; [|done].
    simpl in Hx. simplify_eq. unfold is_execution_active in Hact. simpl in Hact.
    apply bool_decide_eq_true in Hact. by rewrite Hact.
  - intros (e & He & Hid & Hv & Hact).
    assert (relevant_event artifacts e) as Hrel.
    { split; [|done]. rewrite Hid. apply list_elem_of_fmap. eauto. }
    exists e, (Execution.mk (Event.execution_id e) ACTIVE).
    split_and!; [done..| |done]. by rewrite (Hm e He Hrel), Hact.
Qed.

(** The in-use filter on a store that answers. *)
Lemma artifacts_not_in_use_exact (artifacts : list Artifact.t)
    (events : list Event.t) w :
  Store.fault (w_store w) GetExecutionsById = None →
  (∀ e, e ∈ events → relevant_event artifacts e →
        is_Some (Store.executions (w_store w) !! Event.execution_id e)) →
  _artifacts_not_in_use artifacts events w
  = (Ok (filter (λ a, ¬ in_use (w_store w) events a) artifacts), w).
Proof.
  intros Hfault Hall. unfold _artifacts_not_in_use.
  set (input_events := filter _ events).
  assert (∀ e, e ∈ input_events ↔ e ∈ events ∧ relevant_event artifacts e)
    as Hin by apply relevant_event_filter.
  destruct (map Event.execution_id input_events) as [|i0 ids'] eqn:Hids.
  - unfold ret. f_equal. f_equal. symmetry. apply filter_all, Forall_forall.
    intros a Ha (e & He & Hid & Hv & _)%Exists_exists.
    assert (e ∈ input_events) as Hine.
    { apply Hin. split; [done|]. split; [|done]. rewrite Hid.
      apply list_elem_of_fmap. eauto. }
    apply (f_equal length) in Hids. rewrite length_map in Hids.
    destruct input_events; [by apply elem_of_nil in Hine|done].
  - rewrite <- Hids. clear Hids i0 ids'.
    destruct (Store.get_executions_by_id (map Event.execution_id input_events)
                (w_store w)) as [xs|e0] eqn:Hxs.
    2:{ unfold Store.get_executions_by_id, Store.guard in Hxs.
        by rewrite Hfault in Hxs. }
    erewrite bind_ok; [|by unfold store_read; rewrite Hxs].
    set (m := foldl _ ∅ xs).
    assert (∀ e, e ∈ events → relevant_event artifacts e →
                 m !! Event.execution_id e
                 = Execution.mk (Event.execution_id e)
                     <$> Store.executions (w_store w) !! Event.execution_id e)
      as Hm.
    { intros e He Hrel. eapply fetched_map_lookup; [exact Hxs|].
      change (Event.execution_id e ∈ Event.execution_id <$> input_events).
      apply list_elem_of_fmap. exists e. split; [done|]. by apply Hin. }
    destruct (in_use_loop_ok input_events m ∅) as (S & HS & HSmem).
    { intros e [He Hrel]%Hin. rewrite (Hm e He Hrel).
      by apply fmap_is_Some, Hall. }
    erewrite bind_ok; [|by unfold lift_result; rewrite HS].
    unfold ret. do 2 f_equal. apply filter_ext_in. intros a Ha.
    apply (in_use_set_spec artifacts events (w_store w) m S a Hm); [|done].
    intros i. rewrite HSmem. split.
    + intros [?%elem_of_empty|(e & x & He%Hin & Hrest)]; [done|]. eauto.
    + intros (e & x & He%Hin & Hrest). right. eauto.
Qed.

(** X1: with the store answering the query for executions and every input
    event on a candidate naming an execution of the store, the in-use filter
    returns exactly the candidates that are not in use, in their order, and
    leaves the world as it was.  Events on other artifacts and output events
    play no part, whatever executions they name. *)
Theorem in_use_filter_exact (artifacts : list Artifact.t) (events : list Event.t) w :
  Store.fault (w_store w) GetExecutionsById = None →
  (∀ e, e ∈ events → relevant_event artifacts e →
        is_Some (Store.executions (w_store w) !! Event.execution_id e)) →
  _artifacts_not_in_use artifacts events w
  = (Ok (filter (λ a, ¬ in_use (w_store w) events a) artifacts), w).
Proof. apply artifacts_not_in_use_exact. Qed.

(** X2: an input event on a candidate whose execution the store does not
    hold makes the in-use filter raise RuntimeError; the event is not
    silently dropped, and no candidate is returned. *)
Theorem missing_execution_raises (artifacts : list Artifact.t)
    (events : list Event.t) w e :
  Store.fault (w_store w) GetExecutionsById = None →
  e ∈ events → relevant_event artifacts e →
  Store.executions (w_store w) !! Event.execution_id e = None →
  _artifacts_not_in_use artifacts events w
  = (Raise (RuntimeError "Could not find execution with id: %d"), w).
Proof.
  intros Hfault He Hrel Hnone. unfold _artifacts_not_in_use.
  set (input_events := filter _ events).
  assert (e ∈ input_events) as Hin by (by apply relevant_event_filter).
  destruct (map Event.execution_id input_events) as [|i0 ids'] eqn:Hids.
  { apply (f_equal length) in Hids. rewrite length_map in Hids.
    destruct input_events; [by apply elem_of_nil in Hin|done]. }
  rewrite <- Hids. clear Hids i0 ids'.
  destruct (Store.get_executions_by_id (map Event.execution_id input_events)
              (w_store w)) as [xs|e0] eqn:Hxs.
  2:{ unfold Store.get_executions_by_id, Store.guard in Hxs.
      by rewrite Hfault in Hxs. }
  erewrite bind_ok; [|by unfold store_read; rewrite Hxs].
  erewrite bind_raise; [done|]. unfold lift_result. f_equal.
  apply (in_use_loop_missing _ _ _ e Hin).
  erewrite fetched_map_lookup; [|exact Hxs|].
  - by rewrite Hnone.
  - change (Event.execution_id e ∈ Event.execution_id <$> input_events).
    apply list_elem_of_fmap. eauto.
Qed.
End in_use_claims.

(** Three candidates, one read by an active execution; an output event and an
    event on another artifact are ignored. *)
Lemma in_use_filter_exact_witness :
  _artifacts_not_in_use [a_old; a_mid; a_new] (Store.events (w_store w_in_use))
    w_in_use
  = (Ok [a_mid; a_new], w_in_use).
Proof.
  rewrite (in_use_filter_exact (F:=SimFS)).
  - f_equal.
  - done.
  - intros e He _. unfold w_in_use in He. simpl in He.
    repeat (apply elem_of_cons in He as [->|He]); [..|by apply elem_of_nil in He];
      by apply (bool_decide_unpack _).
Defined.

(** The event of artifact 2 names execution 555, which the store lacks. *)
Lemma missing_execution_raises_witness :
  fst (_artifacts_not_in_use [a_old; a_mid] (Store.events (w_store w_dangling))
         w_dangling)
  = Raise (RuntimeError "Could not find execution with id: %d").
Proof.
  rewrite (missing_execution_raises (F:=SimFS) [a_old; a_mid]
             (Store.events (w_store w_dangling)) w_dangling
             (Event.mk 2 555 INPUT)); [done|done| | |done].
  - right. by left.
  - split; [|done]. simpl. right. by left.
Defined.


(** ** KeepMostRecentlyPublished: recency, counts, order of the input *)

Section kmrp_more.
Implicit Types (A D : list Artifact.t) (n : Z).
Local Abbreviation ts := Artifact.create_time_since_epoch.

(** X3: whatever n, every artifact KeepMostRecentlyPublished deletes is
    strictly older than every artifact it keeps. *)
Theorem kmrp_deleted_older_than_kept A n D d k :
  _artifacts_not_most_recently_published A n = Ok D →
  d ∈ D → k ∈ A → k ∉ D → ts d < ts k.
Proof.
  intros HD Hd Hk Hnk.
  destruct (Z.le_gt_cases n 0) as [Hn|Hn].
  { rewrite kmrp_nonpositive in HD by done. by simplify_eq. }
  destruct (Z.le_gt_cases (Z.of_nat (length A)) n) as [Hle|Hlt].
  { rewrite kmrp_short in HD by done. simplify_eq. by apply elem_of_nil in Hd. }
  destruct (kmrp_long A n) as (c & _ & HD' & _); [lia..|].
  rewrite HD' in HD. simplify_eq.
  apply list_elem_of_filter in Hd as [Hd _].
  rewrite list_elem_of_filter in Hnk.
  destruct (decide (ts k < c)); [tauto|lia].
Qed.

Lemma filter_le_split A (c : Z) :
  length (filter (λ a, c ≤ ts a) A)
  = (length (filter (λ a, (c < ts a)%Z) A)
     + length (filter (λ a, ts a = c) A))%nat.
Proof.
  induction A as [|a A IH]; [done|].
  rewrite !filter_cons. repeat case_decide; simpl; lia.
Qed.

Lemma filter_eq_NoDup A (c : Z) :
  NoDup (ts <$> A) → (length (filter (λ a, ts a = c) A) ≤ 1)%nat.
Proof.
  induction A as [|a A IH]; [simpl; lia|].
  rewrite fmap_cons. intros [Ha Hnd]%NoDup_cons. rewrite filter_cons.
  case_decide as Hc; [|by apply IH].
  rewrite filter_none; [simpl; lia|].
  apply Forall_forall. intros b Hb Hbc. apply Ha. rewrite Hc, <- Hbc.
  apply list_elem_of_fmap. eauto.
Qed.

(** X4: for n > 0, KeepMostRecentlyPublished keeps every artifact of a list
    of at most n, at least n artifacts of a longer list, and exactly n when
    the creation times are pairwise distinct. *)
Theorem kmrp_kept_count A n :
  0 < n →
  ∃ D, _artifacts_not_most_recently_published A n = Ok D
       ∧ (Z.of_nat (length A) ≤ n → kept_by A D = A)
       ∧ (n ≤ Z.of_nat (length A) → n ≤ Z.of_nat (length (kept_by A D)))
       ∧ (n ≤ Z.of_nat (length A) → NoDup (ts <$> A) →
          Z.of_nat (length (kept_by A D)) = n).
Proof.
  intros Hn. unfold kept_by.
  destruct (Z.le_gt_cases (Z.of_nat (length A)) n) as [Hle|Hlt].
  { exists []. rewrite list_difference_nil. split_and!; [by apply kmrp_short|done|lia..]. }
  destruct (kmrp_long A n) as (c & _ & HD & Habove & Hfrom); [lia..|].
  eexists. split; [exact HD|]. rewrite kmrp_kept. split_and!; [lia|done|].
  intros _ Hnd. rewrite filter_le_split in Hfrom |- *.
  pose proof (filter_eq_NoDup A c Hnd). lia.
Qed.

Lemma sorted_Z_perm_eq (l1 l2 : list Z) : l1 ≡ₚ l2 → sorted_Z l1 = sorted_Z l2.
Proof.
  intros Hp. apply (StronglySorted_unique Z.le); [apply sorted_Z_sorted..|].
  by rewrite !sorted_Z_perm.
Qed.

(** X5: the artifacts KeepMostRecentlyPublished deletes do not depend on the
    order in which the artifacts are listed: on a permutation of the list the
    delete-set is a permutation of the delete-set. *)
Theorem kmrp_order_irrelevant A A' n D :
  A ≡ₚ A' →
  _artifacts_not_most_recently_published A n = Ok D →
  ∃ D', _artifacts_not_most_recently_published A' n = Ok D' ∧ D ≡ₚ D'.
Proof.
  intros Hp HD. pose proof (Permutation_length Hp) as Hlen.
  destruct (Z.le_gt_cases n 0) as [Hn|Hn].
  { rewrite kmrp_nonpositive in HD |- * by done. simplify_eq. eauto. }
  destruct (Z.le_gt_cases (Z.of_nat (length A)) n) as [Hle|Hlt].
  { rewrite kmrp_short in HD by done. simplify_eq. exists [].
    split; [|done]. apply kmrp_short; lia. }
  destruct (kmrp_long A n) as (c & Hc & HD' & _); [lia..|].
  destruct (kmrp_long A' n) as (c' & Hc' & HD'' & _); [lia..|].
  rewrite HD' in HD. simplify_eq.
  rewrite <- (sorted_Z_perm_eq (ts <$> A) (ts <$> A')), <- Hlen, Hc in Hc'
    by (by rewrite Hp).
  simplify_eq. eexists. split; [exact HD''|]. by rewrite Hp.
Qed.
End kmrp_more.

(** Timestamps 10, 20, 20, 30 with n = 2: the deleted artifact of time 10 is
    older than the kept artifact of time 20. *)
Lemma kmrp_deleted_older_than_kept_witness :
  Artifact.create_time_since_epoch (mk_artifact 1 10 "/a/1" [])
  < Artifact.create_time_since_epoch (mk_artifact 2 20 "/a/2" []).
Proof.
  apply (kmrp_deleted_older_than_kept ex_ts 2 [mk_artifact 1 10 "/a/1" []]).
  - by vm_compute.
  - by left.
  - right. by left.
  - apply (bool_decide_unpack _). by vm_compute.
Defined.

(** Timestamps 10, 20, 30, 40 with n = 3: exactly three artifacts are kept. *)
Lemma kmrp_kept_count_witness :
  ∃ D, _artifacts_not_most_recently_published ex_distinct 3 = Ok D
       ∧ Z.of_nat (length (kept_by ex_distinct D)) = 3.
Proof.
  destruct (kmrp_kept_count ex_distinct 3) as (D & HD & _ & _ & Hn); [lia|].
  exists D. split; [done|]. apply Hn; [simpl; lia|].
  apply (bool_decide_unpack _). by vm_compute.
Defined.

(** The timestamps 10, 20, 20, 30 listed backwards. *)
Lemma kmrp_order_irrelevant_witness :
  ∃ D', _artifacts_not_most_recently_published (reverse ex_ts) 2 = Ok D'
        ∧ [mk_artifact 1 10 "/a/1" []] ≡ₚ D'.
Proof.
  apply (kmrp_order_irrelevant ex_ts (reverse ex_ts) 2).
  - symmetry. apply reverse_Permutation.
  - by vm_compute.
Defined.


(** ** KeepPropertyValueGroups: groupings that keep everything, SMALLEST,
    survivors, further groupings *)

Section kpvg_more.
Implicit Types (A D g : list Artifact.t) (L G : list (list Artifact.t)).

Lemma typed_subset p t A g : typed p t A → g ⊆ A → typed p t g.
Proof. intros Ht Hsub a v Ha. apply Ht. by apply Hsub. Qed.

(** Groupings with a non-positive keep_num lose no artifact. *)
Lemma grouping_loop_keep_all gs A L :
  Forall (λ gr, Grouping.keep_num gr ≤ 0
                ∧ ∃ t, typed (Grouping.property_name gr) t A) gs →
  (∀ a, a ∈ concat L → a ∈ A) →
  ∃ G, grouping_loop gs L = ([], Ok G) ∧ ∀ a, a ∈ concat L → a ∈ concat G.
Proof.
  intros Hgs. revert L. induction Hgs as [|gr gs [Hk [t Ht]] _ IH]; intros L HL.
  { exists L. by split. }
  destruct (group_loop_ok gr L None [] t) as (L' & HL' & Hmem);
    [by intros _; left|by intros a v Ha; apply Ht, HL|by left|].
  destruct (IH L') as (G & HG & Hkeep).
  { intros a (g' & Hg' & Ha)%elem_of_concat.
    apply Hmem in Hg' as [?%elem_of_nil|Hnext]; [done|].
    apply next_group_subset in Hnext as (_ & g & Hg & Hsub).
    apply HL, elem_of_concat. exists g. split; [done|]. by apply Hsub. }
  exists G. split.
  - cbn [grouping_loop]. by rewrite HL', lbind_ret.
  - intros a (g & Hg & Ha)%elem_of_concat. apply Hkeep, elem_of_concat.
    eexists. split.
    + apply Hmem. right. exists g, (_get_property_value a (Grouping.property_name gr)).
      split_and!; [done| |by left|done].
      apply list_elem_of_fmap. eauto.
    + by apply list_elem_of_filter.
Qed.

(** X6: a KeepPropertyValueGroups policy all of whose groupings have
    keep_num <= 0 (in particular one without groupings) deletes nothing,
    provided the values of each grouping property share one type; the
    keep_order of such a grouping is not consulted, not even an unknown one. *)
Theorem kpvg_nonpositive_keeps_all A gs :
  Forall (λ gr, Grouping.keep_num gr ≤ 0
                ∧ ∃ t, typed (Grouping.property_name gr) t A) gs →
  _artifacts_not_kept_by_property_value_groups A gs = ([], Ok []).
Proof.
  intros Hgs.
  destruct (grouping_loop_keep_all gs A [A] Hgs) as (G & HG & Hkeep).
  { intros a. simpl. by rewrite app_nil_r. }
  unfold _artifacts_not_kept_by_property_value_groups.
  rewrite HG, lbind_ret. unfold lret. do 2 f_equal.
  apply filter_none, Forall_forall. intros a Ha Hn. apply Hn.
  change (map Artifact.id (concat G)) with (Artifact.id <$> concat G).
  apply list_elem_of_fmap. exists a. split; [done|].
  apply Hkeep. simpl. by rewrite app_nil_r.
Qed.

(** X7: with the single grouping {property_name: p, keep_num: k > 0,
    keep_order: SMALLEST}, KeepPropertyValueGroups deletes exactly the
    artifacts whose p-value is not among the k smallest distinct non-null
    values; artifacts without a value are deleted unless fewer than k
    distinct non-null values exist. *)
Theorem kpvg_single_smallest A p k t :
  0 < k → unique_ids A → typed p t A →
  _artifacts_not_kept_by_property_value_groups A [Grouping.mk p k KEEP_ORDER_SMALLEST]
  = ([], Ok (filter (λ a, ¬ kept_smallest p k A a) A)).
Proof.
  intros Hk Hnd Ht.
  rewrite (single_grouping_eval _ A t); [|by right|done..].
  do 2 f_equal. apply filter_ext_in. intros a _.
  unfold survives, kept_smallest. simpl.
  destruct (_get_property_value a p); split; try tauto; intros H [?|?]; try lia; tauto.
Qed.

(** In a group that is not empty some bucket survives the grouping. *)
Lemma some_bucket_survives gr g :
  g ≠ [] → order_ok gr →
  ∃ key, key ∈ (λ a, _get_property_value a (Grouping.property_name gr)) <$> g
         ∧ survives gr g key.
Proof.
  intros Hg Hok. destruct g as [|a0 g0]; [done|]. set (g := a0 :: g0) in *.
  set (p := Grouping.property_name gr).
  destruct (Z.le_gt_cases (Grouping.keep_num gr) 0) as [Hk|Hk].
  { exists (_get_property_value a0 p). split; [|by left]. unfold g.
    rewrite fmap_cons. by left. }
  assert (∀ v, v ∈ nonnull_values p g → Some v ∈ (λ a, _get_property_value a p) <$> g)
    as Hval.
  { intros v. unfold nonnull_values.
    rewrite elem_of_remove_dups, list_elem_of_omap.
    intros (a & Ha & Hv). apply list_elem_of_fmap. eauto. }
  destruct (nonnull_values p g) as [|v0 vs] eqn:Hvals.
  { exists None. split; [|right; simpl; fold p; rewrite Hvals; simpl; lia].
    destruct (_get_property_value a0 p) as [v|] eqn:Hv.
    - assert (v ∈ nonnull_values p g) as Hin; [|by rewrite Hvals in Hin;
        apply elem_of_nil in Hin].
      unfold nonnull_values. rewrite elem_of_remove_dups, list_elem_of_omap.
      exists a0. split; [by left|done].
    - unfold g. rewrite fmap_cons, Hv. by left. }
  rewrite <- Hvals in *.
  assert (NoDup (nonnull_values p g)) as Hnd by apply NoDup_remove_dups.
  assert (length (nonnull_values p g) ≠ 0%nat) as Hlen
    by (rewrite Hvals; done).
  destruct Hok as [?|Hok]; [lia|]. unfold survives. fold p.
  destruct (Grouping.keep_order gr) eqn:Hord; [| | |done].
  - destruct (py_slice_last (Grouping.keep_num gr)
                (sorted_props (nonnull_values p g))) as [|v rest] eqn:Hs.
    { apply (f_equal length) in Hs. unfold py_slice_last in Hs.
      rewrite length_drop, sorted_props_perm in Hs. simpl in Hs. lia. }
    assert (v ∈ py_slice_last (Grouping.keep_num gr)
                  (sorted_props (nonnull_values p g))) as Hv
      by (rewrite Hs; by left).
    apply slice_last_props in Hv as [Hv Hrank]; [|done..].
    exists (Some v). split; [by apply Hval|by right].
  - destruct (py_slice_last (Grouping.keep_num gr)
                (sorted_props (nonnull_values p g))) as [|v rest] eqn:Hs.
    { apply (f_equal length) in Hs. unfold py_slice_last in Hs.
      rewrite length_drop, sorted_props_perm in Hs. simpl in Hs. lia. }
    assert (v ∈ py_slice_last (Grouping.keep_num gr)
                  (sorted_props (nonnull_values p g))) as Hv
      by (rewrite Hs; by left).
    apply slice_last_props in Hv as [Hv Hrank]; [|done..].
    exists (Some v). split; [by apply Hval|by right].
  - destruct (py_slice_first (Grouping.keep_num gr)
                (sorted_props (nonnull_values p g))) as [|v rest] eqn:Hs.
    { apply (f_equal length) in Hs. unfold py_slice_first in Hs.
      rewrite length_take, sorted_props_perm in Hs. simpl in Hs. lia. }
    assert (v ∈ py_slice_first (Grouping.keep_num gr)
                  (sorted_props (nonnull_values p g))) as Hv
      by (rewrite Hs; by left).
    apply slice_first_props in Hv as [Hv Hrank]; [|done..].
    exists (Some v). split; [by apply Hval|by right].
Qed.

(** Every group that is not empty has a member among the final groups. *)
Lemma grouping_loop_survivor gs L l G g :
  grouping_loop gs L = (l, Ok G) → g ∈ L → g ≠ [] →
  ∃ a, a ∈ g ∧ a ∈ concat G.
Proof.
  revert L l g. induction gs as [|gr gs IH]; intros L l g H Hg Hne.
  - cbn in H. unfold lret in H. simplify_eq.
    destruct g as [|a g]; [done|]. exists a. split; [by left|].
    apply elem_of_concat. exists (a :: g). split; [done|by left].
  - cbn [grouping_loop] in H.
    apply lbind_inv_ok in H as (l1 & L' & l2 & H1 & H2 & _).
    apply group_loop_spec in H1 as (_ & Hok & _ & Hmem).
    destruct (some_bucket_survives gr g Hne) as (key & Hkey & Hs).
    { apply Hok. intros ->. by apply elem_of_nil in Hg. }
    set (g' := filter (λ a, _get_property_value a (Grouping.property_name gr) = key) g).
    assert (next_group gr L g') as Hnext by (exists g, key; done).
    destruct (IH L' l2 g' H2) as (a & Ha & HaG).
    + by apply Hmem.
    + by apply next_group_subset in Hnext as [? _].
    + exists a. split; [|done]. by apply list_elem_of_filter in Ha as [_ ?].
Qed.

(** X8: KeepPropertyValueGroups never deletes everything: whenever it
    returns a delete-set for a list that is not empty, some artifact of the
    list is not in it. *)
Theorem kpvg_keeps_something A gs l D :
  A ≠ [] →
  _artifacts_not_kept_by_property_value_groups A gs = (l, Ok D) →
  ∃ a, a ∈ A ∧ a ∉ D.
Proof.
  intros HA H. unfold _artifacts_not_kept_by_property_value_groups in H.
  apply lbind_inv_ok in H as (l1 & G & l2 & HG & HD & _).
  unfold lret in HD. simplify_eq.
  destruct (grouping_loop_survivor gs [A] l1 G A HG) as (a & Ha & HaG);
    [by left|done|].
  exists a. split; [done|]. rewrite list_elem_of_filter. intros [Hn _].
  apply Hn. change (map Artifact.id (concat G)) with (Artifact.id <$> concat G).
  apply list_elem_of_fmap. eauto.
Qed.

Lemma grouping_loop_app gs gs' L :
  grouping_loop (gs ++ gs') L = lbind (grouping_loop gs L) (grouping_loop gs').
Proof.
  revert L. induction gs as [|gr gs IH]; intros L.
  - cbn [app grouping_loop]. unfold lret. by rewrite lbind_ret.
  - cbn [app grouping_loop].
    destruct (group_loop gr L None []) as [l1 [L'|e]]; [|done].
    unfold lbind at 1 3. rewrite IH.
    destruct (grouping_loop gs L') as [l2 [G|e]]; simpl.
    + destruct (grouping_loop gs' G) as [l3 r]. by rewrite (assoc (++)).
    + done.
Qed.

(** X9: further groupings only delete more: what KeepPropertyValueGroups
    deletes under a list of groupings it also deletes under that list followed
    by more groupings. *)
Theorem kpvg_more_groupings_delete_more A gs gs' l1 D1 l2 D2 :
  _artifacts_not_kept_by_property_value_groups A gs = (l1, Ok D1) →
  _artifacts_not_kept_by_property_value_groups A (gs ++ gs') = (l2, Ok D2) →
  D1 ⊆ D2.
Proof.
  unfold _artifacts_not_kept_by_property_value_groups. intros H1 H2.
  apply lbind_inv_ok in H1 as (? & G1 & ? & HG1 & HD1 & _).
  apply lbind_inv_ok in H2 as (? & G2 & ? & HG2 & HD2 & _).
  unfold lret in HD1, HD2. simplify_eq.
  rewrite grouping_loop_app, HG1 in HG2.
  apply lbind_inv_ok in HG2 as (? & G1' & ? & [= <- <-] & HG2 & _).
  pose proof (grouping_loop_shrink _ _ _ _ HG2) as Hshrink.
  intros a [Hn Ha]%list_elem_of_filter. apply list_elem_of_filter.
  split; [|done]. intros Hin. apply Hn.
  change (map Artifact.id (concat G2)) with (Artifact.id <$> concat G2) in Hin.
  apply list_elem_of_fmap in Hin as (b & -> & Hb).
  change (map Artifact.id (concat G1)) with (Artifact.id <$> concat G1).
  apply list_elem_of_fmap. eauto.
Qed.

(** X10: whatever the policy, the delete-set is a sublist of the artifacts
    given: the evaluator invents no artifact, repeats none and keeps their
    order. *)
Theorem policy_result_sublist A policy l D :
  _artifacts_to_garbage_collect_for_policy A policy = (l, Ok D) →
  D `sublist_of` A.
Proof.
  unfold _artifacts_to_garbage_collect_for_policy.
  destruct (GarbageCollectionPolicy.policy policy) as [n|gs|].
  - unfold llift, _artifacts_not_most_recently_published.
    repeat case_match; intros; simplify_eq; try done.
    + apply sublist_nil_l.
    + apply sublist_filter.
  - intros H. unfold _artifacts_not_kept_by_property_value_groups in H.
    apply lbind_inv_ok in H as (? & G & ? & _ & HD & _).
    unfold lret in HD. simplify_eq. apply sublist_filter.
  - intros H. cbn in H. simplify_eq. apply sublist_nil_l.
Qed.
End kpvg_more.

Ltac typed_on_list defs :=
  let a := fresh "a" in
  let v := fresh "v" in
  let Ha := fresh "Ha" in
  let Hv := fresh "Hv" in
  intros a v Ha Hv; vm_compute in Ha;
  repeat (apply elem_of_cons in Ha as [->|Ha]);
  [..|by apply elem_of_nil in Ha]; vm_compute in Hv; by simplify_eq.

(** Spans 1, 1, 2, 3 and a missing span under a grouping with keep_num 0 and
    an unknown order: nothing is deleted. *)
Lemma kpvg_nonpositive_keeps_all_witness :
  _artifacts_not_kept_by_property_value_groups ex_span_null [gr_keep_all]
  = ([], Ok []).
Proof.
  apply kpvg_nonpositive_keeps_all. constructor; [|constructor].
  split; [simpl; lia|]. exists TInt. typed_on_list tt.
Defined.

(** Spans 1, 1, 2, 3 keeping the smallest span. *)
Lemma kpvg_single_smallest_witness :
  _artifacts_not_kept_by_property_value_groups ex_span
    [Grouping.mk "span" 1 KEEP_ORDER_SMALLEST]
  = ([], Ok (filter (λ a, ¬ kept_smallest "span" 1 ex_span a) ex_span))
  ∧ filter (λ a, ¬ kept_smallest "span" 1 ex_span a) ex_span
    = [mk_artifact 3 30 "/a/3" [("span", int_value 2)];
       mk_artifact 4 40 "/a/4" [("span", int_value 3)]].
Proof.
  split; [|by vm_compute].
  apply (kpvg_single_smallest ex_span "span" 1 TInt).
  - lia.
  - apply unique_ids_Forall. apply (bool_decide_unpack _). by vm_compute.
  - typed_on_list tt.
Defined.

(** Spans 1, 1, 2, 3 keeping the largest span: an artifact survives. *)
Lemma kpvg_keeps_something_witness :
  ∃ a, a ∈ ex_span
       ∧ a ∉ [mk_artifact 1 10 "/a/1" [("span", int_value 1)];
              mk_artifact 2 20 "/a/2" [("span", int_value 1)];
              mk_artifact 3 30 "/a/3" [("span", int_value 2)]].
Proof.
  apply (kpvg_keeps_something ex_span [Grouping.mk "span" 1 KEEP_ORDER_LARGEST] []).
  - done.
  - by vm_compute.
Defined.

(** Keeping the smallest span, then the largest version within it. *)
Lemma kpvg_more_groupings_delete_more_witness :
  [mk_artifact 3 30 "/a/3" [("span", int_value 2); ("version", int_value 1)]]
  ⊆ [mk_artifact 1 10 "/a/1" [("span", int_value 1); ("version", int_value 1)];
     mk_artifact 3 30 "/a/3" [("span", int_value 2); ("version", int_value 1)]].
Proof.
  apply (kpvg_more_groupings_delete_more ex_versions
           [Grouping.mk "span" 1 KEEP_ORDER_SMALLEST]
           [Grouping.mk "version" 1 KEEP_ORDER_LARGEST] [] _ [] _); by vm_compute.
Defined.

(** Timestamps 10, 20, 20, 30 with n = 2. *)
Lemma policy_result_sublist_witness :
  [mk_artifact 1 10 "/a/1" []] `sublist_of` ex_ts.
Proof.
  apply (policy_result_sublist ex_ts (kmrp 2 []) []). by vm_compute.
Defined.


(** ** The purge step: containment of removal failures, order of the calls *)

Section purge_more.
Context {F : Type} `{!FileIO F}.
Implicit Types (w : World F) (a : Artifact.t) (l : list Artifact.t).

(** X11: a failure of isdir, rmtree or remove never leaves the purge step.
    With an existence check that does not raise and a store that accepts the
    write, [garbage_collect_artifacts] returns normally for every list of
    artifacts, whatever the three operations do. *)
Theorem removal_failures_do_not_escape l w :
  (∀ u fs, ∃ b fs', fileio_exists u fs = (Ok b, fs')) →
  Store.fault (w_store w) PutArtifacts = None →
  ∃ w', garbage_collect_artifacts l w = (Ok tt, w').
Proof.
  intros Hex Hput. destruct l as [|a l]; [by eexists|].
  destruct (purge_loop_returns (a :: l) w Hex) as (batch & w1 & Hloop).
  unfold garbage_collect_artifacts. rewrite (bind_ok _ _ _ _ _ Hloop).
  apply purge_loop_effects in Hloop as (Hs & _).
  unfold store_put_artifacts, Store.put_artifacts. rewrite Hs, Hput. eauto.
Qed.

(** X12: the filesystem calls of [_delete_artifact_uri] on a uri and its
    answer.  isdir is always called first; rmtree follows exactly when isdir
    answered true and remove exactly when it answered false, once.  When
    neither isdir nor the removal raised, no existence check is made and the
    answer is True.  When one of them raised, the existence check is the
    last call, made once on the filesystem the failure left, and the answer
    is the negation of what it reports, or the exception it raises. *)
Theorem removal_call_discipline a w r w' :
  _delete_artifact_uri a w = (r, w') →
  ∃ tail,
    w_calls w' = w_calls w ++ CallIsdir (Artifact.uri a) :: tail
    ∧ match fst (fileio_isdir (Artifact.uri a) (w_fs w)),
            remove_uri (Artifact.uri a) (at_removal w) with
      | Ok true, (Ok _, _) =>
          tail = [CallRmtree (Artifact.uri a)] ∧ r = Ok true
      | Ok true, (Raise _, w1) =>
          tail = [CallRmtree (Artifact.uri a); CallExists (Artifact.uri a)]
          ∧ answer_after_failure (Artifact.uri a) (w_fs w1) r
      | Ok false, (Ok _, _) =>
          tail = [CallRemove (Artifact.uri a)] ∧ r = Ok true
      | Ok false, (Raise _, w1) =>
          tail = [CallRemove (Artifact.uri a); CallExists (Artifact.uri a)]
          ∧ answer_after_failure (Artifact.uri a) (w_fs w1) r
      | Raise _, (_, w1) =>
          tail = [CallExists (Artifact.uri a)]
          ∧ answer_after_failure (Artifact.uri a) (w_fs w1) r
      end.
Proof.
  unfold _delete_artifact_uri, remove_uri, at_removal, answer_after_failure,
    bind, try_except, fs_call, log, ret, add_logs. simpl.
  destruct (fileio_isdir (Artifact.uri a) (w_fs w)) as [[[]|e1] fs1]; simpl.
  - destruct (fileio_rmtree (Artifact.uri a) fs1) as [[[]|e2] fs2]; simpl.
    + intros [= <- <-]. simpl. eexists. by rewrite <- (assoc (++)).
    + destruct (fileio_exists (Artifact.uri a) fs2) as [[[]|e3] fs3]; simpl;
        intros [= <- <-]; simpl; eexists; by rewrite <- !(assoc (++)).
  - destruct (fileio_remove (Artifact.uri a) fs1) as [[[]|e2] fs2]; simpl.
    + intros [= <- <-]. simpl. eexists. by rewrite <- (assoc (++)).
    + destruct (fileio_exists (Artifact.uri a) fs2) as [[[]|e3] fs3]; simpl;
        intros [= <- <-]; simpl; eexists; by rewrite <- !(assoc (++)).
  - destruct (fileio_exists (Artifact.uri a) fs1) as [[[]|e3] fs3]; simpl;
      intros [= <- <-]; simpl; eexists; by rewrite <- !(assoc (++)).
Qed.
End purge_more.

(** A directory that can be removed next to a protected file: the step
    returns. *)
Lemma removal_failures_do_not_escape_witness :
  ∃ w', garbage_collect_artifacts [ex_internal; ex_external] w_protected
        = (Ok tt, w').
Proof.
  apply (removal_failures_do_not_escape (F:=SimFS)).
  - intros u fs. by eexists _, _.
  - done.
Defined.

(** The uri is a protected file: isdir, remove, then the existence check,
    which finds the file; the answer is False. *)
Lemma removal_call_discipline_witness :
  w_calls (snd (_delete_artifact_uri ex_internal w_protected))
  = [CallIsdir "/a/8"; CallRemove "/a/8"; CallExists "/a/8"]
  ∧ fst (_delete_artifact_uri ex_internal w_protected) = Ok false.
Proof.
  destruct (removal_call_discipline (F:=SimFS) ex_internal w_protected
              (fst (_delete_artifact_uri ex_internal w_protected))
              (snd (_delete_artifact_uri ex_internal w_protected)))
    as (tail & Hc & Ht); [by vm_compute|].
  change (tail = [CallRemove "/a/8"; CallExists "/a/8"]
          ∧ fst (_delete_artifact_uri ex_internal w_protected) = Ok false)
    in Ht.
  destruct Ht as [-> Hr]. split; [exact Hc|exact Hr].
Defined.

(** ** The node: early exits and where candidates come from *)

Section node_more.
Context {F : Type} `{!FileIO F} {ext : GarbageCollectionExtensions}.
Implicit Types (w : World F) (a : Artifact.t).

Lemma no_policies node :
  (∀ key spec, Node.outputs node !! key = Some spec →
               OutputSpec.garbage_collection_policy spec = None) →
  _get_garbage_collection_policies_for_node node = ∅.
Proof.
  intros Hnone. apply map_eq. intros key.
  unfold _get_garbage_collection_policies_for_node.
  rewrite lookup_omap, lookup_empty.
  destruct (Node.outputs node !! key) as [spec|] eqn:Hkey; [|done].
  simpl. by apply (Hnone key).
Qed.

(** X13: for a node none of whose outputs has a garbage-collection policy,
    the entry point returns normally without a single store query, filesystem
    call or store write, whatever the state of the store: it only logs. *)
Theorem node_without_policy_touches_nothing node_uid node w :
  (∀ key spec, Node.outputs node !! key = Some spec →
               OutputSpec.garbage_collection_policy spec = None) →
  Node.node_info_id node = NodeUid.node_id node_uid →
  run_garbage_collection_for_node node_uid node w
  = (Ok tt,
     add_logs [(INFO, "Garbage collection requested for node %s");
               (INFO, "Garbage collection policies for node %s: %s");
               (INFO, "Artifacts to garbage collect for node %s: %s")] w).
Proof.
  intros Hnone Heq. unfold run_garbage_collection_for_node.
  erewrite bind_ok; [|done].
  rewrite decide_False by (intros Hne; by apply Hne).
  unfold try_except.
  erewrite bind_ok; last first.
  { unfold get_artifacts_to_garbage_collect_for_node.
    erewrite bind_ok; [|done]. rewrite decide_True by (by apply no_policies).
    done. }
  erewrite bind_ok; [|done]. cbn. by rewrite !add_logs_app.
Qed.

(** X14: the early exit on the live artifacts is taken exactly on a mapping
    without output keys.  When the mapping the store returns for the node
    has no key, the candidate computation returns the empty list without
    asking for events or executions, so that a store unable to answer those
    queries does not make it fail.  When the mapping has a key, be it bound
    to no artifact at all, and some output has a policy, the events are
    asked for: a store that cannot answer that query makes the computation
    raise. *)
Theorem node_without_live_artifacts node_uid node w :
  Store.fault (w_store w) GetLiveOutputArtifacts = None →
  (Store.live_outputs (w_store w) (NodeUid.pipeline_id node_uid)
     (NodeUid.node_id node_uid) = ∅ →
   ∃ l, get_artifacts_to_garbage_collect_for_node node_uid node w
        = (Ok [], add_logs l w))
  ∧ (Store.live_outputs (w_store w) (NodeUid.pipeline_id node_uid)
       (NodeUid.node_id node_uid) ≠ ∅ →
     _get_garbage_collection_policies_for_node node ≠ ∅ →
     ∀ e, Store.fault (w_store w) GetEventsByArtifactIds = Some e →
          ∃ l, get_artifacts_to_garbage_collect_for_node node_uid node w
               = (Raise e, add_logs l w)).
Proof.
  intros Hfault.
  assert (∀ w0, w_store w0 = w_store w →
            _get_live_output_artifacts_for_node node_uid w0
            = (Ok (@concat Artifact.t
                     <$> Store.live_outputs (w_store w)
                           (NodeUid.pipeline_id node_uid)
                           (NodeUid.node_id node_uid)), w0)) as Hget.
  { intros w0 Hw0. unfold _get_live_output_artifacts_for_node.
    erewrite bind_ok; [done|].
    unfold store_read, Store.get_live_output_artifacts_of_node_by_output_key,
      Store.guard. by rewrite Hw0, Hfault. }
  split.
  - intros Hlive. unfold get_artifacts_to_garbage_collect_for_node.
    erewrite bind_ok; [|done]. case_decide; [by eexists|].
    erewrite bind_ok; [|by apply Hget].
    rewrite Hlive, fmap_empty, decide_True by done. by eexists.
  - intros Hlive Hpol e He. unfold get_artifacts_to_garbage_collect_for_node.
    erewrite bind_ok; [|done]. rewrite decide_False by done.
    erewrite bind_ok; [|by apply Hget].
    rewrite decide_False by (by intros ?%fmap_empty_inv).
    erewrite bind_ok; [|done].
    erewrite bind_raise; last first.
    { unfold store_read, Store.get_events_by_artifact_ids, Store.guard.
      simpl. by rewrite He. }
    eexists. by rewrite <- add_logs_app.
Qed.


End node_more.

(** A node without policy on a store that fails on every operation. *)
Lemma node_without_policy_touches_nothing_witness :
  run_garbage_collection_for_node (ext:=no_extension) ex_uid node_no_policy
    w_all_down
  = (Ok tt,
     add_logs [(INFO, "Garbage collection requested for node %s");
               (INFO, "Garbage collection policies for node %s: %s");
               (INFO, "Artifacts to garbage collect for node %s: %s")]
       w_all_down).
Proof.
  apply (node_without_policy_touches_nothing (F:=SimFS) (ext:=no_extension)).
  - intros key spec Hkey. unfold node_no_policy in Hkey. simpl in Hkey.
    apply lookup_singleton_Some in Hkey as [_ <-]. done.
  - done.
Defined.

(** A store that cannot list events: without an output key the computation
    returns, with the key "model" bound to no artifact it raises. *)
Lemma node_without_live_artifacts_witness :
  (∃ l, get_artifacts_to_garbage_collect_for_node (ext:=no_extension)
          ex_uid ex_node w_nothing_live
        = (Ok [], add_logs l w_nothing_live))
  ∧ (∃ l, get_artifacts_to_garbage_collect_for_node (ext:=no_extension)
            ex_uid ex_node w_empty_key
          = (Raise (StoreError "unavailable"), add_logs l w_empty_key)).
Proof.
  split.
  - by apply (node_without_live_artifacts (F:=SimFS) (ext:=no_extension)
                ex_uid ex_node w_nothing_live eq_refl).
  - apply (node_without_live_artifacts (F:=SimFS) (ext:=no_extension)
             ex_uid ex_node w_empty_key eq_refl).
    + simpl. apply insert_non_empty.
    + unfold _get_garbage_collection_policies_for_node, ex_node. simpl.
      rewrite (omap_singleton_Some _ _ _ (kmrp 1 [])) by done.
      apply insert_non_empty.
    + done.
Defined.



(** ** The stages of one output key, composed *)

Section stages.
Context {F : Type} `{!FileIO F} {ext : GarbageCollectionExtensions}.
Implicit Types (w : World F).

(** X16: the candidates of one output key are the policy's delete-set, passed
    through the extension, less the artifacts in use; the log grows by what
    the policy logged.  Only events on what is left after the policy and the
    extension are looked at: an event on an artifact the policy keeps may name
    a missing execution without harm. *)
Theorem stages_compose (artifacts : list Artifact.t) (events : list Event.t)
    policy w l D D' :
  _artifacts_to_garbage_collect_for_policy artifacts policy = (l, Ok D) →
  artifacts_not_in_use_in_pipeline_groups (w_store w)
    (GarbageCollectionPolicy.keep_if_used_in_pipeline_groups policy) D = Ok D' →
  Store.fault (w_store w) GetExecutionsById = None →
  (∀ e, e ∈ events → relevant_event D' e →
        is_Some (Store.executions (w_store w) !! Event.execution_id e)) →
  _artifacts_to_garbage_collect artifacts events policy w
  = (Ok (filter (λ a, ¬ in_use (w_store w) events a) D'), add_logs l w).
Proof.
  intros Hpol Hext Hfault Hall. unfold _artifacts_to_garbage_collect.
  erewrite bind_ok; [|by unfold lift_logged; rewrite Hpol].
  erewrite bind_ok; [|by unfold store_read; simpl; rewrite Hext].
  erewrite bind_ok; [done|]. simpl.
  by rewrite (artifacts_not_in_use_exact D' events (add_logs l w)).
Qed.
End stages.

(** Keeping the two newest of three artifacts: the event on the newest names
    a missing execution and is not looked at. *)
Lemma stages_compose_witness :
  _artifacts_to_garbage_collect (ext:=no_extension) [a_old; a_mid; a_new]
    (Store.events (w_store w_dangling_kept)) (kmrp 2 []) w_dangling_kept
  = (Ok [a_old], w_dangling_kept).
Proof.
  rewrite (stages_compose (F:=SimFS) (ext:=no_extension) [a_old; a_mid; a_new]
             (Store.events (w_store w_dangling_kept)) (kmrp 2 [])
             w_dangling_kept [] [a_old] [a_old]).
  - done.
  - by vm_compute.
  - done.
  - done.
  - intros e He [Hid _]. unfold w_dangling_kept in He. simpl in He.
    repeat (apply elem_of_cons in He as [->|He]); [..|by apply elem_of_nil in He].
    + by apply (bool_decide_unpack _).
    + exfalso. simpl in Hid. set_solver.
Defined.
